(** * Branch currents of an electrical network: the equation assembler of GRacC.py

    A shallow embedding of [BCSThesis/Source/GRacC.py] (and of its twin
    [BCSThesis/GRacC.py], whose [get_A_coord] is [get_edge_index] under another
    name).  Python floats are the kernel's binary64 floats, numpy arrays are
    lists updated by index with the bounds check written out, Python exceptions
    are an error monad.  The functions of networkx, numpy and scipy that the
    program calls are modelled in the modules [nx], [np] and [linalg]. *)

From Stdlib Require Import Floats ZArith Lia.
From stdpp Require Import base tactics option list gmap strings.

(** ** Exceptions *)

(** The Python exceptions the program can meet.  [OutOfFuel] is not a Python
    exception: it marks a traversal of the model that was given too little
    fuel. *)
Inductive exn : Set :=
| IndexError | KeyError | TypeError | ValueError
| NetworkXNoCycle | LinAlgError | OutOfFuel.

Inductive Res (A : Type) : Type :=
| Ok (a : A)
| Raise (e : exn).
Arguments Ok {A} a.
Arguments Raise {A} e.

Definition bind {A B} (m : Res A) (f : A → Res B) : Res B :=
  match m with Ok a => f a | Raise e => Raise e end.

Notation "'let*' x ':=' m 'in' k" := (bind m (λ x, k))
  (at level 10, x pattern, m at level 100, k at level 200).

Definition is_Ok {A} (m : Res A) : Prop := ∃ a, m = Ok a.

(** ** Floats *)

(** Python's [x == 0] on a float. *)
Definition is_zero (x : float) : bool := PrimFloat.eqb x 0%float.

(** ** numpy *)

Module np.

(** [np.zeros([r, c])] *)
Definition zeros {A} (z : A) (r c : nat) : list (list A) := replicate r (replicate c z).

(** [l[i]] for a non-negative [i]. *)
Definition getitem {A} (l : list A) (i : nat) : Res A :=
  match l !! i with Some x => Ok x | None => Raise IndexError end.

(** [l[i] = x] for a non-negative [i]. *)
Definition setitem {A} (l : list A) (i : nat) (x : A) : Res (list A) :=
  if decide (i < length l) then Ok (<[i:=x]> l) else Raise IndexError.

(** [M[i][j]] *)
Definition getitem2 {A} (M : list (list A)) (i j : nat) : Res A :=
  let* row := getitem M i in getitem row j.

(** [M[i][j] = x] *)
Definition setitem2 {A} (M : list (list A)) (i j : nat) (x : A) : Res (list (list A)) :=
  let* row := getitem M i in let* row' := setitem row j x in setitem M i row'.

(** [M[i][cor] = x] where [cor] is an integer or [None]: indexing a row with
    [None] makes a view of the whole row with a new axis, and the assignment
    of a scalar fills it. *)
Definition setitem_row {A} (M : list (list A)) (i : nat) (cor : option nat) (x : A)
  : Res (list (list A)) :=
  match cor with
  | Some j => setitem2 M i j x
  | None => let* row := getitem M i in setitem M i (replicate (length row) x)
  end.

(** An index as numpy reads it: a negative one counts from the end. *)
Definition index (len : nat) (i : Z) : Res nat :=
  if decide (0 ≤ i < Z.of_nat len)%Z then Ok (Z.to_nat i)
  else if decide (- Z.of_nat len ≤ i < 0)%Z then Ok (Z.to_nat (Z.of_nat len + i))
  else Raise IndexError.

(** The elements of [l], from position [k] on, whose position is not in
    [obj]. *)
Fixpoint drop_at {A} (obj : list nat) (k : nat) (l : list A) : list A :=
  match l with
  | [] => []
  | x :: l' =>
      if bool_decide (k ∈ obj) then drop_at obj (S k) l'
      else x :: drop_at obj (S k) l'
  end.

(** [np.delete(arr, obj, 0)] for a list [obj] of non-negative indices. *)
Definition delete {A} (arr : list A) (obj : list nat) : Res (list A) :=
  if forallb (λ i, bool_decide (i < length arr)) obj
  then Ok (drop_at obj 0 arr) else Raise IndexError.

(** [np.delete(arr, j, 1)] for one index [j]; [ncols] is the second
    dimension of [arr] (an array keeps it also when it has no row). *)
Definition delete_col {A} (ncols : nat) (arr : list (list A)) (j : option nat)
  : Res (list (list A)) :=
  match j with
  | Some j =>
      if decide (j < ncols) then Ok (map (drop_at [j] 0) arr)
      else Raise IndexError
  | None => Raise IndexError
  end.

End np.

(** ** networkx *)

(** The attributes [circuit_parser] puts on a branch: the keys ['resistor'],
    ['battery'], ['capacitor'], ['self'] and ['suggested_dir'] of the edge's
    dictionary (['whole'], the label drawn on plots, is left out). *)
Record EdgeAttr : Set := {
  resistor : float;
  battery : float;
  capacitor : float;
  self : float;
  suggested_dir : nat * nat
}.

Module nx.

(** An undirected [nx.Graph] on the nodes [0 .. n-1], as the program builds
    all of its graphs: [adj] is the adjacency dictionary, each neighbour list
    in insertion order; [attr] holds the circuit attributes of an edge, one
    dictionary shared by both directions, under the ordered pair of its
    endpoints.  Every edge has the weight 1 the adjacency matrices give it. *)
Record Graph : Type := {
  adj : list (list nat);
  attr : gmap (nat * nat) EdgeAttr
}.

Definition edge_id (u v : nat) : nat * nat := (u `min` v, u `max` v).

Definition number_of_nodes (g : Graph) : nat := length (adj g).

(** [G.nodes] *)
Definition nodes (g : Graph) : list nat := seq 0 (number_of_nodes g).

(** [G.neighbors(u)] *)
Definition neighbors (g : Graph) (u : nat) : list nat := default [] (adj g !! u).

Definition has_edge (g : Graph) (u v : nat) : bool := bool_decide (v ∈ neighbors g u).

(** [G.get_edge_data(u, v)]: [None] when there is no such edge, else the
    edge's dictionary, here its circuit attributes if it has them. *)
Definition get_edge_data (g : Graph) (u v : nat) : option (option EdgeAttr) :=
  if has_edge g u v then Some (attr g !! edge_id u v) else None.

(** [G.edges()]: every node in order, with those of its neighbours that were
    not listed as a node before. *)
Definition edges_from_row (u : nat) (nbrs : list nat) : list (nat * nat) :=
  (λ v, (u, v)) <$> filter (λ v, u ≤ v) nbrs.

Definition edges (g : Graph) : list (nat * nat) :=
  mjoin (imap edges_from_row (adj g)).

(** [G.number_of_edges()] *)
Definition number_of_edges (g : Graph) : nat := length (edges g).

Definition add_nbr (v : nat) (nbrs : list nat) : list nat :=
  if bool_decide (v ∈ nbrs) then nbrs else nbrs ++ [v].

(** [G.add_edge(u, v)] between two nodes of the graph. *)
Definition add_edge (a : list (list nat)) (e : nat * nat) : list (list nat) :=
  alter (add_nbr e.1) e.2 (alter (add_nbr e.2) e.1 a).

(** The positions of the nonzero entries of an array, row by row. *)
Definition nonzero_row {A} (nz : A → bool) (i : nat) (row : list A) : list (nat * nat) :=
  (λ j, (i, j)) <$> filter (λ j, bool_decide (nz <$> row !! j = Some true)) (seq 0 (length row)).

Definition nonzero {A} (nz : A → bool) (M : list (list A)) : list (nat * nat) :=
  mjoin (imap (nonzero_row nz) M).

(** [nx.from_pandas_adjacency(pd.DataFrame(M))]: the nodes [0 .. len(M)-1] and
    one edge for each nonzero entry. *)
Definition from_pandas_adjacency {A} (nz : A → bool) (M : list (list A)) : Graph :=
  {| adj := foldl add_edge (replicate (length M) []) (nonzero nz M);
     attr := ∅ |}.

(** [nx.to_numpy_array(G).astype(int)] *)
Definition to_numpy_array (g : Graph) : list (list Z) :=
  (λ nbrs, (λ v, if bool_decide (v ∈ nbrs) then 1%Z else 0%Z) <$> nodes g) <$> adj g.

(** *** Minimum spanning tree (Kruskal) *)

(** The union-find structure, as the component label of each node. *)
Definition uf_find (labels : list nat) (u : nat) : nat := default u (labels !! u).

Definition uf_union (labels : list nat) (u v : nat) : list nat :=
  (λ l, if decide (l = uf_find labels v) then uf_find labels u else l) <$> labels.

(** The edges are taken in the order of their weights; all weights are 1 and
    the sort is stable, so this is the order of [G.edges]. *)
Fixpoint kruskal (labels : list nat) (es : list (nat * nat)) : list (nat * nat) :=
  match es with
  | [] => []
  | (u, v) :: es' =>
      if decide (uf_find labels u ≠ uf_find labels v)
      then (u, v) :: kruskal (uf_union labels u v) es'
      else kruskal labels es'
  end.

Definition mst_edges (g : Graph) : list (nat * nat) :=
  kruskal (nodes g) (edges g).

(** [nx.minimum_spanning_tree(G)]: a new graph with the nodes of [G] and the
    edges Kruskal's algorithm keeps, each with the dictionary it has in [G]. *)
Definition minimum_spanning_tree (g : Graph) : Graph :=
  {| adj := foldl add_edge (replicate (number_of_nodes g) []) (mst_edges g);
     attr := attr g |}.

(** *** Cycle search *)

(** What the generator [edge_dfs] yields. *)
Inductive stream : Type :=
| SNil
| SCons (e : nat * nat) (s : stream)
| SOut.

(** [nx.edge_dfs(G, source, orientation)] on an undirected graph: the loop
    [while stack], the stack with its top first, [iters] the dictionary
    [edges] of the lazily consumed neighbour lists. *)
Fixpoint edge_dfs_loop (fuel : nat) (g : Graph) (stack : list nat)
    (iters : gmap nat (list nat)) (visited_edges : gset (nat * nat)) : stream :=
  match stack with
  | [] => SNil
  | current :: stack' =>
      match fuel with
      | 0 => SOut
      | S fuel =>
          let iters :=
            match iters !! current with
            | Some _ => iters
            | None => <[current := neighbors g current]> iters
            end in
          match iters !! current with
          | Some (nbr :: rest) =>
              let iters := <[current := rest]> iters in
              if bool_decide (edge_id current nbr ∈ visited_edges)
              then edge_dfs_loop fuel g stack iters visited_edges
              else SCons (current, nbr)
                     (edge_dfs_loop fuel g (nbr :: stack) iters
                        ({[edge_id current nbr]} ∪ visited_edges))
          | _ => edge_dfs_loop fuel g stack' iters visited_edges
          end
      end
  end.

(** Every step of the loop takes a neighbour from a list or pops the stack. *)
Definition dfs_fuel (g : Graph) : nat := 2 * length (mjoin (adj g)) + 1.

Definition edge_dfs (g : Graph) (source : nat) : stream :=
  edge_dfs_loop (dfs_fuel g) g [source] ∅ ∅.

(** The inner [while True] of [find_cycle]: pop the path (its last edge
    first) until its last head is [tail]. *)
Fixpoint backtrack (path : list (nat * nat)) (active : gset nat) (tail : nat)
  : Res (list (nat * nat) * gset nat) :=
  match path with
  | [] => Ok ([], {[tail]})
  | popped :: rest =>
      if bool_decide (popped.2 ∈ active) then
        match rest with
        | last :: _ =>
            if bool_decide (tail = last.2) then Ok (rest, active ∖ {[popped.2]})
            else backtrack rest (active ∖ {[popped.2]}) tail
        | [] => backtrack rest (active ∖ {[popped.2]}) tail
        end
      else Raise KeyError
  end.

(** The loop [for edge in edge_dfs(...)] of [find_cycle]; the path is kept
    with its last edge first.  It ends with the edges up to a closing one and
    the node they close on, or with the nodes seen. *)
Fixpoint consume (s : stream) (explored : gset nat) (path : list (nat * nat))
    (seen active : gset nat) (previous_head : option nat)
  : Res (list (nat * nat) * nat + gset nat) :=
  match s with
  | SOut => Raise OutOfFuel
  | SNil => Ok (inr seen)
  | SCons (tail, head) s' =>
      if bool_decide (head ∈ explored)
      then consume s' explored path seen active previous_head
      else
        let* (path, active) := (if bool_decide (previous_head ≠ None ∧ previous_head ≠ Some tail)
           then backtrack path active tail else Ok (path, active)) in
        if bool_decide (head ∈ active)
        then Ok (inl (reverse ((tail, head) :: path), head))
        else consume s' explored ((tail, head) :: path)
               ({[head]} ∪ seen) ({[head]} ∪ active) (Some head)
  end.

(** The loop over the start nodes. *)
Fixpoint find_cycle_loop (g : Graph) (starts : list nat) (explored : gset nat)
  : Res (list (nat * nat) * nat) :=
  match starts with
  | [] => Raise NetworkXNoCycle
  | start_node :: starts' =>
      if bool_decide (start_node ∈ explored)
      then find_cycle_loop g starts' explored
      else
        let* r := consume (edge_dfs g start_node) explored []
              {[start_node]} {[start_node]} None in
        match r with
        | inl found => Ok found
        | inr seen => find_cycle_loop g starts' (explored ∪ seen)
        end
  end.

(** The last loop: the edges from the first one that leaves [final_node]. *)
Fixpoint trim (final_node : nat) (cycle : list (nat * nat)) : list (nat * nat) :=
  match cycle with
  | [] => []
  | [e] => [e]
  | e :: (_ :: _) as rest =>
      if bool_decide (e.1 = final_node) then cycle else trim final_node rest
  end.

(** [nx.find_cycle(G, orientation="ignore")]; the third component of the
    edges it returns, the constant ['forward'], is left out. *)
Definition find_cycle (g : Graph) : Res (list (nat * nat)) :=
  let* (cycle, final_node) := find_cycle_loop g (nodes g) ∅ in
  Ok (trim final_node cycle).

End nx.

(** ** scipy.linalg *)

Module linalg.

(** An equation of the system under elimination: the coefficients of the
    columns not yet eliminated, and the right-hand side. *)
Definition equation : Type := list float * float.

Definition lead (r : equation) : float := default 0%float (head r.1).

(** The first row whose leading coefficient has the largest absolute value
    (the pivot search of LAPACK's [getrf]). *)
Fixpoint argmax_abs (rows : list equation) (k : nat) (best : nat) (bestv : float) : nat :=
  match rows with
  | [] => best
  | r :: rows' =>
      if PrimFloat.ltb bestv (PrimFloat.abs (lead r))
      then argmax_abs rows' (S k) k (PrimFloat.abs (lead r))
      else argmax_abs rows' (S k) best bestv
  end.

Definition eliminate_row (piv : equation) (r : equation) : equation :=
  let l := PrimFloat.div (lead r) (lead piv) in
  (zip_with (λ x y, PrimFloat.sub x (PrimFloat.mul l y)) (tail r.1) (tail piv.1),
   PrimFloat.sub r.2 (PrimFloat.mul l piv.2)).

(** Elimination with partial pivoting; the result is upper triangular, row
    [i] holding the columns from [i] on. *)
Fixpoint eliminate (fuel : nat) (rows : list equation) : Res (list equation) :=
  match fuel, rows with
  | _, [] => Ok []
  | 0, _ => Raise OutOfFuel
  | S fuel, r0 :: rest =>
      let p := argmax_abs rest 1 0 (PrimFloat.abs (lead r0)) in
      let piv := default r0 (rows !! p) in
      let others := match p with 0 => rest | S q => <[q := r0]> rest end in
      if is_zero (lead piv) then Raise LinAlgError
      else let* U := eliminate fuel (eliminate_row piv <$> others) in Ok (piv :: U)
  end.

Definition dot (u x : list float) : float :=
  foldl PrimFloat.add 0%float (zip_with PrimFloat.mul u x).

Fixpoint back_substitute (U : list equation) : list float :=
  match U with
  | [] => []
  | r :: U' =>
      let x := back_substitute U' in
      PrimFloat.div (PrimFloat.sub r.2 (dot (tail r.1) x)) (lead r) :: x
  end.

(** [linalg.solve(A, B)] for a column [B]: a direct dense solve, which fails
    with [LinAlgError] on a singular matrix and with [ValueError] when the
    shapes do not fit. *)
Definition solve (A : list (list float)) (B : list float) : Res (list float) :=
  if bool_decide (Forall (λ row, length row = length A) A ∧ length B = length A)
  then let* U := eliminate (length A) (zip A B) in Ok (back_substitute U)
  else Raise ValueError.

End linalg.

(** ** The program *)

(** A Python [for] loop whose body may raise. *)
Fixpoint foldM {A B} (f : B → A → Res B) (l : list A) (b : B) : Res B :=
  match l with
  | [] => Ok b
  | x :: l' => let* b' := f b x in foldM f l' b'
  end.

(** A line of the circuit file after the first, as the six numbers it is
    split into. *)
Record BranchRecord : Set := {
  rec_org : Z;
  rec_dst : Z;
  rec_resistor : float;
  rec_battery : float;
  rec_capacitor : float;
  rec_self : float
}.

(** [d[k] = v] on a dictionary kept in insertion order. *)
Fixpoint dict_set {K V} `{EqDecision K} (d : list (K * V)) (k : K) (v : V) : list (K * V) :=
  match d with
  | [] => [(k, v)]
  | (k', v') :: d' => if decide (k' = k) then (k, v) :: d' else (k', v') :: dict_set d' k v
  end.

(** [nx.set_edge_attributes(kg, kgedgatt)]: an entry whose key is not an edge
    of the graph is passed over. *)
Definition set_edge_attribute (g : nx.Graph) (item : (Z * Z) * BranchRecord) : nx.Graph :=
  let '((u, v), r) := item in
  if bool_decide (0 ≤ u)%Z && bool_decide (0 ≤ v)%Z
     && nx.has_edge g (Z.to_nat u) (Z.to_nat v)
  then {| nx.adj := nx.adj g;
          nx.attr := <[nx.edge_id (Z.to_nat u) (Z.to_nat v) :=
                        {| resistor := rec_resistor r; battery := rec_battery r;
                           capacitor := rec_capacitor r; self := rec_self r;
                           suggested_dir := (Z.to_nat u, Z.to_nat v) |}]> (nx.attr g) |}
  else g.

Definition set_edge_attributes (g : nx.Graph) (values : list ((Z * Z) * BranchRecord)) : nx.Graph :=
  foldl set_edge_attribute g values.

(** The body of the loop of [circuit_parser] for a line after the first. *)
Definition parse_line (nodesnumber : nat)
    (st : list (list float) * list ((Z * Z) * BranchRecord)) (r : BranchRecord)
  : Res (list (list float) * list ((Z * Z) * BranchRecord)) :=
  let '(kgam, kgedgatt) := st in
  let xmat := rec_org r in
  let ymat := rec_dst r in
  let* x := np.index nodesnumber xmat in
  let* y := np.index nodesnumber ymat in
  let* kgam := np.setitem2 kgam x y 1%float in
  Ok (kgam, dict_set kgedgatt (xmat, ymat) r).

(** [circuit_parser]: the file is its first line, [nodesnumber] and
    [edgesnumber], and one record for each further line. *)
Definition circuit_parser (nodesnumber edgesnumber : Z) (lines : list BranchRecord)
  : Res nx.Graph :=
  if decide (nodesnumber < 0)%Z then Raise ValueError
  else
    let n := Z.to_nat nodesnumber in
    let* (kgam, kgedgatt) := foldM (parse_line n) lines (np.zeros 0%float n n, []) in
    let kg := nx.from_pandas_adjacency (λ x, negb (is_zero x)) kgam in
    Ok (set_edge_attributes kg kgedgatt).

(** The body of the inner loop of [Eliminated_Edges]. *)
Definition Eliminated_Edges_entry (kgam kgmstam : list (list Z)) (i : nat)
    (l : list (nat * nat)) (j : nat) : Res (list (nat * nat)) :=
  let* a := np.getitem2 kgam i j in
  if bool_decide (a = 1%Z) then
    let* m := np.getitem2 kgmstam i j in
    if bool_decide (m = 0%Z) then
      if bool_decide ((j, i) ∈ l) then Ok l else Ok (l ++ [(i, j)])
    else Ok l
  else Ok l.

Definition Eliminated_Edges (kgam kgmstam : list (list Z)) : Res (list (nat * nat)) :=
  let nodesnumber := length kgam in
  foldM (λ l i, foldM (Eliminated_Edges_entry kgam kgmstam i) (seq 0 nodesnumber) l)
    (seq 0 nodesnumber) [].

(** The first loop of [graph_list]; [glam] is the one three-dimensional
    array all trial matrices live in. *)
Definition graph_list_step (kgmstam : list (list Z))
    (st : nat * list (list (list Z))) (edge : nat * nat)
  : Res (nat * list (list (list Z))) :=
  let '(i, glam) := st in
  let* glam := np.setitem glam i kgmstam in
  let* am := np.getitem glam i in
  let* am := np.setitem2 am edge.1 edge.2 1%Z in
  let* glam := np.setitem glam i am in
  let* am := np.getitem glam i in
  let* am := np.setitem2 am edge.2 edge.1 1%Z in
  let* glam := np.setitem glam i am in
  Ok (i + 1, glam).

Definition graph_list_glam (kgmstam : list (list Z)) (eled : list (nat * nat))
  : Res (list (list (list Z))) :=
  let n := length kgmstam in
  if bool_decide (Forall (λ row, length row = n) kgmstam) then
    let* (_, glam) := foldM (graph_list_step kgmstam) eled
                   (0, replicate (length eled) (np.zeros 0%Z n n)) in
    Ok glam
  else Raise ValueError.

(** [graph_list], for a square [kgmstam]. *)
Definition graph_list (kgmstam : list (list Z)) (eled : list (nat * nat))
  : Res (list nx.Graph) :=
  let* glam := graph_list_glam kgmstam eled in
  Ok (nx.from_pandas_adjacency (λ x, negb (bool_decide (x = 0%Z))) <$> glam).

Fixpoint find_fundamental_cycles (gl : list nx.Graph) : Res (list (list (nat * nat))) :=
  match gl with
  | [] => Ok []
  | g :: gl' =>
      match nx.find_cycle g with
      | Ok cycle => let* fcl := find_fundamental_cycles gl' in Ok (cycle :: fcl)
      | Raise NetworkXNoCycle => find_fundamental_cycles gl'
      | Raise e => Raise e
      end
  end.

Definition isstraight (org dst : nat) (suggested_dir : nat * nat) : bool :=
  bool_decide (suggested_dir.1 = org) && bool_decide (suggested_dir.2 = dst).

Fixpoint get_edge_index_loop (es : list (nat * nat)) (org dst i : nat) : option nat :=
  match es with
  | [] => None
  | edge :: es' =>
      let c1 := bool_decide (edge.1 = org) && bool_decide (edge.2 = dst) in
      let c2 := bool_decide (edge.2 = org) && bool_decide (edge.1 = dst) in
      if c1 || c2 then Some i else get_edge_index_loop es' org dst (i + 1)
  end.

(** [get_edge_index], and [get_A_coord] of the other file: [None] is what
    Python returns when the loop ends without a [return]. *)
Definition get_edge_index (kg : nx.Graph) (org dst : nat) : option nat :=
  get_edge_index_loop (nx.edges kg) org dst 0.

Definition get_A_coord := get_edge_index.

(** [kg.get_edge_data(org, dst)[key]] for one of the circuit's keys. *)
Definition edge_attr (kg : nx.Graph) (org dst : nat) : Res EdgeAttr :=
  match nx.get_edge_data kg org dst with
  | None => Raise TypeError
  | Some None => Raise KeyError
  | Some (Some d) => Ok d
  end.

(** The first six lines of [find_kg_edges_weights], which
    [seperate_const_variable_cycle_and_loop] and [find_kg_edges_weights_RC]
    repeat. *)
Definition fundamental_cycles (kg : nx.Graph) : Res (list (list (nat * nat))) :=
  let kgmst := nx.minimum_spanning_tree kg in
  let kgmstam := nx.to_numpy_array kgmst in
  let kgam := nx.to_numpy_array kg in
  let* eled := Eliminated_Edges kgam kgmstam in
  let* gl := graph_list kgmstam eled in
  find_fundamental_cycles gl.

(** The body of the inner loop of the KVL rows: one edge of a cycle. *)
Definition kvl_edge (kg : nx.Graph) (i : nat)
    (st : float * list (list float)) (edge : nat * nat)
  : Res (float * list (list float)) :=
  let '(volsum, A) := st in
  let org := edge.1 in
  let dst := edge.2 in
  let* d := edge_attr kg org dst in
  let sugdir := suggested_dir d in
  if isstraight org dst sugdir then
    let volsum := PrimFloat.sub volsum (battery d) in
    let res := PrimFloat.opp (resistor d) in
    let cor := get_edge_index kg org dst in
    let* A := np.setitem_row A i cor res in
    Ok (volsum, A)
  else
    let volsum := PrimFloat.add volsum (battery d) in
    let res := resistor d in
    let cor := get_edge_index kg org dst in
    let* A := np.setitem_row A i cor res in
    Ok (volsum, A).

(** The body of the loop [for cycle in fcl]; [B] is a column, [B[i][0]] its
    [i]-th entry. *)
Definition kvl_row (kg : nx.Graph)
    (st : nat * list (list float) * list float) (cycle : list (nat * nat))
  : Res (nat * list (list float) * list float) :=
  let '(i, A, B) := st in
  let* (volsum, A) := foldM (kvl_edge kg i) cycle (0%float, A) in
  let* B := np.setitem B i volsum in
  Ok (i + 1, A, B).

(** The body of the inner loop of the KCL rows: one neighbour of a node. *)
Definition kcl_edge (kg : nx.Graph) (i node : nat)
    (A : list (list float)) (nei : nat) : Res (list (list float)) :=
  let* d := edge_attr kg node nei in
  let sugdir := suggested_dir d in
  let cor := get_edge_index kg node nei in
  if isstraight node nei sugdir
  then np.setitem_row A i cor (-1)%float
  else np.setitem_row A i cor 1%float.

(** The loop [for node in kg.nodes] with its [break]. *)
Fixpoint kcl_rows (kg : nx.Graph) (nodes : list nat) (i : nat) (A : list (list float))
  : Res (nat * list (list float)) :=
  match nodes with
  | [] => Ok (i, A)
  | node :: nodes' =>
      let* A := foldM (kcl_edge kg i node) (nx.neighbors kg node) A in
      let i := i + 1 in
      if bool_decide (i = nx.number_of_edges kg) then Ok (i, A)
      else kcl_rows kg nodes' i A
  end.

(** [find_kg_edges_weights] up to its last line: the system [A], [B]. *)
Definition assemble (kg : nx.Graph) : Res (list (list float) * list float) :=
  let* fcl := fundamental_cycles kg in
  let edge_number := nx.number_of_edges kg in
  let B := replicate edge_number 0%float in
  let A := np.zeros 0%float edge_number edge_number in
  let* (i, A, B) := foldM (kvl_row kg) fcl (0, A, B) in
  let* (_, A) := kcl_rows kg (nx.nodes kg) i A in
  Ok (A, B).

Definition find_kg_edges_weights (kg : nx.Graph) : Res (list float) :=
  let* (A, B) := assemble kg in
  linalg.solve A B.

(** The five lists [seperate_const_variable_cycle_and_loop] returns. *)
Record Partition : Type := {
  variable_weight_edge : list (nat * nat);
  const_weight_edge : list (nat * nat);
  const_weight_cycle : list (list (nat * nat));
  variable_weight_cycle : list (list (nat * nat));
  variable_weight_cycle_index : list nat
}.

Definition add_new {A} `{EqDecision A} (l : list A) (x : A) : list A :=
  if bool_decide (x ∈ l) then l else l ++ [x].

(** One edge of a cycle: the state is [varicyc] and the two edge lists. *)
Definition partition_edge (kg : nx.Graph)
    (st : bool * list (nat * nat) * list (nat * nat)) (edge : nat * nat)
  : Res (bool * list (nat * nat) * list (nat * nat)) :=
  let '(varicyc, variable_weight_edge, const_weight_edge) := st in
  let org := edge.1 in
  let dst := edge.2 in
  let* d := edge_attr kg org dst in
  let sugdir := suggested_dir d in
  let cap := capacitor d in
  let istrt := isstraight org dst sugdir in
  let t := if istrt then (org, dst) else (dst, org) in
  if is_zero cap
  then Ok (varicyc, variable_weight_edge, add_new const_weight_edge t)
  else Ok (true, add_new variable_weight_edge t, const_weight_edge).

Definition partition_cycle (kg : nx.Graph) (st : nat * Partition) (cycle : list (nat * nat))
  : Res (nat * Partition) :=
  let '(i, p) := st in
  let* (varicyc, vwe, cwe) :=
    foldM (partition_edge kg) cycle (false, variable_weight_edge p, const_weight_edge p) in
  if varicyc then
    Ok (i + 1,
        {| variable_weight_edge := vwe; const_weight_edge := cwe;
           const_weight_cycle := const_weight_cycle p;
           variable_weight_cycle := variable_weight_cycle p ++ [cycle];
           variable_weight_cycle_index := variable_weight_cycle_index p ++ [i] |})
  else
    Ok (i + 1,
        {| variable_weight_edge := vwe; const_weight_edge := cwe;
           const_weight_cycle := const_weight_cycle p ++ [cycle];
           variable_weight_cycle := variable_weight_cycle p;
           variable_weight_cycle_index := variable_weight_cycle_index p |}).

Definition empty_partition : Partition :=
  {| variable_weight_edge := []; const_weight_edge := [];
     const_weight_cycle := []; variable_weight_cycle := [];
     variable_weight_cycle_index := [] |}.

Definition seperate_const_variable_cycle_and_loop (kg : nx.Graph) : Res Partition :=
  let* fcl := fundamental_cycles kg in
  let* (_, p) := foldM (partition_cycle kg) fcl (0, empty_partition) in
  Ok p.

(** The loop [for index in e]: each round deletes the rows [e], all of them. *)
Definition delete_rows_round (e : list nat)
    (st : list (list float) * list float) (index : nat)
  : Res (list (list float) * list float) :=
  let '(A, B) := st in
  let* A := np.delete A e in
  let* B := np.delete B e in
  Ok (A, B).

(** The loop [for n in range(len(a))]; the state carries the number of
    columns [A] has left. *)
Definition delete_column_round (kg3 : nx.Graph)
    (st : nat * list (list float)) (t : nat * nat)
  : Res (nat * list (list float)) :=
  let '(ncols, A) := st in
  let edin := get_edge_index kg3 t.1 t.2 in
  let* A := np.delete_col ncols A edin in
  Ok (ncols - 1, A).

(** [find_kg_edges_weights_RC] up to its last line.  [kg3] is the variable of
    the file's top level that the function reads next to its parameter. *)
Definition reduced_system (kg3 kg : nx.Graph) : Res (list (list float) * list float) :=
  let* (A, B) := assemble kg in
  let* p := seperate_const_variable_cycle_and_loop kg3 in
  let a := variable_weight_edge p in
  let e := variable_weight_cycle_index p in
  let* (A, B) := foldM (delete_rows_round e) e (A, B) in
  let* (_, A) := foldM (delete_column_round kg3) a (nx.number_of_edges kg, A) in
  Ok (A, B).

Definition find_kg_edges_weights_RC (kg3 kg : nx.Graph) : Res (list float) :=
  let* (A, B) := reduced_system kg3 kg in
  linalg.solve A B.

(** [nx.get_edge_attributes(G, name).values()] for one of the circuit's
    keys: the value on every edge that has it. *)
Definition get_edge_attributes {A} (g : nx.Graph) (name : EdgeAttr → A) : list A :=
  omap (λ e, name <$> nx.attr g !! nx.edge_id e.1 e.2) (nx.edges g).

(** The loops [for sval in svals] and [for cval in cvals] of [circuit_type]. *)
Definition contains_nonzero (vals : list float) : bool :=
  foldl (λ b val, if negb (is_zero val) then true else b) false vals.

(** [circuit_type]: it reads the variable [kg3] of the file's top level, not
    its parameter [kg].  [None] is the end of the function without a
    [return]. *)
Definition circuit_type (kg3 kg : nx.Graph) : option string :=
  let svals := get_edge_attributes kg3 self in
  let cvals := get_edge_attributes kg3 capacitor in
  let contain_self := contains_nonzero svals in
  let contain_capacitor := contains_nonzero cvals in
  if negb contain_self && negb contain_capacitor then Some "Ordinary"%string
  else if negb contain_self && contain_capacitor then Some "RC"%string
  else if contain_self && negb contain_capacitor then Some "RL"%string
  else if contain_self && contain_capacitor then Some "RLC"%string
  else None.

(** ** The triangle circuit *)

Definition triangle_lines : list BranchRecord :=
  [ {| rec_org := 0; rec_dst := 1; rec_resistor := 1; rec_battery := 6;
       rec_capacitor := 0; rec_self := 0 |};
    {| rec_org := 1; rec_dst := 2; rec_resistor := 1; rec_battery := 0;
       rec_capacitor := 0; rec_self := 0 |};
    {| rec_org := 2; rec_dst := 0; rec_resistor := 1; rec_battery := 0;
       rec_capacitor := 0; rec_self := 0 |} ].

(** The in-memory graph of a circuit: its adjacency lists and the attributes
    of its branches, each under the pair of its endpoints. *)
Definition branch (r v c l : float) (dir : nat * nat) : EdgeAttr :=
  {| resistor := r; battery := v; capacitor := c; self := l; suggested_dir := dir |}.

Definition triangle : nx.Graph :=
  {| nx.adj := [[1; 2]; [0; 2]; [1; 0]];
     nx.attr := list_to_map
       [ ((0, 1), branch 1 6 0 0 (0, 1));
         ((1, 2), branch 1 0 0 0 (1, 2));
         ((0, 2), branch 1 0 0 0 (2, 0)) ] |}.


(** The triangle again, with a capacitor on the branches (0,1) and (2,0). *)
Definition two_capacitors_lines : list BranchRecord :=
  [ {| rec_org := 0; rec_dst := 1; rec_resistor := 1; rec_battery := 6;
       rec_capacitor := 2; rec_self := 0 |};
    {| rec_org := 1; rec_dst := 2; rec_resistor := 3; rec_battery := 0;
       rec_capacitor := 0; rec_self := 0 |};
    {| rec_org := 2; rec_dst := 0; rec_resistor := 5; rec_battery := 0;
       rec_capacitor := 4; rec_self := 0 |} ].

Definition two_capacitors : nx.Graph :=
  {| nx.adj := [[1; 2]; [0; 2]; [1; 0]];
     nx.attr := list_to_map
       [ ((0, 1), branch 1 6 2 0 (0, 1));
         ((1, 2), branch 3 0 0 0 (1, 2));
         ((0, 2), branch 5 0 4 0 (2, 0)) ] |}.

(** Two triangles that share the branch (0,2), a capacitor on (1,2) and on
    (2,3). *)
Definition two_loops_lines : list BranchRecord :=
  [ {| rec_org := 0; rec_dst := 1; rec_resistor := 1; rec_battery := 6;
       rec_capacitor := 0; rec_self := 0 |};
    {| rec_org := 1; rec_dst := 2; rec_resistor := 2; rec_battery := 0;
       rec_capacitor := 7; rec_self := 0 |};
    {| rec_org := 0; rec_dst := 2; rec_resistor := 3; rec_battery := 0;
       rec_capacitor := 0; rec_self := 0 |};
    {| rec_org := 2; rec_dst := 3; rec_resistor := 4; rec_battery := 0;
       rec_capacitor := 8; rec_self := 0 |};
    {| rec_org := 0; rec_dst := 3; rec_resistor := 5; rec_battery := 0;
       rec_capacitor := 0; rec_self := 0 |} ].



(** The triangle with one more branch, from node 2 to a fourth node. *)
Definition pendant : nx.Graph :=
  {| nx.adj := [[1; 2]; [0; 2]; [1; 0; 3]; [2]];
     nx.attr := list_to_map
       [ ((0, 1), branch 1 6 0 0 (0, 1));
         ((1, 2), branch 1 0 0 0 (1, 2));
         ((0, 2), branch 1 0 0 0 (2, 0));
         ((2, 3), branch 1 0 0 0 (2, 3)) ] |}.

(** ** Notions the statements use *)

(** The test of [get_edge_index] on one edge: [c1 or c2]. *)
Definition matches (edge : nat * nat) (org dst : nat) : Prop :=
  (edge.1 = org ∧ edge.2 = dst) ∨ (edge.2 = org ∧ edge.1 = dst).

(** The node indices of a record that numpy accepts for an array of [n]
    rows and columns. *)
Definition indexable (n : nat) (r : BranchRecord) : Prop :=
  (- Z.of_nat n ≤ rec_org r < Z.of_nat n)%Z ∧ (- Z.of_nat n ≤ rec_dst r < Z.of_nat n)%Z.

(** The reduced system in the words of the specification: from the full
    system, the rows at the recorded variable-weight cycle indices removed,
    then the column of each variable-weight branch removed. *)
Definition reduced_system_spec (kg : nx.Graph) : Res (list (list float) * list float) :=
  let* (A, B) := assemble kg in
  let* p := seperate_const_variable_cycle_and_loop kg in
  let rows := variable_weight_cycle_index p in
  let cols := omap (λ t, get_edge_index kg t.1 t.2) (variable_weight_edge p) in
  Ok (np.drop_at cols 0 <$> np.drop_at rows 0 A, np.drop_at rows 0 B).

(** The matrix [M] with the entries [(a, b)] and [(b, a)] set to 1. *)
Definition with_edge (M : list (list Z)) (e : nat * nat) : list (list Z) :=
  let M1 := <[e.1 := <[e.2 := 1%Z]> (default [] (M !! e.1))]> M in
  <[e.2 := <[e.1 := 1%Z]> (default [] (M1 !! e.2))]> M1.

(** Two lines that name the same pair of nodes, and a line with a negative
    node index. *)
Definition duplicate_lines : list BranchRecord :=
  [ {| rec_org := 0; rec_dst := 1; rec_resistor := 1; rec_battery := 6;
       rec_capacitor := 0; rec_self := 0 |};
    {| rec_org := 1; rec_dst := 0; rec_resistor := 2; rec_battery := 0;
       rec_capacitor := 0; rec_self := 0 |} ].

Definition negative_lines : list BranchRecord :=
  [ {| rec_org := -1; rec_dst := 0; rec_resistor := 1; rec_battery := 6;
       rec_capacitor := 0; rec_self := 0 |} ].

(** An array of [n] rows and [n] columns. *)
Definition square {A} (n : nat) (M : list (list A)) : Prop :=
  length M = n ∧ Forall (λ row, length row = n) M.


Definition two_loops : nx.Graph :=
  {| nx.adj := [[1; 2; 3]; [0; 2]; [0; 1; 3]; [0; 2]];
     nx.attr := list_to_map
       [ ((0, 1), branch 1 6 0 0 (0, 1));
         ((1, 2), branch 2 0 7 0 (1, 2));
         ((0, 2), branch 3 0 0 0 (0, 2));
         ((2, 3), branch 4 0 8 0 (2, 3));
         ((0, 3), branch 5 0 0 0 (0, 3)) ] |}.

(** ** Graphs of circuits *)

(** What every [nx.Graph] without self-loops satisfies: a neighbour is a
    node, is listed once, and lists the node back. *)
Definition row_ok (g : nx.Graph) (u : nat) (nbrs : list nat) : Prop :=
  NoDup nbrs ∧
  Forall (λ v, v < nx.number_of_nodes g ∧ u ≠ v ∧ u ∈ nx.neighbors g v) nbrs.

Definition simple (g : nx.Graph) : Prop :=
  Forall (λ p, row_ok g p.1 p.2) (imap pair (nx.adj g)).

Global Instance row_ok_dec g u nbrs : Decision (row_ok g u nbrs).
Proof. unfold row_ok. apply _. Defined.

Global Instance simple_dec g : Decision (simple g).
Proof. unfold simple. apply _. Defined.

(** The graph has a node, and a path between any two of its nodes. *)
Definition adjacent (g : nx.Graph) (u v : nat) : Prop := v ∈ nx.neighbors g u.

Global Instance adjacent_dec g u v : Decision (adjacent g u v).
Proof. unfold adjacent. apply _. Defined.
Global Typeclasses Opaque adjacent.

Definition connected (g : nx.Graph) : Prop :=
  0 < nx.number_of_nodes g ∧
  ∀ u v, u < nx.number_of_nodes g → v < nx.number_of_nodes g → rtc (adjacent g) u v.

(** Every branch carries the attributes of a line of the file, and its
    reference direction joins its own two nodes. *)
Definition branch_ok (kg : nx.Graph) (u v : nat) : Prop :=
  match nx.attr kg !! nx.edge_id u v with
  | Some d => suggested_dir d = (u, v) ∨ suggested_dir d = (v, u)
  | None => False
  end.

Definition attributed (kg : nx.Graph) : Prop :=
  Forall (λ p, Forall (branch_ok kg p.1) p.2) (imap pair (nx.adj kg)).

Global Instance branch_ok_dec kg u v : Decision (branch_ok kg u v).
Proof. unfold branch_ok. destruct (nx.attr kg !! nx.edge_id u v); apply _. Defined.

Global Instance attributed_dec kg : Decision (attributed kg).
Proof. unfold attributed. apply _. Defined.

(** The neighbour list of [u] in an adjacency dictionary. *)
Definition row (a : list (list nat)) (u : nat) : list nat := default [] (a !! u).

(** The union-find structure when Kruskal's algorithm ends. *)
Fixpoint kruskal_labels (labels : list nat) (es : list (nat * nat)) : list nat :=
  match es with
  | [] => labels
  | (u, v) :: es' =>
      if decide (nx.uf_find labels u ≠ nx.uf_find labels v)
      then kruskal_labels (nx.uf_union labels u v) es'
      else kruskal_labels labels es'
  end.

(** The two nodes are the ends of an edge of the list. *)
Definition linked (es : list (nat * nat)) (u v : nat) : Prop :=
  (u, v) ∈ es ∨ (v, u) ∈ es.

(** A co-tree edge: an edge of [g] that is no edge of [t]. *)
Definition cotree (g t : nx.Graph) (i j : nat) : Prop :=
  adjacent g i j ∧ ¬ adjacent t i j.

(** What [Eliminated_Edges] holds when it reaches the entry [(i, j)]: the
    co-tree edges [(a, b)], [a < b], of the entries before. *)
Definition eliminated_before (g t : nx.Graph) (i j : nat) (l : list (nat * nat)) : Prop :=
  NoDup l ∧
  ∀ a b, (a, b) ∈ l ↔ cotree g t a b ∧ a < b ∧ (a < i ∨ (a = i ∧ b < j)).

(** ** The state of the cycle search *)

(** The nodes of the path [find_cycle] keeps (its last edge first), from its
    last node back to the start node [s]. *)
Definition nodes_of (s : nat) (path : list (nat * nat)) : list nat :=
  (snd <$> path) ++ [s].

Definition edge_ids (path : list (nat * nat)) : list (nat * nat) :=
  (λ e, nx.edge_id e.1 e.2) <$> path.

(** What is left of the neighbour list of [w]. *)
Definition remaining (g : nx.Graph) (iters : gmap nat (list nat)) (w : nat) : nat :=
  length (default (nx.neighbors g w) (iters !! w)).

(** A bound on the rounds of the loop of [edge_dfs] still to come. *)
Definition dfs_measure (g : nx.Graph) (iters : gmap nat (list nat)) (stack : list nat) : nat :=
  2 * sum_list_with (remaining g iters) (nx.nodes g) + length stack.

(** What holds of [edge_dfs] and [find_cycle] together, each time the loop
    of [edge_dfs] starts a round, as long as no cycle was found. *)
Record dfs_inv (g : nx.Graph) (s : nat) (stack : list nat)
    (iters : gmap nat (list nat)) (ve : gset (nat * nat))
    (path : list (nat * nat)) (seen active : gset nat) (prev : option nat) : Prop := {
  inv_suffix : stack `suffix_of` nodes_of s path;
  inv_nodup : NoDup (nodes_of s path);
  inv_active : active = list_to_set (nodes_of s path);
  inv_prev : prev = snd <$> head path;
  inv_seen_active : active ⊆ seen;
  inv_size : size ve + 1 = size seen;
  inv_seen_range : ∀ w, w ∈ seen → w < nx.number_of_nodes g;
  inv_visited : ∀ w, w ∈ seen → is_Some (iters !! w) ∨ head stack = Some w;
  inv_iters : ∀ w l, iters !! w = Some l →
    ∃ consumed, nx.neighbors g w = consumed ++ l ∧ ∀ x, x ∈ consumed → nx.edge_id w x ∈ ve;
  inv_popped : ∀ w l, iters !! w = Some l → w ∉ stack → l = [];
  inv_path : ∀ e, e ∈ path → nx.edge_id e.1 e.2 ∈ ve ∧ adjacent g e.1 e.2;
  inv_path_ids : NoDup (edge_ids path);
  inv_edges : ∀ id, id ∈ ve → ∃ u v, id = nx.edge_id u v ∧ u ∈ seen ∧ v ∈ seen
}.

(** What the search from the start node [s] ends with: a closed path of
    edges of the graph, each taken once, or else the nodes seen, which then
    have no neighbour outside and one edge less than they are. *)
Definition dfs_post (g : nx.Graph) (s : nat) (r : list (nat * nat) * nat + gset nat) : Prop :=
  match r with
  | inl (cycle, final) =>
      cycle ≠ [] ∧ (∀ e, e ∈ cycle → adjacent g e.1 e.2) ∧ NoDup (edge_ids cycle)
  | inr seen =>
      s ∈ seen ∧
      ∃ ve : gset (nat * nat), size ve + 1 = size seen ∧
        (∀ w, w ∈ seen → w < nx.number_of_nodes g) ∧
        ∀ w x, w ∈ seen → x ∈ nx.neighbors g w → x ∈ seen ∧ nx.edge_id w x ∈ ve
  end.

(** The entry [M[u][v]] of an array, if there is one. *)
Definition entry {A} (M : list (list A)) (u v : nat) : option A :=
  row ← M !! u; row !! v.

(** The graph [graph_list] builds for the co-tree edge [e] of the tree [t]. *)
Definition trial (t : nx.Graph) (e : nat * nat) : nx.Graph :=
  nx.from_pandas_adjacency (λ x, negb (bool_decide (x = 0%Z)))
    (with_edge (nx.to_numpy_array t) e).

(** A cycle as [find_cycle] returns it: edges of the graph, at least one, each
    branch at most once. *)
Definition cycle_in (kg : nx.Graph) (cycle : list (nat * nat)) : Prop :=
  cycle ≠ [] ∧ (∀ e, e ∈ cycle → adjacent kg e.1 e.2) ∧ NoDup (edge_ids cycle).

(** The co-tree edges of a graph, as [Eliminated_Edges] lists them. *)
Definition cotree_edges (kg : nx.Graph) (eled : list (nat * nat)) : Prop :=
  NoDup eled ∧
  ∀ a b, (a, b) ∈ eled ↔ cotree kg (nx.minimum_spanning_tree kg) a b ∧ a < b.

(** ** The rows of the system in the words of the specification *)

(** The attributes of the branch between two nodes. *)
Definition branch_attr (kg : nx.Graph) (edge : nat * nat) : option EdgeAttr :=
  nx.attr kg !! nx.edge_id edge.1 edge.2.

(** The traversal of the branch from [edge.1] to [edge.2] follows its
    reference direction. *)
Definition straight (kg : nx.Graph) (edge : nat * nat) : bool :=
  match branch_attr kg edge with
  | Some d => isstraight edge.1 edge.2 (suggested_dir d)
  | None => false
  end.

(** The accumulator of a row after one more branch: decreased by the source
    voltage of a branch walked straight, increased by that of one walked in
    reverse. *)
Definition voltage_step (kg : nx.Graph) (volsum : float) (edge : nat * nat) : float :=
  match branch_attr kg edge with
  | Some d =>
      if straight kg edge then PrimFloat.sub volsum (battery d)
      else PrimFloat.add volsum (battery d)
  | None => volsum
  end.

(** The coefficient of a branch in the row of a cycle: minus its resistance
    when walked straight, plus its resistance when walked in reverse. *)
Definition coefficient (kg : nx.Graph) (edge : nat * nat) : option float :=
  d ← branch_attr kg edge;
  Some (if straight kg edge then PrimFloat.opp (resistor d) else resistor d).

(** ** The partition in the words of the specification *)

(** A variable-weight branch: its capacitance is not zero. *)
Definition variable_branch (kg : nx.Graph) (e : nat * nat) : Prop :=
  ∃ d, branch_attr kg e = Some d ∧ is_zero (capacitor d) = false.

Global Instance variable_branch_dec kg e : Decision (variable_branch kg e).
Proof.
  unfold variable_branch. destruct (branch_attr kg e) as [d|].
  - destruct (is_zero (capacitor d)) eqn:Hz.
    + right. intros (d' & [= <-] & ?). congruence.
    + left. by exists d.
  - right. by intros (d & ? & _).
Defined.

(** A variable-weight cycle: one of its branches is. *)
Definition variable_cycle (kg : nx.Graph) (cycle : list (nat * nat)) : Prop :=
  Exists (variable_branch kg) cycle.

(** The canonical orientation of a traversed branch. *)
Definition canonical (kg : nx.Graph) (e : nat * nat) : nat * nat :=
  if straight kg e then (e.1, e.2) else (e.2, e.1).

(** ** Well-formed circuit files *)

(** A line names two different nodes of the circuit. *)
Definition well_formed_line (n : nat) (r : BranchRecord) : Prop :=
  (0 ≤ rec_org r < Z.of_nat n)%Z ∧ (0 ≤ rec_dst r < Z.of_nat n)%Z ∧ rec_org r ≠ rec_dst r.

(** The line joins the nodes [u] and [v]. *)
Definition joins (r : BranchRecord) (u v : nat) : Prop :=
  rec_org r = Z.of_nat u ∧ rec_dst r = Z.of_nat v.

(** The state of the parser's loop after the lines [lines]: the adjacency
    matrix has a one where a line joins two nodes and a zero elsewhere, and
    the dictionary has an item for every line, under the pair of its nodes. *)
Definition parsed (n : nat) (lines : list BranchRecord)
    (st : list (list float) * list ((Z * Z) * BranchRecord)) : Prop :=
  square n st.1 ∧
  (∀ u v, u < n → v < n →
     entry st.1 u v = Some 1%float ∧ (∃ r, r ∈ lines ∧ joins r u v) ∨
     entry st.1 u v = Some 0%float ∧ ¬ (∃ r, r ∈ lines ∧ joins r u v)) ∧
  (∀ r, r ∈ lines → ∃ r', ((rec_org r, rec_dst r), r') ∈ st.2) ∧
  (∀ k r', (k, r') ∈ st.2 → k = (rec_org r', rec_dst r') ∧ r' ∈ lines).

(** Every attribute dictionary of the graph has the reference direction of
    the key it was set under. *)
Definition directed_attrs (g : nx.Graph) : Prop :=
  ∀ id d, nx.attr g !! id = Some d → nx.edge_id (suggested_dir d).1 (suggested_dir d).2 = id.


(** ** Notions of the further statements *)

(** The positions [(i, j)] of an array of [n] rows and columns, in the order
    the two loops of [Eliminated_Edges] visit them. *)
Definition index_pairs (n : nat) : list (nat * nat) :=
  mjoin ((λ i, (λ j, (i, j)) <$> seq 0 n) <$> seq 0 n).

(** The position holds a 1 in the first array and a 0 in the second. *)
Definition eliminated (kgam kgmstam : list (list Z)) (p : nat * nat) : Prop :=
  entry kgam p.1 p.2 = Some 1%Z ∧ entry kgmstam p.1 p.2 = Some 0%Z.

(** The position can be read: the first array has it, and the second too
    where the first holds a 1 (the [and] of the test does not look at the
    second array otherwise). *)
Definition readable (kgam kgmstam : list (list Z)) (p : nat * nat) : Prop :=
  ∃ a, entry kgam p.1 p.2 = Some a ∧ (a = 1%Z → is_Some (entry kgmstam p.1 p.2)).

(** What the list of [Eliminated_Edges] holds after the positions [visited]. *)
Definition eliminated_among (kgam kgmstam : list (list Z))
    (visited l : list (nat * nat)) : Prop :=
  NoDup l ∧
  (∀ p, p ∈ l → p ∈ visited ∧ eliminated kgam kgmstam p ∧ ((p.2, p.1) ∈ l → p.1 = p.2)) ∧
  (∀ p, p ∈ visited → eliminated kgam kgmstam p → p ∈ l ∨ (p.2, p.1) ∈ l).

(** Some branch of the circuit has an inductance, a capacitance, that is not
    zero. *)
Definition has_inductor (kg : nx.Graph) : Prop :=
  ∃ e d, e ∈ nx.edges kg ∧ branch_attr kg e = Some d ∧ is_zero (self d) = false.

Definition has_capacitor (kg : nx.Graph) : Prop :=
  ∃ e d, e ∈ nx.edges kg ∧ branch_attr kg e = Some d ∧ is_zero (capacitor d) = false.

(** The entry the KCL row of [node] gets for the branch from [node] to its
    neighbour [nei]: -1 when the reference direction of the branch leaves
    the node, 1 otherwise. *)
Definition kcl_sign (kg : nx.Graph) (node nei : nat) : float :=
  if straight kg (node, nei) then (-1)%float else 1%float.

(** The coefficient of a branch in the current law of a node: -1 when the
    reference direction of the branch leaves the node, 1 when it enters it,
    0 when the branch does not touch the node. *)
Definition kcl_coefficient (kg : nx.Graph) (node : nat) (e : nat * nat) : float :=
  match branch_attr kg e with
  | Some d =>
      if bool_decide ((suggested_dir d).1 = node) then (-1)%float
      else if bool_decide ((suggested_dir d).2 = node) then 1%float
      else 0%float
  | None => 0%float
  end.

(** The positions, counted from [i], of the variable-weight cycles of a
    list of cycles. *)
Fixpoint variable_positions (kg : nx.Graph) (i : nat) (fcl : list (list (nat * nat)))
  : list nat :=
  match fcl with
  | [] => []
  | cycle :: fcl' =>
      if decide (variable_cycle kg cycle) then i :: variable_positions kg (i + 1) fcl'
      else variable_positions kg (i + 1) fcl'
  end.

(** ** The attributes of the lines *)

(** The attributes [circuit_parser] makes of a line. *)
Definition line_attr (r : BranchRecord) : EdgeAttr :=
  {| resistor := rec_resistor r; battery := rec_battery r;
     capacitor := rec_capacitor r; self := rec_self r;
     suggested_dir := (Z.to_nat (rec_org r), Z.to_nat (rec_dst r)) |}.

(** The two lines name the same two nodes, in the same order; in any order. *)
Definition same_direction (r r' : BranchRecord) : Prop :=
  rec_org r = rec_org r' ∧ rec_dst r = rec_dst r'.

Definition same_branch (r r' : BranchRecord) : Prop :=
  same_direction r r' ∨ (rec_org r = rec_dst r' ∧ rec_dst r = rec_org r').

(** The dictionary [kgedgatt] after the lines: a key for each ordered pair of
    nodes, in the order the pairs first come in the file, with the last line of
    the pair. *)
Definition dict_of (d : list ((Z * Z) * BranchRecord)) (lines : list BranchRecord)
  : list ((Z * Z) * BranchRecord) :=
  foldl (λ d r, dict_set d (rec_org r, rec_dst r) r) d lines.

(** The key of an item is a branch of the graph, between nodes that are not
    negative. *)
Definition item_ok (g : nx.Graph) (item : (Z * Z) * BranchRecord) : Prop :=
  (0 ≤ item.1.1)%Z ∧ (0 ≤ item.1.2)%Z ∧
  adjacent g (Z.to_nat item.1.1) (Z.to_nat item.1.2).

Definition item_id (item : (Z * Z) * BranchRecord) : nat * nat :=
  nx.edge_id (Z.to_nat item.1.1) (Z.to_nat item.1.2).

(** The dictionary [nx.set_edge_attributes] puts on the branch of an item. *)
Definition item_attr (item : (Z * Z) * BranchRecord) : EdgeAttr :=
  {| resistor := rec_resistor item.2; battery := rec_battery item.2;
     capacitor := rec_capacitor item.2; self := rec_self item.2;
     suggested_dir := (Z.to_nat item.1.1, Z.to_nat item.1.2) |}.

(** ** The labels and the plot of the currents *)

(** [str_on_edge], the label of a branch on the plots.  [str] is Python's
    conversion of a float to a string. *)
Definition str_on_edge (str : float → string) (a b c d : float) : string :=
  let s := ""%string in
  let s := if negb (is_zero a) then ((s +:+ str a) +:+ "Ohms ")%string else s in
  let s := if negb (is_zero b) then ((s +:+ str b) +:+ "Volts ")%string else s in
  let s := if negb (is_zero c) then ((s +:+ str c) +:+ "Farad ")%string else s in
  let s := if negb (is_zero d) then ((s +:+ str d) +:+ "Henry ")%string else s in
  s.

(** The body of the loop of [round_kg_edges_weights]; [round3] is Python's
    [round(x, 3)] on a float of numpy. *)
Definition round_kg_edges_weights_step (round3 : float → float)
    (st : nat * list (list float)) (ele : list float) : Res (nat * list (list float)) :=
  let '(i, edw) := st in
  let* x := np.getitem2 edw i 0 in
  let* edw := np.setitem2 edw i 0 (round3 x) in
  Ok (i + 1, edw).

(** [round_kg_edges_weights]: the loop runs once for each row the array has
    when it starts, and writes into the array it was given. *)
Definition round_kg_edges_weights (round3 : float → float) (edw : list (list float))
  : Res (list (list float)) :=
  let* (_, edw) := foldM (round_kg_edges_weights_step round3) edw (0, edw) in
  Ok edw.

(** A directed [nx.DiGraph] with weighted edges: the nodes in the order they
    were added, and the weight of each edge. *)
Record DiGraph : Type := {
  dnodes : list nat;
  dweights : gmap (nat * nat) float
}.

Definition empty_digraph : DiGraph := {| dnodes := []; dweights := ∅ |}.

(** [dkg.add_weighted_edges_from([(u, v, w)])] *)
Definition add_weighted_edge (dkg : DiGraph) (u v : nat) (w : float) : DiGraph :=
  {| dnodes := add_new (add_new (dnodes dkg) u) v;
     dweights := <[(u, v) := w]> (dweights dkg) |}.

(** The body of the loop [for element in sugdir]. *)
Definition direct_edge (edw : list (list float)) (st : nat * DiGraph) (element : nat * nat)
  : Res (nat * DiGraph) :=
  let '(i, dkg) := st in
  let* x := np.getitem2 edw i 0 in
  if PrimFloat.ltb 0 x
  then Ok (i + 1, add_weighted_edge dkg element.1 element.2 x)
  else Ok (i + 1, add_weighted_edge dkg element.2 element.1 (- x)%float).

(** [plot_kirchoffgraph_after_solving] up to the directed graph it draws:
    the solution comes as a column, one row for each branch. *)
Definition plot_kirchoffgraph_after_solving (round3 : float → float) (kg : nx.Graph)
  : Res DiGraph :=
  let* edw := find_kg_edges_weights kg in
  let* edw := round_kg_edges_weights round3 ((λ x, [x]) <$> edw) in
  let sugdir := get_edge_attributes kg suggested_dir in
  let* (_, dkg) := foldM (direct_edge edw) sugdir (0, empty_digraph) in
  Ok dkg.

(** The current [y] of a branch with the reference direction [dir] is drawn
    as this edge with this weight. *)
Definition drawn (dir : nat * nat) (y : float) : (nat * nat) * float :=
  if PrimFloat.ltb 0 y then (dir, y) else ((dir.2, dir.1), (- y)%float).

(** The reference direction of a branch. *)
Definition reference_direction (kg : nx.Graph) (e : nat * nat) : nat * nat :=
  default e (suggested_dir <$> branch_attr kg e).

(** What the directed graph holds after the branches [0 .. i-1], whose
    rounded currents are [ys]. *)
Definition drawn_upto (kg : nx.Graph) (ys : list float) (i : nat) (dkg : DiGraph) : Prop :=
  (∀ c e y, c < i → nx.edges kg !! c = Some e → ys !! c = Some y →
     dweights dkg !! (drawn (reference_direction kg e) y).1
     = Some (drawn (reference_direction kg e) y).2 ∧
     dweights dkg !! ((drawn (reference_direction kg e) y).1.2,
                      (drawn (reference_direction kg e) y).1.1) = None) ∧
  (∀ k w, dweights dkg !! k = Some w →
     ∃ c e y, c < i ∧ nx.edges kg !! c = Some e ∧ ys !! c = Some y ∧
              k = (drawn (reference_direction kg e) y).1) ∧
  (∀ w, w ∈ dnodes dkg ↔ ∃ c e, c < i ∧ nx.edges kg !! c = Some e ∧ (w = e.1 ∨ w = e.2)).

(** ** Walks and cycles *)

(** The edges lead from [u] to [v], each from where the one before ends. *)
Fixpoint walk (u : nat) (es : list (nat * nat)) (v : nat) : Prop :=
  match es with
  | [] => u = v
  | e :: es' => e.1 = u ∧ walk e.2 es' v
  end.

(** The path [find_cycle] keeps, its last edge first, leads from [s] on. *)
Fixpoint chained (s : nat) (path : list (nat * nat)) : Prop :=
  match path with
  | [] => True
  | e :: rest => e.1 = hd s (snd <$> rest) ∧ chained s rest
  end.

(** What the search from [s] ends with when it finds a cycle: the path it
    kept, through nodes that all differ, and one more edge back to a node of
    the path. *)
Definition dfs_closed (s : nat) (r : list (nat * nat) * nat + gset nat) : Prop :=
  match r with
  | inl (cycle, final) =>
      ∃ path cur, cycle = reverse ((cur, final) :: path) ∧ chained s path ∧
        NoDup (nodes_of s path) ∧ hd s (snd <$> path) = cur ∧ final ∈ nodes_of s path
  | inr _ => True
  end.

(** A cycle of the graph: a closed walk along edges of the graph that leaves
    no node twice and takes no edge twice. *)
Definition simple_cycle (g : nx.Graph) (cycle : list (nat * nat)) : Prop :=
  cycle ≠ [] ∧ (∃ u, walk u cycle u) ∧ NoDup cycle.*1 ∧ NoDup (edge_ids cycle) ∧
  ∀ e, e ∈ cycle → adjacent g e.1 e.2.

(** ** The array functions of the differential equation wrapper
    ([BCSThesis/GRacC.py]) *)

(** A slice [start:stop:step] of a numpy array, with bounds that are not
    negative and a positive step; numpy cuts [stop] down to the length of the
    axis. *)
Record Slice : Set := { sl_start : nat; sl_stop : nat; sl_step : nat }.

(** The place in the slice of the index [i] of an axis of length [len], if
    the slice selects it. *)
Definition slice_pos (s : Slice) (len i : nat) : option nat :=
  if decide (sl_start s ≤ i ∧ i < sl_stop s `min` len ∧ (i - sl_start s) `mod` sl_step s = 0)
  then Some ((i - sl_start s) `div` sl_step s) else None.

(** The number of indices the slice selects on an axis of length [len]. *)
Definition slice_len (s : Slice) (len : nat) : nat :=
  (sl_stop s `min` len - sl_start s + sl_step s - 1) `div` sl_step s.

(** The number of columns of a two-dimensional array, [M.shape[1]]; the
    list of the rows tells it for an array that has a row. *)
Definition ncols {A} (M : list (list A)) : nat := length (default [] (head M)).

(** The elements of [l] the slice selects. *)
Definition getitem_slice {A} (l : list A) (s : Slice) : list A :=
  omap (λ a, l !! (sl_start s + a * sl_step s)) (seq 0 (slice_len s (length l))).

(** [M[rs, cs]], for two slices. *)
Definition getitem_slices {A} (M : list (list A)) (rs cs : Slice) : list (list A) :=
  (λ row, getitem_slice row cs) <$> getitem_slice M rs.

(** An array of [r] rows and [c] columns. *)
Definition rect {A} (r c : nat) (M : list (list A)) : Prop :=
  length M = r ∧ Forall (λ row, length row = c) M.

(** [M[rs, cs] = V], for two slices and a value [V] of the shape of the
    selection (numpy's broadcasting of a smaller value is left out: the
    program assigns values of that shape only). *)
Definition setitem_slices {A} (M : list (list A)) (rs cs : Slice) (V : list (list A))
  : Res (list (list A)) :=
  if bool_decide (length V = slice_len rs (length M) ∧
                  Forall (λ row, length row = slice_len cs (ncols M)) V)
  then Ok (imap (λ i row,
             match slice_pos rs (length M) i with
             | Some a =>
                 imap (λ j x,
                   match slice_pos cs (length row) j with
                   | Some b => default x (entry V a b)
                   | None => x
                   end) row
             | None => row
             end) M)
  else Raise ValueError.

(** [np.empty((r, c))]: an array whose entries are what the memory holds. *)
Definition np_empty {A} (memory : nat → nat → A) (r c : nat) : list (list A) :=
  (λ i, (λ j, memory i j) <$> seq 0 c) <$> seq 0 r.

(** [_complex_to_real_jac]: a complex number is the pair of its real and its
    imaginary part. *)
Definition _complex_to_real_jac (memory : nat → nat → float) (jac : list (list (float * float)))
  : Res (list (list float)) :=
  let r := 2 * length jac in
  let c := 2 * ncols jac in
  let real_jac := np_empty memory r c in
  let real : list (list float) := (λ row : list (float * float), fst <$> row) <$> jac in
  let imag : list (list float) := (λ row : list (float * float), snd <$> row) <$> jac in
  let* real_jac := setitem_slices real_jac
      {| sl_start := 0; sl_stop := r; sl_step := 2 |}
      {| sl_start := 0; sl_stop := c; sl_step := 2 |} real in
  let* real_jac := setitem_slices real_jac
      {| sl_start := 1; sl_stop := r; sl_step := 2 |}
      {| sl_start := 1; sl_stop := c; sl_step := 2 |} real in
  let* real_jac := setitem_slices real_jac
      {| sl_start := 0; sl_stop := r; sl_step := 2 |}
      {| sl_start := 1; sl_stop := c; sl_step := 2 |}
      ((λ row : list float, PrimFloat.opp <$> row) <$> imag) in
  let* real_jac := setitem_slices real_jac
      {| sl_start := 1; sl_stop := r; sl_step := 2 |}
      {| sl_start := 0; sl_stop := c; sl_step := 2 |} imag in
  Ok real_jac.

(** [_transform_banded_jac] *)
Definition _transform_banded_jac (bjac : list (list float)) : Res (list (list float)) :=
  let r := length bjac in
  let c := ncols bjac in
  let newjac := np.zeros 0%float (r + 1) c in
  let* newjac := setitem_slices newjac
      {| sl_start := 1; sl_stop := r + 1; sl_step := 1 |}
      {| sl_start := 0; sl_stop := c; sl_step := 2 |}
      (getitem_slices bjac {| sl_start := 0; sl_stop := r; sl_step := 1 |}
                           {| sl_start := 0; sl_stop := c; sl_step := 2 |}) in
  let* newjac := setitem_slices newjac
      {| sl_start := 0; sl_stop := r; sl_step := 1 |}
      {| sl_start := 1; sl_stop := c; sl_step := 2 |}
      (getitem_slices bjac {| sl_start := 0; sl_stop := r; sl_step := 1 |}
                           {| sl_start := 1; sl_stop := c; sl_step := 2 |}) in
  Ok newjac.

(** ** Node indices below zero *)

(** The nodes the parser reads a line as joining: an index below zero
    counts from the last node. *)
Definition wraps (n : nat) (r : BranchRecord) (u v : nat) : Prop :=
  np.index n (rec_org r) = Ok u ∧ np.index n (rec_dst r) = Ok v.

(** * Properties *)

(** ** The error monad and the arrays *)

Lemma bind_Ok {A B} (m : Res A) (f : A → Res B) b :
  bind m f = Ok b ↔ ∃ a, m = Ok a ∧ f a = Ok b.
Proof. destruct m; simpl; split; [eauto | intros (?&[= <-]&?); done | done | intros (?&?&?); done]. Qed.

Lemma getitem_Ok {A} (l : list A) i x : np.getitem l i = Ok x ↔ l !! i = Some x.
Proof. unfold np.getitem. destruct (l !! i); split; congruence. Qed.

Lemma setitem_Ok {A} (l : list A) i x l' :
  np.setitem l i x = Ok l' ↔ i < length l ∧ l' = <[i:=x]> l.
Proof. unfold np.setitem. case_decide; split; [intros [= <-]; done | intros [_ ->]; done | done | intros [? _]; lia]. Qed.

(** ** The triangle circuit *)

(** C3: the triangle circuit with nodes 0, 1, 2 and the branches (0,1) with
    R = 1, V = 6, (1,2) with R = 1, V = 0 and (2,0) with R = 1, V = 0, each
    with the reference direction it is written in, has exactly one
    fundamental cycle, the solved current is 2 on every branch (and these
    currents satisfy every row of the assembled system), and the circuit, read
    into [kg3] as the file does, is classified Ordinary. *)
Theorem triangle_circuit :
  circuit_parser 3 3 triangle_lines = Ok triangle ∧
  fundamental_cycles triangle = Ok [[(0, 1); (1, 2); (2, 0)]] ∧
  assemble triangle =
    Ok ([[-1; -1; -1]; [-1; 1; 0]; [1; 0; -1]]%float, [-6; 0; 0]%float) ∧
  find_kg_edges_weights triangle = Ok [2; 2; 2]%float ∧
  (λ row, linalg.dot row [2; 2; 2]%float) <$> [[-1; -1; -1]; [-1; 1; 0]; [1; 0; -1]]%float
  = [-6; 0; 0]%float ∧
  circuit_type triangle triangle = Some "Ordinary"%string.
Proof. repeat split; vm_compute; reflexivity. Qed.

(** ** The classifier *)

Lemma contains_nonzero_spec vals :
  contains_nonzero vals = true ↔ ∃ x, x ∈ vals ∧ is_zero x = false.
Proof.
  unfold contains_nonzero.
  assert (H : ∀ b, foldl (λ b val, if negb (is_zero val) then true else b) b vals = true
                   ↔ b = true ∨ ∃ x, x ∈ vals ∧ is_zero x = false).
  { induction vals as [|v vals IH]; intros b; simpl.
    - split; [auto | intros [? | (? & []%elem_of_nil & _)]; done].
    - rewrite IH. destruct (is_zero v) eqn:Hv; simpl.
      + split; (intros [? | (x & Hx & ?)]; [auto | right]).
        * exists x. split; [by right | done].
        * apply elem_of_cons in Hx as [-> | ?]; [congruence | eauto].
      + split; [intros _ | auto]. right. exists v. split; [by left | done]. }
  rewrite H. split; [intros [? | ?]; done | auto].
Qed.

(** What [circuit_type] computes: the class of the circuit [kg3], whatever
    its argument is. *)
Lemma circuit_type_of_kg3 kg3 kg :
  circuit_type kg3 kg =
    Some (match contains_nonzero (get_edge_attributes kg3 self),
                contains_nonzero (get_edge_attributes kg3 capacitor) with
          | false, false => "Ordinary"
          | false, true => "RC"
          | true, false => "RL"
          | true, true => "RLC"
          end)%string.
Proof.
  unfold circuit_type.
  destruct (contains_nonzero _), (contains_nonzero _); reflexivity.
Qed.

(** C4, which the code breaks: with the RC circuit [two_capacitors] in the
    variable [kg3], [circuit_type] called on the triangle, none of whose
    branches has a capacitance or an inductance, answers RC, and so does it on
    every other argument. *)
Theorem circuit_type_ignores_argument :
  get_edge_attributes triangle capacitor = [0; 0; 0]%float ∧
  get_edge_attributes triangle self = [0; 0; 0]%float ∧
  circuit_type two_capacitors triangle = Some "RC"%string ∧
  ∀ kg, circuit_type two_capacitors kg = Some "RC"%string.
Proof. repeat split; vm_compute; reflexivity. Qed.

(** ** The column of a branch *)

Lemma get_edge_index_loop_sym es org dst i :
  get_edge_index_loop es org dst i = get_edge_index_loop es dst org i.
Proof.
  revert i. induction es as [|e es IH]; intros i; simpl; [done|].
  rewrite IH.
  destruct (bool_decide (e.1 = org)), (bool_decide (e.2 = dst)),
    (bool_decide (e.2 = org)), (bool_decide (e.1 = dst)); reflexivity.
Qed.

Lemma matches_test e org dst :
  bool_decide (e.1 = org) && bool_decide (e.2 = dst)
  || bool_decide (e.2 = org) && bool_decide (e.1 = dst) = bool_decide (matches e org dst).
Proof.
  unfold matches. repeat case_bool_decide; simpl; try reflexivity; exfalso; tauto.
Qed.

Lemma get_edge_index_loop_None es org dst i :
  get_edge_index_loop es org dst i = None ↔ ∀ e, e ∈ es → ¬ matches e org dst.
Proof.
  revert i. induction es as [|e es IH]; intros i; simpl.
  - split; [intros _ ? []%elem_of_nil | done].
  - rewrite matches_test. case_bool_decide as Hm.
    + split; [done | intros H; exfalso; apply (H e); [by left | done]].
    + rewrite IH. split.
      * intros H e' [-> | ?]%elem_of_cons; [done | by apply H].
      * intros H e' ?. apply H. by right.
Qed.

Lemma get_edge_index_loop_Some es org dst i k :
  get_edge_index_loop es org dst i = Some k ↔
  ∃ e, i ≤ k ∧ es !! (k - i) = Some e ∧ matches e org dst ∧
       ∀ j e', j < k - i → es !! j = Some e' → ¬ matches e' org dst.
Proof.
  revert i. induction es as [|e es IH]; intros i; simpl.
  - split; [done | intros (? & _ & [=] & _)].
  - rewrite matches_test. case_bool_decide as H.
    +       split.
      * intros [= <-]. exists e. rewrite Nat.sub_diag. repeat split; [lia | done | lia].
      * intros (e' & Hle & Hk & Hm' & Hfirst).
        destruct (k - i) as [|d] eqn:Hd; [f_equal; lia|].
        exfalso. apply (Hfirst 0 e); [lia | done | done].
    +       rewrite IH. split.
      * intros (e' & Hle & Hk & Hm' & Hfirst). exists e'.
        replace (k - i) with (S (k - (i + 1))) by lia.
        repeat split; [lia | done | done |].
        intros [|j] e'' Hj; simpl; [intros [= <-]; done | apply Hfirst; lia].
      * intros (e' & Hle & Hk & Hm' & Hfirst).
        destruct (k - i) as [|d] eqn:Hd; simpl in Hk; [congruence|].
        exists e'. replace (k - (i + 1)) with d by lia.
        repeat split; [lia | done | done |].
        intros j e'' Hj Hl. apply (Hfirst (S j) e''); [lia | done].
Qed.

(** C9, at a pair that is no branch: the lookup returns [None], the value of
    a Python function that ends without [return]; nothing is raised. *)
Lemma get_edge_index_miss :
  (∀ e, e ∈ nx.edges triangle → ¬ matches e 0 5) ∧
  get_edge_index triangle 0 5 = None ∧ get_A_coord triangle 0 5 = None.
Proof.
  split; [|split; reflexivity].
  change (nx.edges triangle) with [(0, 1); (0, 2); (1, 2)].
  intros e He. unfold matches.
  repeat (apply elem_of_cons in He as [-> | He]; [simpl; lia|]).
  by apply elem_of_nil in He.
Qed.

Lemma get_edge_index_None kg org dst :
  get_edge_index kg org dst = None ↔ ∀ e, e ∈ nx.edges kg → ¬ matches e org dst.
Proof. apply get_edge_index_loop_None. Qed.

Lemma get_edge_index_Some kg org dst k :
  get_edge_index kg org dst = Some k ↔
  ∃ e, nx.edges kg !! k = Some e ∧ matches e org dst ∧
       ∀ j e', j < k → nx.edges kg !! j = Some e' → ¬ matches e' org dst.
Proof.
  unfold get_edge_index. rewrite get_edge_index_loop_Some, Nat.sub_0_r.
  split; [intros (e & _ & ?); eauto | intros (e & ?); exists e; split; [lia | done]].
Qed.

(** C9, amended: the lookup returns [None] exactly when no branch of the
    graph matches the unordered pair; when one does, it returns the position
    of the first such branch in [kg.edges()], and the same one for both orders
    of [org] and [dst]. *)
Theorem get_edge_index_correct (kg : nx.Graph) (org dst : nat) :
  get_A_coord kg org dst = get_edge_index kg org dst ∧
  get_edge_index kg org dst = get_edge_index kg dst org ∧
  (get_edge_index kg org dst = None ↔ ∀ e, e ∈ nx.edges kg → ¬ matches e org dst) ∧
  (∀ k, get_edge_index kg org dst = Some k ↔
        ∃ e, nx.edges kg !! k = Some e ∧ matches e org dst ∧
             ∀ j e', j < k → nx.edges kg !! j = Some e' → ¬ matches e' org dst).
Proof.
  split; [done|]. split; [apply get_edge_index_loop_sym|].
  split; [apply get_edge_index_None | intros k; apply get_edge_index_Some].
Qed.

(** ** The parser *)

Lemma setitem2_intro {A} (M : list (list A)) i j x row :
  M !! i = Some row → j < length row →
  np.setitem2 M i j x = Ok (<[i := <[j := x]> row]> M).
Proof.
  intros Hrow Hj. unfold np.setitem2, np.getitem, np.setitem. rewrite Hrow. simpl.
  rewrite decide_True by done. simpl.
  rewrite decide_True by (by eapply lookup_lt_Some). done.
Qed.

Lemma square_lookup {A} n (M : list (list A)) i :
  square n M → i < n → ∃ row, M !! i = Some row ∧ length row = n.
Proof.
  intros [Hlen Hrows] Hi. destruct (lookup_lt_is_Some_2 M i) as [row Hrow]; [lia|].
  exists row. split; [done|]. by eapply (Forall_lookup_1 _ _ _ _ Hrows).
Qed.

Lemma square_insert {A} n (M : list (list A)) i row :
  square n M → length row = n → square n (<[i := row]> M).
Proof.
  intros [Hlen Hrows] Hrow. split; [by rewrite length_insert|].
  apply Forall_insert; done.
Qed.

Lemma square_zeros {A} (z : A) n : square n (np.zeros z n n).
Proof.
  unfold np.zeros. split; [apply length_replicate|].
  apply Forall_replicate. apply length_replicate.
Qed.

Lemma setitem2_square {A} n (M : list (list A)) i j x :
  square n M → i < n → j < n →
  ∃ M', np.setitem2 M i j x = Ok M' ∧ square n M'.
Proof.
  intros HM Hi Hj. destruct (square_lookup n M i HM Hi) as (row & Hrow & Hlen).
  eexists. split; [apply setitem2_intro; [done | lia]|].
  apply square_insert; [done|]. by rewrite length_insert.
Qed.

Lemma index_indexable n i :
  (- Z.of_nat n ≤ i < Z.of_nat n)%Z → ∃ k, np.index n i = Ok k ∧ k < n.
Proof.
  intros Hi. unfold np.index. case_decide; [eexists; split; [done | lia]|].
  rewrite decide_True by lia. eexists; split; [done | lia].
Qed.

Lemma index_not_indexable n i :
  ¬ (- Z.of_nat n ≤ i < Z.of_nat n)%Z → np.index n i = Raise IndexError.
Proof.
  intros Hi. unfold np.index. rewrite decide_False by lia. rewrite decide_False by lia. done.
Qed.

Lemma parse_line_indexable n kgam kgedgatt r :
  square n kgam → indexable n r →
  ∃ kgam', parse_line n (kgam, kgedgatt) r
           = Ok (kgam', dict_set kgedgatt (rec_org r, rec_dst r) r) ∧ square n kgam'.
Proof.
  intros HM [Hx Hy]. unfold parse_line.
  destruct (index_indexable n _ Hx) as (x & -> & Hxn).
  destruct (index_indexable n _ Hy) as (y & -> & Hyn). simpl.
  destruct (setitem2_square n kgam x y 1%float HM Hxn Hyn) as (M' & -> & HM').
  simpl. eauto.
Qed.

Lemma parse_line_not_indexable n kgam kgedgatt r :
  ¬ indexable n r → parse_line n (kgam, kgedgatt) r = Raise IndexError.
Proof.
  intros Hr. unfold parse_line, indexable in *.
  destruct (decide (- Z.of_nat n ≤ rec_org r < Z.of_nat n)%Z) as [Hx|Hx].
  - destruct (index_indexable n _ Hx) as (x & -> & Hxn). simpl.
    rewrite index_not_indexable by tauto. done.
  - rewrite index_not_indexable by done. done.
Qed.

Lemma parse_lines n lines kgam kgedgatt :
  square n kgam →
  match foldM (parse_line n) lines (kgam, kgedgatt) with
  | Ok _ => Forall (indexable n) lines
  | Raise e => e = IndexError ∧ Exists (λ r, ¬ indexable n r) lines
  end.
Proof.
  revert kgam kgedgatt. induction lines as [|r lines IH]; intros kgam kgedgatt HM; cbn [foldM].
  - constructor.
  - assert (Decision (indexable n r)) as [Hr|Hr] by (unfold indexable; apply _).
    + destruct (parse_line_indexable n kgam kgedgatt r HM Hr) as (M' & -> & HM').
      simpl. specialize (IH M' (dict_set kgedgatt (rec_org r, rec_dst r) r) HM').
      destruct (foldM _ _ _); [by constructor | destruct IH; split; [done | by right]].
    + rewrite parse_line_not_indexable by done. simpl. split; [done | by left].
Qed.

(** C7, at two files that are accepted: one declares the pair of nodes 0, 1
    twice and yields one branch, with the attributes of the later line; one
    has the node index -1, which is read as the last node. *)
Lemma circuit_parser_accepts :
  (∃ kg, circuit_parser 2 2 duplicate_lines = Ok kg ∧ nx.edges kg = [(0, 1)] ∧
         edge_attr kg 0 1 = Ok (branch 2 0 0 0 (1, 0))) ∧
  (∃ kg, circuit_parser 3 1 negative_lines = Ok kg ∧ nx.edges kg = [(0, 2)]).
Proof. split; eexists; (split; [vm_compute; reflexivity|]); split; reflexivity || vm_compute; reflexivity. Qed.

(** C7, amended: [circuit_parser] fails, with numpy's [IndexError], exactly
    when some line has a node index outside [-nodeCount, nodeCount), and
    otherwise returns a graph; a negative index down to [-nodeCount] counts
    from the last node, and a pair of nodes declared twice is accepted. *)
Theorem circuit_parser_index_error (n : nat) (edgesnumber : Z) (lines : list BranchRecord) :
  (circuit_parser (Z.of_nat n) edgesnumber lines = Raise IndexError
   ↔ Exists (λ r, ¬ indexable n r) lines) ∧
  (is_Ok (circuit_parser (Z.of_nat n) edgesnumber lines) ↔ Forall (indexable n) lines).
Proof.
  unfold circuit_parser. rewrite decide_False by lia. rewrite Nat2Z.id.
  pose proof (parse_lines n lines (np.zeros 0%float n n) [] (square_zeros _ n)) as H.
  destruct (foldM _ _ _) as [[kgam kgedgatt]|e]; simpl.
  - split; split.
    + done.
    + intros Hex. exfalso. apply Exists_exists in Hex as (r & Hr & Hn).
      by eapply Hn, (proj1 (Forall_forall _ _) H).
    + done.
    + intros _. eexists. done.
  - destruct H as [-> Hex]. split; split; [done | done | intros [? [=]] |].
    intros Hall. exfalso. apply Exists_exists in Hex as (r & Hr & Hn).
    by eapply Hn, (proj1 (Forall_forall _ _) Hall).
Qed.

(** ** The trial matrices *)

Lemma with_edge_square n (M : list (list Z)) e :
  square n M → square n (with_edge M e).
Proof.
  intros HM. unfold with_edge.
  assert (∀ M' i j, square n M' → square n (<[i := <[j := 1%Z]> (default [] (M' !! i))]> M')) as Hstep.
  { intros M' i j HM'. destruct (decide (i < n)) as [Hi|Hi].
    - destruct (square_lookup n M' i HM' Hi) as (row & -> & Hrow). simpl.
      apply square_insert; [done|]. by rewrite length_insert.
    - rewrite list_insert_ge; [done|]. destruct HM'. lia. }
  by do 2 apply Hstep.
Qed.

(** One round of the first loop of [graph_list] writes the slot [i] of [glam]
    and nothing else. *)
Lemma graph_list_step_insert n kgmstam i glam e :
  square n kgmstam → i < length glam → e.1 < n → e.2 < n →
  graph_list_step kgmstam (i, glam) e = Ok (i + 1, <[i := with_edge kgmstam e]> glam).
Proof.
  intros HM Hi H1 H2. unfold graph_list_step.
  destruct (square_lookup n kgmstam e.1 HM H1) as (row1 & Hrow1 & Hlen1).
  unfold np.setitem at 1. rewrite decide_True by done. cbn [bind].
  unfold np.getitem at 1. rewrite list_lookup_insert_eq by done. cbn [bind].
  rewrite (setitem2_intro kgmstam e.1 e.2 1%Z row1) by (done || lia). cbn [bind].
  unfold np.setitem at 1. rewrite decide_True by (by rewrite length_insert). cbn [bind].
  unfold np.getitem at 1.
  rewrite list_lookup_insert_eq by (by rewrite length_insert). cbn [bind].
  set (M1 := <[e.1 := <[e.2 := 1%Z]> row1]> kgmstam).
  assert (square n M1) as HM1.
  { apply square_insert; [done|]. by rewrite length_insert. }
  destruct (square_lookup n M1 e.2 HM1 H2) as (row2 & Hrow2 & Hlen2).
  rewrite (setitem2_intro M1 e.2 e.1 1%Z row2) by (done || lia). cbn [bind].
  unfold np.setitem at 1. rewrite decide_True by (by rewrite !length_insert). cbn [bind].
  do 2 f_equal. rewrite !list_insert_insert_eq. f_equal.
  unfold with_edge. rewrite Hrow1. simpl. fold M1. rewrite Hrow2. done.
Qed.

Lemma graph_list_loop n kgmstam rest i glam :
  square n kgmstam → length glam = i + length rest →
  Forall (λ e, e.1 < n ∧ e.2 < n) rest →
  ∃ glam', foldM (graph_list_step kgmstam) rest (i, glam) = Ok (i + length rest, glam') ∧
    length glam' = length glam ∧
    (∀ j, j < i → glam' !! j = glam !! j) ∧
    (∀ k e, rest !! k = Some e → glam' !! (i + k) = Some (with_edge kgmstam e)).
Proof.
  intros HM. revert i glam. induction rest as [|e rest IH]; intros i glam Hlen Hrange; cbn [foldM].
  - exists glam. rewrite Nat.add_0_r. split; [done|]. split; [done|]. split; [done|]. intros k e [=].
  - apply Forall_cons in Hrange as [[H1 H2] Hrange]. cbn [length] in Hlen.
    rewrite (graph_list_step_insert n) by (done || lia). cbn [bind].
    destruct (IH (i + 1) (<[i := with_edge kgmstam e]> glam)) as (glam' & -> & Hlen' & Hlow & Hnew).
    { rewrite length_insert. lia. }
    { done. }
    exists glam'. split; [f_equal; f_equal; cbn [length]; lia|].
    split; [by rewrite Hlen', length_insert|].
    split.
    + intros j Hj. rewrite Hlow by lia. apply list_lookup_insert_ne. lia.
    + intros [|k] e' He'.
      * injection He' as <-. rewrite Nat.add_0_r, Hlow by lia.
        apply list_lookup_insert_eq. lia.
      * replace (i + S k) with (i + 1 + k) by lia. by apply Hnew.
Qed.

(** What [graph_list] returns: a graph for each co-tree edge, built from the
    matrix of the tree with that edge. *)
Lemma graph_list_slots (kgmstam : list (list Z)) (eled : list (nat * nat)) :
  square (length kgmstam) kgmstam →
  Forall (λ e, e.1 < length kgmstam ∧ e.2 < length kgmstam) eled →
  ∃ glam, graph_list_glam kgmstam eled = Ok glam ∧
    length glam = length eled ∧
    (∀ i e, eled !! i = Some e → glam !! i = Some (with_edge kgmstam e)) ∧
    graph_list kgmstam eled
    = Ok (nx.from_pandas_adjacency (λ x, negb (bool_decide (x = 0%Z))) <$> glam).
Proof.
  intros HM Hrange.
  destruct (graph_list_loop (length kgmstam) kgmstam eled 0
              (replicate (length eled) (np.zeros 0%Z (length kgmstam) (length kgmstam))))
    as (glam & Hloop & Hlen & _ & Hnew); [done | by rewrite length_replicate | done |].
  assert (graph_list_glam kgmstam eled = Ok glam) as Hglam.
  { unfold graph_list_glam. rewrite bool_decide_eq_true_2 by apply HM.
    rewrite Hloop. done. }
  exists glam. split; [done|]. split; [by rewrite Hlen, length_replicate|].
  split; [intros i e; apply (Hnew i e)|].
  unfold graph_list. rewrite Hglam. done.
Qed.



(** ** The reduced system *)

(** C5, which the code breaks: on the triangle with a capacitor on the branches
    (0,1) and (2,0), columns 0 and 1, the row of the only cycle is deleted,
    then column 0, and then column 1 of what is left, which is the column of
    the branch (1,2): the system that is solved keeps the column of the
    variable-weight branch (2,0) and has lost that of a constant-weight branch.
    With two variable-weight cycles the rows are deleted twice over and the
    second column index is out of range. *)
Theorem reduced_system_wrong_column :
  circuit_parser 3 3 two_capacitors_lines = Ok two_capacitors ∧
  assemble two_capacitors
  = Ok ([[-1; -5; -3]; [-1; 1; 0]; [1; 0; -1]]%float, [-6; 0; 0]%float) ∧
  reduced_system two_capacitors two_capacitors = Ok ([[1]; [0]]%float, [0; 0]%float) ∧
  reduced_system_spec two_capacitors = Ok ([[0]; [-1]]%float, [0; 0]%float) ∧
  circuit_parser 4 5 two_loops_lines = Ok two_loops ∧
  reduced_system two_loops two_loops = Raise IndexError ∧
  reduced_system_spec two_loops
  = Ok ([[-1; -1; -1]; [1; 0; 0]; [0; 1; 0]]%float, [0; 0; 0]%float).
Proof. repeat split; vm_compute; reflexivity. Qed.

(** ** A graph in two components *)


(** ** Graphs *)

Lemma elem_of_row_lt a u v : v ∈ row a u → u < length a.
Proof.
  unfold row. destruct (a !! u) eqn:Hu; simpl; [|by intros ?%elem_of_nil].
  intros _. by eapply lookup_lt_Some.
Qed.

Lemma adjacent_lt g u v : adjacent g u v → u < nx.number_of_nodes g.
Proof. apply elem_of_row_lt. Qed.

Lemma simple_row g u : simple g → row_ok g u (nx.neighbors g u).
Proof.
  intros Hg. unfold nx.neighbors. destruct (nx.adj g !! u) as [nbrs|] eqn:Hu; simpl.
  - apply (proj1 (Forall_forall _ _) Hg (u, nbrs)).
    apply (elem_of_lookup_imap_2 pair _ _ _ Hu).
  - split; constructor.
Qed.

Lemma simple_NoDup g u : simple g → NoDup (nx.neighbors g u).
Proof. intros Hg. apply (simple_row g u Hg). Qed.

Lemma simple_adjacent g u v :
  simple g → adjacent g u v →
  u < nx.number_of_nodes g ∧ v < nx.number_of_nodes g ∧ u ≠ v ∧ adjacent g v u.
Proof.
  intros Hg Huv. split; [by eapply adjacent_lt|].
  destruct (simple_row g u Hg) as [_ Hall].
  apply (proj1 (Forall_forall _ _) Hall v Huv).
Qed.

Lemma simple_intro g :
  (∀ u, NoDup (nx.neighbors g u)) →
  (∀ u v, adjacent g u v → v < nx.number_of_nodes g ∧ u ≠ v ∧ adjacent g v u) →
  simple g.
Proof.
  intros Hnd Hadj. apply Forall_forall. intros p Hin.
  apply elem_of_lookup_imap in Hin as (u & nbrs & -> & Hu).
  assert (nx.neighbors g u = nbrs) as Hn by (unfold nx.neighbors; by rewrite Hu).
  split; simpl; [rewrite <- Hn; apply Hnd|].
  apply Forall_forall. intros v Hv. apply Hadj. unfold adjacent. by rewrite Hn.
Qed.

Lemma attributed_adjacent kg u v :
  attributed kg → adjacent kg u v →
  ∃ d, nx.attr kg !! nx.edge_id u v = Some d ∧
       (suggested_dir d = (u, v) ∨ suggested_dir d = (v, u)).
Proof.
  intros Hkg Huv. unfold adjacent, nx.neighbors in Huv.
  destruct (nx.adj kg !! u) as [nbrs|] eqn:Hu; simpl in Huv; [|by apply elem_of_nil in Huv].
  pose proof (proj1 (Forall_forall _ _) Hkg (u, nbrs)
                (elem_of_lookup_imap_2 pair _ _ _ Hu)) as Hrow. simpl in Hrow.
  pose proof (proj1 (Forall_forall _ _) Hrow v Huv) as Hb. unfold branch_ok in Hb.
  destruct (nx.attr kg !! nx.edge_id u v) as [d|]; [eauto | done].
Qed.

Lemma edge_id_sym u v : nx.edge_id u v = nx.edge_id v u.
Proof. unfold nx.edge_id. f_equal; lia. Qed.

Lemma edge_id_eq u v u' v' :
  nx.edge_id u v = nx.edge_id u' v' ↔ (u = u' ∧ v = v') ∨ (u = v' ∧ v = u').
Proof. unfold nx.edge_id. split; [intros [= H1 H2] | intros [[-> ->] | [-> ->]]; f_equal]; lia. Qed.

(** *** Adding edges *)

Lemma elem_of_add_nbr v nbrs x : x ∈ nx.add_nbr v nbrs ↔ x ∈ nbrs ∨ x = v.
Proof.
  unfold nx.add_nbr. case_bool_decide.
  - split; [auto | intros [? | ->]; done].
  - rewrite elem_of_app, list_elem_of_singleton. done.
Qed.

Lemma NoDup_add_nbr v nbrs : NoDup nbrs → NoDup (nx.add_nbr v nbrs).
Proof.
  intros Hnd. unfold nx.add_nbr. case_bool_decide; [done|].
  apply NoDup_app. split; [done|]. split; [|apply NoDup_singleton].
  intros x Hx ->%list_elem_of_singleton. done.
Qed.

Lemma length_add_edge a e : length (nx.add_edge a e) = length a.
Proof. unfold nx.add_edge. by rewrite !length_alter. Qed.

Lemma row_alter f a i u :
  row (alter f i a) u = if decide (i = u ∧ u < length a) then f (row a u) else row a u.
Proof.
  unfold row. destruct (decide (i = u)) as [->|Hne].
  - rewrite list_lookup_alter_eq. destruct (a !! u) eqn:Hu; simpl.
    + rewrite decide_True; [done|]. split; [done | by eapply lookup_lt_Some].
    + rewrite decide_False; [done|]. apply lookup_ge_None in Hu. lia.
  - rewrite list_lookup_alter_ne by done. rewrite decide_False by tauto. done.
Qed.

Lemma elem_of_add_edge a e u v :
  u < length a →
  v ∈ row (nx.add_edge a e) u ↔ v ∈ row a u ∨ e = (u, v) ∨ e = (v, u).
Proof.
  intros Hu. destruct e as [x y]. unfold nx.add_edge. simpl.
  rewrite !row_alter, length_alter.
  repeat case_decide; rewrite ?elem_of_add_nbr; naive_solver.
Qed.

Lemma NoDup_add_edge a e u : NoDup (row a u) → NoDup (row (nx.add_edge a e) u).
Proof.
  intros Hnd. unfold nx.add_edge. rewrite !row_alter.
  repeat case_decide; repeat apply NoDup_add_nbr; done.
Qed.

Lemma length_add_edges es a : length (foldl nx.add_edge a es) = length a.
Proof.
  revert a. induction es as [|e es IH]; intros a; simpl; [done|].
  by rewrite IH, length_add_edge.
Qed.

Lemma elem_of_add_edges es a u v :
  u < length a →
  v ∈ row (foldl nx.add_edge a es) u ↔ v ∈ row a u ∨ (u, v) ∈ es ∨ (v, u) ∈ es.
Proof.
  revert a. induction es as [|e es IH]; intros a Hu; simpl.
  - rewrite !elem_of_nil. tauto.
  - rewrite IH by (by rewrite length_add_edge).
    rewrite elem_of_add_edge by done. rewrite !elem_of_cons. naive_solver.
Qed.

Lemma NoDup_add_edges es a u :
  NoDup (row a u) → NoDup (row (foldl nx.add_edge a es) u).
Proof.
  revert a. induction es as [|e es IH]; intros a Hnd; simpl; [done|].
  by apply IH, NoDup_add_edge.
Qed.

Lemma row_replicate_nil n u : row (replicate n []) u = [].
Proof.
  unfold row. destruct (replicate n [] !! u) eqn:Hu; [|done].
  by apply lookup_replicate in Hu as [-> _].
Qed.

(** The graph made of a list of edges between the nodes [0 .. n-1]. *)
Lemma elem_of_graph_of_edges n es u v :
  v ∈ row (foldl nx.add_edge (replicate n []) es) u ↔
  u < n ∧ ((u, v) ∈ es ∨ (v, u) ∈ es).
Proof.
  destruct (decide (u < n)) as [Hu|Hu].
  - rewrite elem_of_add_edges by (by rewrite length_replicate).
    rewrite row_replicate_nil, elem_of_nil. tauto.
  - split; [|tauto]. intros Hv%elem_of_row_lt.
    rewrite length_add_edges, length_replicate in Hv. lia.
Qed.

Lemma NoDup_graph_of_edges n es u :
  NoDup (row (foldl nx.add_edge (replicate n []) es) u).
Proof. apply NoDup_add_edges. rewrite row_replicate_nil. constructor. Qed.

(** *** Adjacency matrices *)

Lemma to_numpy_array_square g :
  square (nx.number_of_nodes g) (nx.to_numpy_array g).
Proof.
  unfold nx.to_numpy_array, nx.number_of_nodes. split; [by rewrite length_fmap|].
  apply Forall_fmap, Forall_forall. intros nbrs _. simpl.
  unfold nx.nodes, nx.number_of_nodes. by rewrite length_fmap, length_seq.
Qed.

Lemma to_numpy_array_lookup g u v :
  u < nx.number_of_nodes g → v < nx.number_of_nodes g →
  ∃ r, nx.to_numpy_array g !! u = Some r ∧
       r !! v = Some (if bool_decide (v ∈ nx.neighbors g u) then 1%Z else 0%Z).
Proof.
  intros Hu Hv. unfold nx.to_numpy_array, nx.neighbors.
  destruct (lookup_lt_is_Some_2 (nx.adj g) u Hu) as [nbrs Hnbrs].
  rewrite list_lookup_fmap, Hnbrs. simpl. eexists. split; [done|].
  rewrite list_lookup_fmap. unfold nx.nodes. rewrite lookup_seq_lt by done. done.
Qed.

Lemma to_numpy_array_getitem2 g u v :
  u < nx.number_of_nodes g → v < nx.number_of_nodes g →
  np.getitem2 (nx.to_numpy_array g) u v
  = Ok (if bool_decide (v ∈ nx.neighbors g u) then 1%Z else 0%Z).
Proof.
  intros Hu Hv. destruct (to_numpy_array_lookup g u v Hu Hv) as (r & Hr & Hrv).
  unfold np.getitem2, np.getitem. rewrite Hr. simpl. by rewrite Hrv.
Qed.

Lemma elem_of_nonzero {A} (nz : A → bool) (M : list (list A)) i j :
  (i, j) ∈ nx.nonzero nz M ↔ ∃ r x, M !! i = Some r ∧ r !! j = Some x ∧ nz x = true.
Proof.
  unfold nx.nonzero. rewrite list_elem_of_join. split.
  - intros (l & Hij & Hl). apply elem_of_lookup_imap in Hl as (i' & r & -> & Hr).
    unfold nx.nonzero_row in Hij. apply list_elem_of_fmap in Hij as (j' & [= -> ->] & Hj).
    apply list_elem_of_filter in Hj as [Hnz _]. apply bool_decide_unpack in Hnz.
    destruct (r !! j') as [x|] eqn:Hx; [|done]. injection Hnz as Hnz. eauto.
  - intros (r & x & Hr & Hx & Hnz). exists (nx.nonzero_row nz i r).
    split; [|by apply elem_of_lookup_imap_2].
    unfold nx.nonzero_row. apply list_elem_of_fmap. exists j. split; [done|].
    apply list_elem_of_filter. split.
    + apply bool_decide_pack. by rewrite Hx, <- Hnz.
    + apply elem_of_seq. apply lookup_lt_Some in Hx. lia.
Qed.

Lemma elem_of_from_pandas_adjacency {A} (nz : A → bool) (M : list (list A)) u v :
  v ∈ nx.neighbors (nx.from_pandas_adjacency nz M) u ↔
  u < length M ∧ ((u, v) ∈ nx.nonzero nz M ∨ (v, u) ∈ nx.nonzero nz M).
Proof. apply elem_of_graph_of_edges. Qed.

Lemma number_of_nodes_from_pandas_adjacency {A} (nz : A → bool) (M : list (list A)) :
  nx.number_of_nodes (nx.from_pandas_adjacency nz M) = length M.
Proof.
  unfold nx.number_of_nodes, nx.from_pandas_adjacency. simpl.
  by rewrite length_add_edges, length_replicate.
Qed.

(** *** The list of edges *)

Lemma elem_of_edges_from k (l : list (list nat)) u v :
  (u, v) ∈ mjoin (imap (λ i, nx.edges_from_row (k + i)) l) ↔
  ∃ i nbrs, u = k + i ∧ l !! i = Some nbrs ∧ v ∈ nbrs ∧ u ≤ v.
Proof.
  rewrite list_elem_of_join. split.
  - intros (es & Huv & Hes). apply elem_of_lookup_imap in Hes as (i & nbrs & -> & Hi).
    unfold nx.edges_from_row in Huv. apply list_elem_of_fmap in Huv as (v' & [= -> ->] & Hv).
    apply list_elem_of_filter in Hv as [Hle Hv]. eauto 10.
  - intros (i & nbrs & -> & Hi & Hv & Hle). exists (nx.edges_from_row (k + i) nbrs).
    split; [|by apply (elem_of_lookup_imap_2 (λ i, nx.edges_from_row (k + i)))].
    unfold nx.edges_from_row. apply list_elem_of_fmap. exists v. split; [done|].
    by apply list_elem_of_filter.
Qed.

Lemma elem_of_edges g u v : (u, v) ∈ nx.edges g ↔ v ∈ nx.neighbors g u ∧ u ≤ v.
Proof.
  unfold nx.edges. rewrite (elem_of_edges_from 0 (nx.adj g) u v). unfold nx.neighbors. split.
  - intros (i & nbrs & -> & Hi & Hv & Hle). simpl. rewrite Hi. done.
  - intros [Hv Hle]. destruct (nx.adj g !! u) as [nbrs|] eqn:Hu; simpl in Hv;
      [|by apply elem_of_nil in Hv].
    exists u, nbrs. done.
Qed.

Lemma NoDup_edges_from k (l : list (list nat)) :
  Forall NoDup l → NoDup (mjoin (imap (λ i, nx.edges_from_row (k + i)) l)).
Proof.
  revert k. induction l as [|nbrs l IH]; intros k Hl; [constructor|].
  apply Forall_cons in Hl as [Hnbrs Hl]. rewrite imap_cons. simpl.
  apply NoDup_app. split; [|split].
  - unfold nx.edges_from_row. apply NoDup_fmap_2; [intros ?? [=]; done|].
    by apply NoDup_filter.
  - intros [u v] Huv Hrest. unfold nx.edges_from_row in Huv.
    apply list_elem_of_fmap in Huv as (v' & [= -> ->] & _).
    rewrite (imap_ext _ (λ i, nx.edges_from_row (S k + i))) in Hrest
      by (intros; simpl; f_equal; lia).
    apply elem_of_edges_from in Hrest as (i & ? & Hk & _). lia.
  - rewrite (imap_ext _ (λ i, nx.edges_from_row (S k + i)))
      by (intros; simpl; f_equal; lia).
    by apply IH.
Qed.

Lemma NoDup_edges g : (∀ u, NoDup (nx.neighbors g u)) → NoDup (nx.edges g).
Proof.
  intros Hnd. apply (NoDup_edges_from 0). apply Forall_lookup. intros u nbrs Hu.
  specialize (Hnd u). unfold nx.neighbors in Hnd. by rewrite Hu in Hnd.
Qed.

(** ** Kruskal's algorithm *)

Lemma kruskal_sublist labels es : sublist (nx.kruskal labels es) es.
Proof.
  revert labels. induction es as [|[u v] es IH]; intros labels; simpl; [constructor|].
  case_decide; [apply sublist_skip | apply sublist_cons]; apply IH.
Qed.

Lemma length_uf_union labels u v : length (nx.uf_union labels u v) = length labels.
Proof. unfold nx.uf_union. by rewrite length_fmap. Qed.

Lemma length_kruskal_labels labels es : length (kruskal_labels labels es) = length labels.
Proof.
  revert labels. induction es as [|[u v] es IH]; intros labels; simpl; [done|].
  case_decide; rewrite IH; [apply length_uf_union | done].
Qed.

Lemma uf_find_union labels u v i :
  i < length labels →
  nx.uf_find (nx.uf_union labels u v) i
  = if decide (nx.uf_find labels i = nx.uf_find labels v)
    then nx.uf_find labels u else nx.uf_find labels i.
Proof.
  intros Hi. destruct (lookup_lt_is_Some_2 labels i Hi) as [l Hl].
  assert (nx.uf_find labels i = l) as -> by (unfold nx.uf_find; by rewrite Hl).
  unfold nx.uf_union. unfold nx.uf_find at 1. rewrite list_lookup_fmap, Hl. done.
Qed.

(** Nodes with one label keep one label. *)
Lemma kruskal_labels_mono labels es i j :
  i < length labels → j < length labels →
  nx.uf_find labels i = nx.uf_find labels j →
  nx.uf_find (kruskal_labels labels es) i = nx.uf_find (kruskal_labels labels es) j.
Proof.
  revert labels. induction es as [|[u v] es IH]; intros labels Hi Hj Heq; simpl; [done|].
  case_decide; [|by apply IH].
  apply IH; rewrite ?length_uf_union; [done | done |].
  rewrite !uf_find_union by done. by rewrite Heq.
Qed.

(** The two ends of every edge have one label in the end. *)
Lemma kruskal_labels_edge labels es u v :
  Forall (λ e, e.1 < length labels ∧ e.2 < length labels) es →
  (u, v) ∈ es →
  nx.uf_find (kruskal_labels labels es) u = nx.uf_find (kruskal_labels labels es) v.
Proof.
  revert labels. induction es as [|[u' v'] es IH]; intros labels Hes Huv;
    [by apply elem_of_nil in Huv|].
  apply Forall_cons in Hes as [[Hu' Hv'] Hes]. simpl in Hu', Hv'.
  apply elem_of_cons in Huv as [[= -> ->] | Huv]; simpl.
  - case_decide as Hne.
    + apply kruskal_labels_mono; rewrite ?length_uf_union. 1: exact Hu'. 1: exact Hv'.
      rewrite !uf_find_union by done. repeat case_decide; done.
    + apply kruskal_labels_mono; [done | done |].
      destruct (decide (nx.uf_find labels u' = nx.uf_find labels v')); [done | contradiction].
  - case_decide; apply IH; try done. by rewrite length_uf_union.
Qed.

(** Nodes with one label in the end are related by every equivalence that
    relates the nodes with one label at the start and the ends of the edges
    kept. *)
Lemma kruskal_labels_related (P : nat → nat → Prop) labels es :
  (∀ i j, P i j → P j i) → (∀ i j k, P i j → P j k → P i k) →
  Forall (λ e, e.1 < length labels ∧ e.2 < length labels) es →
  (∀ u v, (u, v) ∈ nx.kruskal labels es → P u v) →
  (∀ i j, i < length labels → j < length labels →
          nx.uf_find labels i = nx.uf_find labels j → P i j) →
  ∀ i j, i < length labels → j < length labels →
         nx.uf_find (kruskal_labels labels es) i = nx.uf_find (kruskal_labels labels es) j →
         P i j.
Proof.
  intros Hsym Htrans. revert labels.
  induction es as [|[u v] es IH]; intros labels Hes Hkept Hstart i j Hi Hj; simpl; [by apply Hstart|].
  apply Forall_cons in Hes as [[Hu Hv] Hes]. simpl in Hu, Hv. cbn [nx.kruskal] in Hkept.
  case_decide as Hne.
  - rewrite <- (length_uf_union labels u v) in Hi, Hj.
    apply IH; try done.
    + by rewrite length_uf_union.
    + intros u' v' Huv'. apply Hkept. by right.
    + rewrite length_uf_union. intros i' j' Hi' Hj'. rewrite !uf_find_union by done.
      assert (P u v) as Puv by (apply Hkept; by left).
      repeat case_decide; intros Heq.
      * apply Htrans with v; [by apply Hstart|]. apply Hsym. by apply Hstart.
      * apply Htrans with v; [by apply Hstart|]. apply Htrans with u; [by apply Hsym|].
        by apply Hstart.
      * apply Htrans with u; [by apply Hstart|]. apply Htrans with v; [done|].
        apply Hsym. by apply Hstart.
      * by apply Hstart.
  - apply IH; done.
Qed.

Lemma uf_find_elem_of labels u : u < length labels → nx.uf_find labels u ∈ labels.
Proof.
  intros Hu. destruct (lookup_lt_is_Some_2 labels u Hu) as [l Hl].
  unfold nx.uf_find. rewrite Hl. simpl. by eapply list_elem_of_lookup_2.
Qed.

Lemma uf_union_labels labels u v :
  u < length labels → v < length labels →
  nx.uf_find labels u ≠ nx.uf_find labels v →
  (list_to_set (nx.uf_union labels u v) : gset nat)
  = list_to_set labels ∖ {[nx.uf_find labels v]}.
Proof.
  intros Hu Hv Hne. apply set_eq. intros x.
  rewrite elem_of_difference, !elem_of_list_to_set, not_elem_of_singleton.
  unfold nx.uf_union. rewrite list_elem_of_fmap. split.
  - intros (l & -> & Hl). case_decide; [|done].
    split; [by apply uf_find_elem_of | done].
  - intros [Hx Hxv]. exists x. split; [|done]. by rewrite decide_False.
Qed.

(** Each edge kept takes one label away. *)
Lemma kruskal_count labels es :
  Forall (λ e, e.1 < length labels ∧ e.2 < length labels) es →
  length (nx.kruskal labels es) + size (list_to_set (kruskal_labels labels es) : gset nat)
  = size (list_to_set labels : gset nat).
Proof.
  revert labels. induction es as [|[u v] es IH]; intros labels Hes; simpl; [done|].
  apply Forall_cons in Hes as [[Hu Hv] Hes]. simpl in Hu, Hv.
  case_decide as Hne; [|by apply IH].
  simpl. rewrite IH by (by rewrite length_uf_union).
  rewrite uf_union_labels by done.
  rewrite size_difference by (apply singleton_subseteq_l, elem_of_list_to_set; by apply uf_find_elem_of).
  rewrite size_singleton.
  assert (size (list_to_set labels : gset nat) ≠ 0); [|lia].
  apply size_non_empty_iff, (non_empty_inhabited (nx.uf_find labels v)).
  apply elem_of_list_to_set. by apply uf_find_elem_of.
Qed.

(** *** The spanning tree of a graph *)

Lemma edges_range g :
  simple g →
  Forall (λ e, e.1 < nx.number_of_nodes g ∧ e.2 < nx.number_of_nodes g ∧ e.1 < e.2)
    (nx.edges g).
Proof.
  intros Hg. apply Forall_forall. intros [u v] Huv. apply elem_of_edges in Huv as [Huv Hle].
  destruct (simple_adjacent g u v Hg Huv) as (? & ? & ? & _). simpl. lia.
Qed.

Lemma edges_range_nodes g :
  simple g →
  Forall (λ e, e.1 < length (nx.nodes g) ∧ e.2 < length (nx.nodes g)) (nx.edges g).
Proof.
  intros Hg. unfold nx.nodes. rewrite length_seq.
  eapply Forall_impl; [by apply edges_range|]. simpl. intros e (? & ? & _). done.
Qed.

Lemma adjacent_linked_edges g u v :
  simple g → adjacent g u v ↔ linked (nx.edges g) u v.
Proof.
  intros Hg. unfold linked. rewrite !elem_of_edges. split.
  - intros Huv. destruct (simple_adjacent g u v Hg Huv) as (_ & _ & _ & Hvu).
    destruct (decide (u ≤ v)); [left | right]; (split; [done | lia]).
  - intros [[Huv _] | [Hvu _]]; [done|]. by apply (simple_adjacent g v u Hg Hvu).
Qed.

Lemma mst_edges_sublist g : sublist (nx.mst_edges g) (nx.edges g).
Proof. apply kruskal_sublist. Qed.

Lemma mst_edges_range g :
  simple g →
  Forall (λ e, e.1 < nx.number_of_nodes g ∧ e.2 < nx.number_of_nodes g ∧ e.1 < e.2)
    (nx.mst_edges g).
Proof.
  intros Hg. apply Forall_forall. intros e He.
  apply (proj1 (Forall_forall _ _) (edges_range g Hg)).
  eapply elem_of_sublist; [done | apply mst_edges_sublist].
Qed.

Lemma number_of_nodes_mst g :
  nx.number_of_nodes (nx.minimum_spanning_tree g) = nx.number_of_nodes g.
Proof.
  unfold nx.number_of_nodes at 1. simpl. by rewrite length_add_edges, length_replicate.
Qed.

Lemma adjacent_mst g u v :
  simple g → adjacent (nx.minimum_spanning_tree g) u v ↔ linked (nx.mst_edges g) u v.
Proof.
  intros Hg. unfold adjacent, nx.neighbors, nx.minimum_spanning_tree. simpl.
  fold (row (foldl nx.add_edge (replicate (nx.number_of_nodes g) []) (nx.mst_edges g)) u).
  rewrite elem_of_graph_of_edges. unfold linked. split; [tauto|]. intros H. split; [|done].
  pose proof (mst_edges_range g Hg) as Hr.
  destruct H as [H|H]; apply (proj1 (Forall_forall _ _) Hr) in H; simpl in H; lia.
Qed.

Lemma adjacent_mst_sub g u v :
  simple g → adjacent (nx.minimum_spanning_tree g) u v → adjacent g u v.
Proof.
  intros Hg Huv. apply adjacent_linked_edges; [done|].
  apply adjacent_mst in Huv; [|done].
  destruct Huv as [H|H]; [left | right]; (eapply elem_of_sublist; [done | apply mst_edges_sublist]).
Qed.

Lemma mst_simple g : simple g → simple (nx.minimum_spanning_tree g).
Proof.
  intros Hg. apply simple_intro.
  - intros u. apply NoDup_graph_of_edges.
  - intros u v Huv. rewrite number_of_nodes_mst.
    destruct (simple_adjacent g u v Hg (adjacent_mst_sub g u v Hg Huv)) as (_ & ? & ? & _).
    split; [done|]. split; [done|].
    apply adjacent_mst; [done|]. apply adjacent_mst in Huv; [|done].
    unfold linked in *. tauto.
Qed.

Lemma rtc_adjacent_lt g u v :
  rtc (adjacent g) u v → u < nx.number_of_nodes g → simple g → v < nx.number_of_nodes g.
Proof.
  intros Hrtc Hu Hg. induction Hrtc as [|x y z Hxy _ IH]; [done|].
  apply IH. by apply (simple_adjacent g x y Hg Hxy).
Qed.

(** In a connected graph all nodes have one label in the end. *)
Lemma mst_labels_equal g u v :
  simple g → connected g →
  u < nx.number_of_nodes g → v < nx.number_of_nodes g →
  nx.uf_find (kruskal_labels (nx.nodes g) (nx.edges g)) u
  = nx.uf_find (kruskal_labels (nx.nodes g) (nx.edges g)) v.
Proof.
  intros Hg [_ Hconn] Hu Hv. specialize (Hconn u v Hu Hv). clear Hv.
  induction Hconn as [|x y z Hxy Hyz IH]; [done|].
  destruct (simple_adjacent g x y Hg Hxy) as (_ & Hy & _ & _).
  rewrite <- (IH Hy).
  apply (adjacent_linked_edges g x y Hg) in Hxy as [H|H].
  - by apply kruskal_labels_edge; [apply edges_range_nodes|].
  - symmetry. by apply kruskal_labels_edge; [apply edges_range_nodes|].
Qed.

(** The spanning tree of a connected graph has one edge less than nodes. *)
Lemma mst_edges_count g :
  simple g → connected g → length (nx.mst_edges g) + 1 = nx.number_of_nodes g.
Proof.
  intros Hg Hconn.
  pose proof (kruskal_count (nx.nodes g) (nx.edges g) (edges_range_nodes g Hg)) as Hcount.
  fold (nx.mst_edges g) in Hcount.
  rewrite (size_list_to_set (nx.nodes g)) in Hcount by apply NoDup_seq.
  unfold nx.nodes in Hcount at 2. rewrite length_seq in Hcount.
  set (final := kruskal_labels (nx.nodes g) (nx.edges g)) in *.
  assert (length final = nx.number_of_nodes g) as Hlen.
  { unfold final. rewrite length_kruskal_labels. unfold nx.nodes. by rewrite length_seq. }
  assert ((list_to_set final : gset nat) = {[nx.uf_find final 0]}) as Hone.
  { apply set_eq. intros x. rewrite elem_of_list_to_set, elem_of_singleton. split.
    - intros (i & Hi)%list_elem_of_lookup_1.
      assert (i < nx.number_of_nodes g) by (rewrite <- Hlen; by eapply lookup_lt_Some).
      transitivity (nx.uf_find final i); [unfold nx.uf_find; by rewrite Hi|].
      apply mst_labels_equal; [done | done | done | apply Hconn].
    - intros ->. apply uf_find_elem_of. rewrite Hlen. apply Hconn. }
  rewrite Hone, size_singleton in Hcount. lia.
Qed.

(** The spanning tree of a connected graph is connected. *)
Lemma mst_connected g :
  simple g → connected g → connected (nx.minimum_spanning_tree g).
Proof.
  intros Hg Hconn. split; [rewrite number_of_nodes_mst; apply Hconn|].
  rewrite number_of_nodes_mst. intros u v Hu Hv.
  set (t := nx.minimum_spanning_tree g).
  assert (∀ i j, rtc (adjacent t) i j → rtc (adjacent t) j i) as Hsym.
  { intros i j Hij. induction Hij as [|x y z Hxy _ IH]; [done|].
    eapply rtc_r; [done|]. by apply (simple_adjacent t x y (mst_simple g Hg)). }
  apply (kruskal_labels_related (λ i j, rtc (adjacent t) i j) (nx.nodes g) (nx.edges g)).
  - done.
  - intros i j k Hij Hjk. by etrans.
  - by apply edges_range_nodes.
  - intros u' v' Huv'. apply rtc_once. apply adjacent_mst; [done|]. by left.
  - unfold nx.nodes. rewrite length_seq. intros i j Hi Hj. unfold nx.uf_find.
    rewrite !lookup_seq_lt by done. simpl. by intros ->.
  - unfold nx.nodes. by rewrite length_seq.
  - unfold nx.nodes. by rewrite length_seq.
  - by apply mst_labels_equal.
Qed.

Lemma NoDup_mst_edges g : simple g → NoDup (nx.mst_edges g).
Proof.
  intros Hg. eapply sublist_NoDup; [|apply mst_edges_sublist].
  apply NoDup_edges. intros u. by apply simple_NoDup.
Qed.

Lemma edges_mst g :
  simple g → nx.edges (nx.minimum_spanning_tree g) ≡ₚ nx.mst_edges g.
Proof.
  intros Hg. apply NoDup_Permutation.
  - apply NoDup_edges. intros u. by apply simple_NoDup, mst_simple.
  - by apply NoDup_mst_edges.
  - intros [u v]. rewrite elem_of_edges. fold (adjacent (nx.minimum_spanning_tree g) u v).
    rewrite adjacent_mst by done. unfold linked.
    pose proof (mst_edges_range g Hg) as Hr. split.
    + intros [[H|H] Hle]; [done|].
      apply (proj1 (Forall_forall _ _) Hr) in H. simpl in H. lia.
    + intros H. split; [by left|].
      apply (proj1 (Forall_forall _ _) Hr) in H. simpl in H. lia.
Qed.

Lemma number_of_edges_mst g :
  simple g → connected g →
  nx.number_of_edges (nx.minimum_spanning_tree g) + 1 = nx.number_of_nodes g.
Proof.
  intros Hg Hconn. unfold nx.number_of_edges. rewrite (edges_mst g Hg).
  by apply mst_edges_count.
Qed.

(** ** The spanning-tree step on a graph that is not connected *)






(** ** The co-tree edges *)

Section eliminated.
Context (g t : nx.Graph).
Context (Hg : simple g) (Ht : simple t).
Context (Hn : nx.number_of_nodes t = nx.number_of_nodes g).

Local Abbreviation body := (Eliminated_Edges_entry (nx.to_numpy_array g) (nx.to_numpy_array t)).

Lemma cotree_sym i j : cotree g t i j → cotree g t j i.
Proof.
  intros [Hij Hnij]. split; [by apply (simple_adjacent g i j Hg Hij)|].
  intros Hji. apply Hnij. by apply (simple_adjacent t j i Ht Hji).
Qed.

Lemma cotree_range i j :
  cotree g t i j → i < nx.number_of_nodes g ∧ j < nx.number_of_nodes g ∧ i ≠ j.
Proof. intros [Hij _]. destruct (simple_adjacent g i j Hg Hij) as (? & ? & ? & _). done. Qed.

Lemma eliminated_body i j l :
  i < nx.number_of_nodes g → j < nx.number_of_nodes g →
  eliminated_before g t i j l →
  ∃ l', body i l j = Ok l' ∧ eliminated_before g t i (S j) l'.
Proof.
  intros Hi Hj [Hnd Hl]. unfold Eliminated_Edges_entry.
  rewrite to_numpy_array_getitem2 by done. cbn [bind].
  assert (∀ l', l' = l → ¬ cotree g t i j ∨ j < i → eliminated_before g t i (S j) l') as Hsame.
  { intros l' -> Hno. split; [done|]. intros a b. rewrite Hl. split.
    - intros (? & ? & ?). split; [done|]. split; [done|]. lia.
    - intros (Hc & Hab & Hlt). split; [done|]. split; [done|].
      destruct Hlt as [?|[-> Hb]]; [by left|].
      destruct (decide (b = j)) as [->|]; [|right; lia].
      destruct Hno; [done | lia]. }
  destruct (bool_decide (j ∈ nx.neighbors g i)) eqn:Ha.
  - apply bool_decide_eq_true in Ha. rewrite bool_decide_eq_true_2 by done.
    rewrite to_numpy_array_getitem2 by (by rewrite Hn). cbn [bind].
    destruct (bool_decide (j ∈ nx.neighbors t i)) eqn:Hm.
    + apply bool_decide_eq_true in Hm. rewrite bool_decide_eq_false_2 by done.
      eexists. split; [done|]. apply Hsame; [done|]. left. by intros [_ Hnt].
    + apply bool_decide_eq_false in Hm. rewrite bool_decide_eq_true_2 by done.
      assert (cotree g t i j) as Hc by done.
      case_bool_decide as Hji.
      * eexists. split; [done|]. apply Hsame; [done|]. right.
        apply Hl in Hji. lia.
      * eexists. split; [done|].
        assert (i < j) as Hlt.
        { destruct (cotree_range i j Hc) as (_ & _ & Hne).
          destruct (decide (i < j)); [done|]. exfalso. apply Hji, Hl.
          split; [by apply cotree_sym|]. split; lia. }
        split.
        -- apply NoDup_app. split; [done|]. split; [|apply NoDup_singleton].
           intros [a b] Hab [= -> ->]%list_elem_of_singleton. apply Hl in Hab. lia.
        -- intros a b. rewrite elem_of_app, list_elem_of_singleton, Hl. split.
           ++ intros [(? & ? & ?) | [= -> ->]]; (split; [done|]); (split; [done|]); lia.
           ++ intros (? & ? & Hlt').
              destruct (decide (a = i ∧ b = j)) as [[-> ->]|]; [by right|].
              left. split; [done|]. split; [done|]. lia.
  - apply bool_decide_eq_false in Ha. rewrite bool_decide_eq_false_2 by done.
    eexists. split; [done|]. apply Hsame; [done|]. left. by intros [Hadj _].
Qed.

Lemma eliminated_row i l j k :
  i < nx.number_of_nodes g → j + k = nx.number_of_nodes g →
  eliminated_before g t i j l →
  ∃ l', foldM (body i) (seq j k) l = Ok l' ∧
        eliminated_before g t i (nx.number_of_nodes g) l'.
Proof.
  intros Hi. revert j l. induction k as [|k IH]; intros j l Hjk Hl; simpl.
  - exists l. split; [done|]. by replace (nx.number_of_nodes g) with j by lia.
  - destruct (eliminated_body i j l) as (l1 & -> & Hl1); [done | lia | done|].
    cbn [bind]. apply IH; [lia | done].
Qed.

Lemma eliminated_rows l i k :
  i + k = nx.number_of_nodes g →
  eliminated_before g t i 0 l →
  ∃ l', foldM (λ l i, foldM (body i) (seq 0 (nx.number_of_nodes g)) l) (seq i k) l = Ok l' ∧
        eliminated_before g t (nx.number_of_nodes g) 0 l'.
Proof.
  revert i l. induction k as [|k IH]; intros i l Hik Hl; simpl.
  - exists l. split; [done|]. by replace (nx.number_of_nodes g) with i by lia.
  - destruct (eliminated_row i l 0 (nx.number_of_nodes g)) as (l1 & -> & [Hnd Hl1]);
      [lia | done | done|].
    cbn [bind]. apply IH; [lia|]. split; [done|]. intros a b. rewrite Hl1. split.
    + intros (Hc & Hab & Hlt). split; [done|]. split; [done|]. lia.
    + intros (Hc & Hab & Hlt). split; [done|]. split; [done|].
      destruct (cotree_range a b Hc) as (_ & ? & _).
      destruct (decide (a = i)); [right | left]; lia.
Qed.

(** [Eliminated_Edges] on the matrices of [g] and [t] returns each co-tree
    edge once, its smaller node first. *)
Lemma Eliminated_Edges_cotree :
  ∃ eled, Eliminated_Edges (nx.to_numpy_array g) (nx.to_numpy_array t) = Ok eled ∧
    NoDup eled ∧ ∀ a b, (a, b) ∈ eled ↔ cotree g t a b ∧ a < b.
Proof.
  unfold Eliminated_Edges.
  replace (length (nx.to_numpy_array g)) with (nx.number_of_nodes g)
    by (symmetry; apply to_numpy_array_square).
  destruct (eliminated_rows [] 0 (nx.number_of_nodes g)) as (eled & Heled & Hnd & Hl).
  - done.
  - split; [constructor|]. intros a b. rewrite elem_of_nil. split; [done|]. lia.
  - exists eled. split; [exact Heled|]. split; [done|]. intros a b. rewrite Hl.
    split; [tauto|]. intros [Hc Hab]. split; [done|]. split; [done|].
    left. apply (cotree_range a b Hc).
Qed.

(** There are as many co-tree edges as [g] has edges more than [t]. *)
Lemma Eliminated_Edges_count eled :
  (∀ u v, adjacent t u v → adjacent g u v) →
  Eliminated_Edges (nx.to_numpy_array g) (nx.to_numpy_array t) = Ok eled →
  length eled + nx.number_of_edges t = nx.number_of_edges g.
Proof.
  intros Hsub Heled. destruct Eliminated_Edges_cotree as (eled' & Heled' & Hnd & Hl).
  rewrite Heled in Heled'. injection Heled' as <-.
  assert (NoDup (nx.edges g)) as Hndg by (apply NoDup_edges; intros u; by apply simple_NoDup).
  unfold nx.number_of_edges.
  rewrite <- (filter_app_complement (λ e, adjacent t e.1 e.2) (nx.edges g)).
  rewrite length_app.
  assert (filter (λ e, adjacent t e.1 e.2) (nx.edges g) ≡ₚ nx.edges t) as ->.
  { apply NoDup_Permutation; [by apply NoDup_filter | |].
    - apply NoDup_edges. intros u. by apply simple_NoDup.
    - intros [u v]. rewrite list_elem_of_filter, !elem_of_edges. simpl.
      unfold adjacent in *. naive_solver. }
  assert (filter (λ e, ¬ adjacent t e.1 e.2) (nx.edges g) ≡ₚ eled) as ->; [|lia].
  apply NoDup_Permutation; [by apply NoDup_filter | done |].
  intros [u v]. rewrite list_elem_of_filter, elem_of_edges, Hl. simpl.
  unfold cotree. fold (adjacent g u v). split.
  - intros (Hnt & Hadj & Hle). split; [done|].
    destruct (simple_adjacent g u v Hg Hadj) as (_ & _ & ? & _). lia.
  - intros ([Hadj Hnt] & Hlt). split; [done|]. split; [done | lia].
Qed.

End eliminated.

(** ** The cycle search *)

Lemma suffix_same_head (l k : list nat) :
  NoDup k → l `suffix_of` k → head l = head k → l ≠ [] → l = k.
Proof.
  intros Hnd [pre ->] Hhead Hne. destruct pre as [|x pre]; [done|]. exfalso.
  destruct l as [|y l]; [done|]. simpl in Hhead. injection Hhead as ->.
  apply NoDup_cons in Hnd as [Hx _]. apply Hx. apply elem_of_app. right. by left.
Qed.

Lemma suffix_cons_ne (l : list nat) x k :
  l `suffix_of` x :: k → head l ≠ Some x → NoDup (x :: k) → l `suffix_of` k.
Proof.
  intros [pre Hpre] Hne Hnd. destruct pre as [|y pre].
  - simpl in Hpre. subst l. done.
  - injection Hpre as -> ->. by exists pre.
Qed.

(** The inner loop of [find_cycle] pops the path down to the node the
    traversal is at. *)
Lemma backtrack_stack s stack cur path :
  head stack = Some cur →
  stack `suffix_of` nodes_of s path →
  NoDup (nodes_of s path) →
  snd <$> head path ≠ Some cur → path ≠ [] →
  ∃ path', nx.backtrack path (list_to_set (nodes_of s path)) cur
           = Ok (path', list_to_set stack) ∧
    nodes_of s path' = stack ∧ path' `suffix_of` path.
Proof.
  intros Hcur. induction path as [|popped rest IH]; intros Hsuf Hnd Hprev Hne; [done|].
  clear Hne. simpl in Hprev. cbn [nx.backtrack].
  unfold nodes_of in Hsuf, Hnd. rewrite fmap_cons in Hsuf, Hnd. simpl in Hsuf, Hnd.
  fold (nodes_of s rest) in Hsuf, Hnd.
  assert (stack `suffix_of` nodes_of s rest) as Hsuf'.
  { eapply suffix_cons_ne; [done | | done]. rewrite Hcur. congruence. }
  pose proof (NoDup_cons_1_2 _ _ Hnd) as Hnd'.
  assert ((list_to_set (nodes_of s (popped :: rest)) : gset nat) ∖ {[popped.2]}
          = list_to_set (nodes_of s rest)) as Hactive.
  { unfold nodes_of at 1. rewrite fmap_cons. simpl. fold (nodes_of s rest).
    apply NoDup_cons_1_1 in Hnd. apply set_eq. intros x.
    rewrite elem_of_difference, elem_of_union, elem_of_singleton, elem_of_list_to_set.
    split; [tauto|]. intros Hx. split; [by right|]. by intros ->. }
  rewrite bool_decide_eq_true_2
    by (unfold nodes_of; rewrite fmap_cons; simpl; set_solver).
  rewrite Hactive.
  destruct rest as [|last rest'].
  - cbn [nx.backtrack]. exists []. unfold nodes_of in Hsuf'. simpl in Hsuf'.
    assert (stack = [s]) as ->.
    { apply (suffix_same_head stack [s]); [apply NoDup_singleton | done | | by destruct stack].
      destruct Hsuf' as [k Hs]. destruct k as [|? k]; simpl in Hs; [by subst|].
      injection Hs as -> Hs. symmetry in Hs. apply app_nil in Hs as [_ ->]. done. }
    simpl in Hcur. injection Hcur as <-.
    split; [|split; [done | by exists [popped]]].
    do 2 f_equal. set_solver.
  - destruct (decide (cur = last.2)) as [->|Hlast].
    + rewrite bool_decide_eq_true_2 by done.
      exists (last :: rest'). split; [|split; [|by exists [popped]]].
      * do 2 f_equal. f_equal. symmetry.
        apply suffix_same_head; [done | done | by rewrite Hcur | by destruct stack].
      * symmetry. apply suffix_same_head; [done | done | by rewrite Hcur | by destruct stack].
    + rewrite bool_decide_eq_false_2 by done.
      destruct IH as (path' & Hbt & Hnodes & Hsuffix); [done | done | simpl; congruence | done|].
      exists path'. split; [done|]. split; [done|].
      destruct Hsuffix as [pre ->]. by exists (popped :: pre).
Qed.

Lemma sum_list_with_ext_in (f f' : nat → nat) (l : list nat) :
  (∀ y, y ∈ l → f' y = f y) → sum_list_with f' l = sum_list_with f l.
Proof.
  induction l as [|y l IH]; intros Hf; simpl; [done|].
  rewrite Hf by (by left). rewrite IH; [done|]. intros z Hz. apply Hf. by right.
Qed.

Lemma sum_list_with_update (f f' : nat → nat) (l : list nat) x :
  NoDup l → x ∈ l → (∀ y, y ≠ x → f' y = f y) →
  sum_list_with f' l + f x = sum_list_with f l + f' x.
Proof.
  induction l as [|y l IH]; intros Hnd Hx Hf; [by apply elem_of_nil in Hx|].
  apply NoDup_cons in Hnd as [Hy Hnd]. simpl.
  destruct (decide (x = y)) as [->|Hne].
  - rewrite (sum_list_with_ext_in f f' l); [lia|].
    intros z Hz. apply Hf. by intros ->.
  - apply elem_of_cons in Hx as [?|Hx]; [done|].
    rewrite (Hf y) by done. specialize (IH Hnd Hx Hf). lia.
Qed.

Lemma remaining_visit g iters cur w :
  iters !! cur = None →
  remaining g (<[cur := nx.neighbors g cur]> iters) w = remaining g iters w.
Proof.
  intros Hcur. unfold remaining. destruct (decide (cur = w)) as [<-|Hne].
  - by rewrite lookup_insert_eq, Hcur.
  - by rewrite lookup_insert_ne.
Qed.

Lemma dfs_measure_visit g iters cur stack :
  iters !! cur = None →
  dfs_measure g (<[cur := nx.neighbors g cur]> iters) stack = dfs_measure g iters stack.
Proof.
  intros Hcur. unfold dfs_measure. f_equal. f_equal.
  apply sum_list_with_ext_in. intros w _. by apply remaining_visit.
Qed.

Lemma dfs_measure_next g iters cur nbr rest stack :
  cur < nx.number_of_nodes g →
  iters !! cur = Some (nbr :: rest) →
  dfs_measure g (<[cur := rest]> iters) stack + 2 = dfs_measure g iters stack.
Proof.
  intros Hlt Hcur. unfold dfs_measure.
  assert (remaining g iters cur = S (length rest)) as Hold
    by (unfold remaining; by rewrite Hcur).
  assert (remaining g (<[cur := rest]> iters) cur = length rest) as Hnew
    by (unfold remaining; by rewrite lookup_insert_eq).
  pose proof (sum_list_with_update (remaining g iters) (remaining g (<[cur := rest]> iters))
                (nx.nodes g) cur) as Hsum.
  rewrite Hold, Hnew in Hsum.
  enough (sum_list_with (remaining g (<[cur:=rest]> iters)) (nx.nodes g) + 1
          = sum_list_with (remaining g iters) (nx.nodes g)) by lia.
  enough (sum_list_with (remaining g (<[cur:=rest]> iters)) (nx.nodes g) + S (length rest)
          = sum_list_with (remaining g iters) (nx.nodes g) + length rest) by lia.
  apply Hsum.
  - apply NoDup_seq.
  - apply elem_of_seq. lia.
  - intros y Hy. unfold remaining. by rewrite lookup_insert_ne.
Qed.

Section dfs.
Context (g : nx.Graph) (s : nat).
Context (Hg : simple g).

Lemma dfs_inv_visit cur stack iters ve path seen active prev :
  dfs_inv g s (cur :: stack) iters ve path seen active prev →
  iters !! cur = None →
  dfs_inv g s (cur :: stack) (<[cur := nx.neighbors g cur]> iters) ve path seen active prev.
Proof.
  intros [] Hcur. split; try done.
  - intros w Hw. rewrite lookup_insert_is_Some. destruct (inv_visited0 w Hw); [|by right].
    left. destruct (decide (cur = w)); [by left | by right].
  - intros w l. rewrite lookup_insert_Some. intros [[<- <-] | [_ Hw]]; [|by apply inv_iters0].
    exists []. split; [done|]. by intros x ?%elem_of_nil.
  - intros w l. rewrite lookup_insert_Some. intros [[<- <-] | [_ Hw]]; [|by apply inv_popped0].
    intros Hn. exfalso. apply Hn. by left.
Qed.

Lemma dfs_inv_pop cur stack iters ve path seen active prev :
  dfs_inv g s (cur :: stack) iters ve path seen active prev →
  iters !! cur = Some [] →
  dfs_inv g s stack iters ve path seen active prev.
Proof.
  intros [] Hcur. split; try done.
  - etrans; [|done]. by apply suffix_cons_r.
  - intros w Hw. destruct (inv_visited0 w Hw) as [?|Hhead]; [by left|].
    injection Hhead as <-. left. by rewrite Hcur.
  - intros w l Hw Hstack. destruct (decide (w = cur)) as [->|Hne]; [congruence|].
    apply (inv_popped0 w l Hw). rewrite not_elem_of_cons. done.
Qed.

Lemma dfs_inv_skip cur stack iters ve path seen active prev nbr rest :
  dfs_inv g s (cur :: stack) iters ve path seen active prev →
  iters !! cur = Some (nbr :: rest) → nx.edge_id cur nbr ∈ ve →
  dfs_inv g s (cur :: stack) (<[cur := rest]> iters) ve path seen active prev.
Proof.
  intros [] Hcur Hid. split; try done.
  - intros w Hw. rewrite lookup_insert_is_Some. destruct (inv_visited0 w Hw); [|by right].
    left. destruct (decide (cur = w)); [by left | by right].
  - intros w l. rewrite lookup_insert_Some. intros [[<- <-] | [_ Hw]]; [|by apply inv_iters0].
    destruct (inv_iters0 cur _ Hcur) as (consumed & Hnbrs & Hcons).
    exists (consumed ++ [nbr]). split; [by rewrite <- app_assoc|].
    intros x [? | ->%list_elem_of_singleton]%elem_of_app; [by apply Hcons | done].
  - intros w l. rewrite lookup_insert_Some. intros [[<- <-] | [_ Hw]]; [|by apply inv_popped0].
    intros Hn. exfalso. apply Hn. by left.
Qed.

(** The path of [find_cycle] is brought to the stack of [edge_dfs]. *)
Lemma dfs_sync cur stack iters ve path seen active prev :
  dfs_inv g s (cur :: stack) iters ve path seen active prev →
  ∃ path',
    (if bool_decide (prev ≠ None ∧ prev ≠ Some cur)
     then nx.backtrack path active cur else Ok (path, active))
    = Ok (path', list_to_set (cur :: stack)) ∧
    nodes_of s path' = cur :: stack ∧ path' `suffix_of` path.
Proof.
  intros []. subst prev active. destruct path as [|e rest].
  - rewrite bool_decide_eq_false_2 by (intros [? _]; done).
    exists []. assert (cur :: stack = [s]) as Hstack.
    { destruct inv_suffix0 as [k Hk]. unfold nodes_of in Hk. simpl in Hk.
      destruct k as [|? k]; simpl in Hk; [done|]. injection Hk as _ Hk.
      symmetry in Hk. by apply app_nil in Hk as [_ ?]. }
    rewrite Hstack. done.
  - destruct (decide (e.2 = cur)) as [He|He].
    + rewrite bool_decide_eq_false_2 by (intros [_ H]; simpl in H; congruence).
      exists (e :: rest).
      assert (cur :: stack = nodes_of s (e :: rest)) as <-; [|done].
      apply suffix_same_head; [done | done | by rewrite <- He | done].
    + rewrite bool_decide_eq_true_2 by (split; simpl; congruence).
      apply backtrack_stack; [done | done | done | simpl; congruence | done].
Qed.

Lemma dfs_inv_fresh cur stack iters ve path seen active prev nbr rest :
  dfs_inv g s (cur :: stack) iters ve path seen active prev →
  iters !! cur = Some (nbr :: rest) → nx.edge_id cur nbr ∉ ve →
  nbr ∉ cur :: stack → nbr ∉ seen.
Proof.
  intros [] Hcur Hid Hstack Hseen.
  destruct (inv_visited0 nbr Hseen) as [[l Hl]|Hhead].
  - pose proof (inv_popped0 nbr l Hl Hstack) as ->.
    destruct (inv_iters0 nbr [] Hl) as (consumed & Hnbrs & Hcons).
    rewrite app_nil_r in Hnbrs. subst consumed.
    destruct (inv_iters0 cur _ Hcur) as (consumed & Hnbrs & _).
    assert (adjacent g cur nbr) as Hadj.
    { unfold adjacent. rewrite Hnbrs. apply elem_of_app. right. by left. }
    apply Hid. rewrite edge_id_sym. apply Hcons.
    by apply (simple_adjacent g cur nbr Hg Hadj).
  - injection Hhead as ->. apply Hstack. by left.
Qed.

Lemma dfs_inv_push cur stack iters ve path seen active prev nbr rest path' :
  dfs_inv g s (cur :: stack) iters ve path seen active prev →
  iters !! cur = Some (nbr :: rest) → nx.edge_id cur nbr ∉ ve →
  nodes_of s path' = cur :: stack → path' `suffix_of` path →
  nbr ∉ cur :: stack →
  dfs_inv g s (nbr :: cur :: stack) (<[cur := rest]> iters) ({[nx.edge_id cur nbr]} ∪ ve)
    ((cur, nbr) :: path') ({[nbr]} ∪ seen) ({[nbr]} ∪ list_to_set (cur :: stack)) (Some nbr).
Proof.
  intros Hinv Hcur Hid Hnodes Hsuffix Hstack.
  pose proof (dfs_inv_fresh _ _ _ _ _ _ _ _ _ _ Hinv Hcur Hid Hstack) as Hfresh.
  destruct Hinv.
  destruct (inv_iters0 cur _ Hcur) as (consumed & Hnbrs & Hcons).
  assert (adjacent g cur nbr) as Hadj.
  { unfold adjacent. rewrite Hnbrs. apply elem_of_app. right. by left. }
  assert (cur ∈ seen) as Hcurseen.
  { apply inv_seen_active0. subst active. apply elem_of_list_to_set.
    destruct inv_suffix0 as [k ->]. apply elem_of_app. right. by left. }
  assert (∀ e, e ∈ path' → e ∈ path) as Hsub.
  { intros e He. destruct Hsuffix as [k ->]. apply elem_of_app. by right. }
  split.
  - unfold nodes_of. rewrite fmap_cons. simpl. fold (nodes_of s path'). by rewrite Hnodes.
  - unfold nodes_of. rewrite fmap_cons. simpl. fold (nodes_of s path'). rewrite Hnodes.
    apply NoDup_cons. split; [done|]. rewrite <- Hnodes.
    destruct Hsuffix as [k ->]. unfold nodes_of in inv_nodup0.
    rewrite fmap_app, <- app_assoc in inv_nodup0. by apply NoDup_app in inv_nodup0 as (_ & _ & ?).
  - unfold nodes_of. rewrite fmap_cons. simpl. fold (nodes_of s path'). by rewrite Hnodes.
  - done.
  - apply union_mono_l. intros w Hw. apply inv_seen_active0. subst active.
    apply elem_of_list_to_set in Hw. apply elem_of_list_to_set.
    destruct inv_suffix0 as [k ->]. apply elem_of_app. by right.
  - rewrite !size_union by set_solver. rewrite !size_singleton. lia.
  - intros w [->%elem_of_singleton | Hw]%elem_of_union; [|by apply inv_seen_range0].
    by apply (simple_adjacent g cur nbr Hg Hadj).
  - intros w [->%elem_of_singleton | Hw]%elem_of_union; [by right|]. left.
    rewrite lookup_insert_is_Some. destruct (decide (cur = w)); [by left | right].
    split; [done|]. destruct (inv_visited0 w Hw) as [?|Hhead]; [done|].
    injection Hhead as ->. done.
  - intros w l. rewrite lookup_insert_Some. intros [[<- <-] | [_ Hw]].
    + exists (consumed ++ [nbr]). split; [by rewrite <- app_assoc|].
      intros x [? | ->%list_elem_of_singleton]%elem_of_app; [|set_solver].
      apply elem_of_union. right. by apply Hcons.
    + destruct (inv_iters0 w l Hw) as (consumed' & ? & Hcons'). exists consumed'.
      split; [done|]. intros x Hx. apply elem_of_union. right. by apply Hcons'.
  - intros w l. rewrite lookup_insert_Some. intros [[<- <-] | [_ Hw]].
    + intros Hn. exfalso. apply Hn. right. by left.
    + intros Hnot. apply (inv_popped0 w l Hw). intros Hin. apply Hnot. by right.
  - intros e [->|He]%elem_of_cons; simpl; [split; [set_solver | done]|].
    destruct (inv_path0 e (Hsub e He)). split; [set_solver | done].
  - unfold edge_ids. rewrite fmap_cons. simpl. apply NoDup_cons. split.
    + intros (e & Heq & He)%list_elem_of_fmap. apply Hid. rewrite Heq.
      by apply (inv_path0 e (Hsub e He)).
    + destruct Hsuffix as [k ->]. unfold edge_ids in inv_path_ids0.
      rewrite fmap_app in inv_path_ids0. by apply NoDup_app in inv_path_ids0 as (_ & _ & ?).
  - intros id [->%elem_of_singleton | Hin]%elem_of_union.
    + exists cur, nbr. set_solver.
    + destruct (inv_edges0 id Hin) as (u & v & ? & ? & ?). exists u, v. set_solver.
Qed.

Lemma dfs_inv_top cur stack iters ve path seen active prev :
  dfs_inv g s (cur :: stack) iters ve path seen active prev →
  cur < nx.number_of_nodes g.
Proof.
  intros []. apply inv_seen_range0, inv_seen_active0. subst active.
  apply elem_of_list_to_set. destruct inv_suffix0 as [k ->].
  apply elem_of_app. right. by left.
Qed.

Lemma dfs_done iters ve path seen active prev :
  dfs_inv g s [] iters ve path seen active prev → dfs_post g s (inr seen).
Proof.
  intros []. split.
  - apply inv_seen_active0. subst active. apply elem_of_list_to_set.
    unfold nodes_of. apply elem_of_app. right. by left.
  - exists ve. split; [done|]. split; [done|]. intros w x Hw Hx.
    destruct (inv_visited0 w Hw) as [[l Hl]|?]; [|done].
    assert (l = []) as -> by (apply (inv_popped0 w l Hl); by intros ?%elem_of_nil).
    destruct (inv_iters0 w [] Hl) as (consumed & Hnbrs & Hcons).
    rewrite app_nil_r in Hnbrs. rewrite Hnbrs in Hx.
    split; [|by apply Hcons].
    destruct (inv_edges0 _ (Hcons x Hx)) as (u & v & Hid & Hu & Hv).
    apply edge_id_eq in Hid as [[_ ->] | [_ ->]]; done.
Qed.

Lemma edge_dfs_loop_unfold fuel cur stack iters ve :
  nx.edge_dfs_loop (S fuel) g (cur :: stack) iters ve =
  let iters1 :=
    match iters !! cur with
    | Some _ => iters
    | None => <[cur := nx.neighbors g cur]> iters
    end in
  match iters1 !! cur with
  | Some (nbr :: rest) =>
      if bool_decide (nx.edge_id cur nbr ∈ ve)
      then nx.edge_dfs_loop fuel g (cur :: stack) (<[cur := rest]> iters1) ve
      else nx.SCons (cur, nbr)
             (nx.edge_dfs_loop fuel g (nbr :: cur :: stack) (<[cur := rest]> iters1)
                ({[nx.edge_id cur nbr]} ∪ ve))
  | _ => nx.edge_dfs_loop fuel g stack iters1 ve
  end.
Proof. reflexivity. Qed.

(** The search from [s] ends, with enough fuel, and ends well. *)
Lemma dfs_run fuel stack iters ve path seen active prev :
  dfs_inv g s stack iters ve path seen active prev →
  dfs_measure g iters stack ≤ fuel →
  ∃ r, nx.consume (nx.edge_dfs_loop fuel g stack iters ve) ∅ path seen active prev = Ok r ∧
       dfs_post g s r.
Proof.
  revert stack iters ve path seen active prev.
  induction fuel as [|fuel IH]; intros stack iters ve path seen active prev Hinv Hfuel;
    destruct stack as [|cur stack].
  - exists (inr seen). split; [done|]. by eapply dfs_done.
  - unfold dfs_measure in Hfuel. simpl in Hfuel. lia.
  - exists (inr seen). split; [done|]. by eapply dfs_done.
  - rewrite edge_dfs_loop_unfold.
    set (iters1 := match iters !! cur with
                   | Some _ => iters
                   | None => <[cur := nx.neighbors g cur]> iters
                   end).
    assert (dfs_inv g s (cur :: stack) iters1 ve path seen active prev ∧
            dfs_measure g iters1 (cur :: stack) = dfs_measure g iters (cur :: stack) ∧
            is_Some (iters1 !! cur)) as (Hinv1 & Hmeasure & [l Hl]).
    { subst iters1. destruct (iters !! cur) eqn:Hcur.
      - split; [done|]. split; [done|]. by rewrite Hcur.
      - split; [by apply dfs_inv_visit|]. split; [by apply dfs_measure_visit|].
        by rewrite lookup_insert_eq. }
    clearbody iters1. rewrite <- Hmeasure in Hfuel. clear Hinv Hmeasure.
    pose proof (dfs_inv_top _ _ _ _ _ _ _ _ Hinv1) as Hcurlt.
    cbv zeta. rewrite Hl. destruct l as [|nbr rest].
    + apply IH; [by eapply dfs_inv_pop|].
      unfold dfs_measure in *. simpl in Hfuel. lia.
    + pose proof (dfs_measure_next g iters1 cur nbr rest (cur :: stack) Hcurlt Hl) as Hnext.
      case_bool_decide as Hid.
      * apply IH; [by eapply dfs_inv_skip|]. lia.
      * cbn [nx.consume]. rewrite bool_decide_eq_false_2 by set_solver.
        destruct (dfs_sync _ _ _ _ _ _ _ _ Hinv1) as (path' & -> & Hnodes & Hsuffix).
        cbn [bind].
        case_bool_decide as Hactive.
        -- eexists. split; [done|]. simpl.
           assert (∀ e, e ∈ path' → e ∈ path) as Hsub.
           { intros e He. destruct Hsuffix as [k ->]. apply elem_of_app. by right. }
           destruct Hinv1.
           destruct (inv_iters0 cur _ Hl) as (consumed & Hnbrs & _).
           split; [|split].
           ++ intros Hnil%(f_equal length). rewrite length_reverse in Hnil. done.
           ++ intros e. rewrite elem_of_reverse.
              intros [->|He]%elem_of_cons; [|by apply inv_path0, Hsub].
              simpl. unfold adjacent. rewrite Hnbrs. apply elem_of_app. right. by left.
           ++ unfold edge_ids. rewrite fmap_reverse, reverse_Permutation.
              rewrite fmap_cons. simpl. apply NoDup_cons. split.
              ** intros (e & Heq & He)%list_elem_of_fmap. apply Hid. rewrite Heq.
                 by apply (inv_path0 e (Hsub e He)).
              ** destruct Hsuffix as [k ->]. unfold edge_ids in inv_path_ids0.
                 rewrite fmap_app in inv_path_ids0.
                 by apply NoDup_app in inv_path_ids0 as (_ & _ & ?).
        -- apply IH.
           ++ eapply dfs_inv_push; try done. by rewrite elem_of_list_to_set in Hactive.
           ++ unfold dfs_measure in *. simpl in *. lia.
Qed.

End dfs.

Lemma trim_suffix final cycle : nx.trim final cycle `suffix_of` cycle.
Proof.
  induction cycle as [|e [|e' cycle] IH]; simpl; [done | done |].
  case_bool_decide; [done|]. by apply suffix_cons_r.
Qed.

Lemma trim_nonempty final cycle : cycle ≠ [] → nx.trim final cycle ≠ [].
Proof.
  induction cycle as [|e [|e' cycle] IH]; simpl; [done | done |].
  intros _. case_bool_decide; [done|]. by apply IH.
Qed.

Lemma sum_degrees (a : list (list nat)) :
  sum_list_with (λ w, length (row a w)) (seq 0 (length a)) = length (mjoin a).
Proof.
  induction a as [|nbrs a IH] using rev_ind; [done|].
  rewrite length_app. simpl. rewrite Nat.add_1_r, seq_S, sum_list_with_app. simpl.
  rewrite join_app, length_app. simpl. rewrite app_nil_r, Nat.add_0_r.
  unfold row at 2. rewrite lookup_app_r, Nat.sub_diag by done. simpl.
  rewrite <- IH. f_equal. apply sum_list_with_ext_in. intros w Hw%elem_of_seq.
  unfold row. rewrite lookup_app_l by lia. done.
Qed.

Section find_cycle.
Context (g : nx.Graph).
Context (Hg : simple g) (Hconn : connected g).
Context (Hedges : nx.number_of_nodes g ≤ nx.number_of_edges g).

Lemma dfs_inv_start :
  dfs_inv g 0 [0] ∅ ∅ [] {[0]} {[0]} None.
Proof.
  split; try done.
  - apply NoDup_singleton.
  - intros w ->%elem_of_singleton. apply Hconn.
  - intros w ->%elem_of_singleton. by right.
  - intros e He. by apply elem_of_nil in He.
  - constructor.
Qed.

Lemma dfs_measure_start : dfs_measure g ∅ [0] = nx.dfs_fuel g.
Proof.
  unfold dfs_measure, nx.dfs_fuel.
  assert (sum_list_with (remaining g ∅) (nx.nodes g) = length (mjoin (nx.adj g))) as ->;
    [|simpl; lia].
  rewrite <- sum_degrees. unfold nx.nodes, nx.number_of_nodes.
  apply sum_list_with_ext_in. intros w _. unfold remaining. by rewrite lookup_empty.
Qed.

(** The search cannot end without a cycle: it would have seen all nodes
    and all edges, one edge less than nodes. *)
Lemma dfs_no_forest seen : ¬ dfs_post g 0 (inr seen).
Proof.
  intros (Hstart & ve & Hsize & Hrange & Hclosed).
  assert (∀ x y, rtc (adjacent g) x y → x ∈ seen → y ∈ seen) as Hreach.
  { intros x y Hxy. induction Hxy as [|x y z Hxy _ IH]; [done|].
    intros Hx. apply IH. by apply (Hclosed x y). }
  assert (seen = list_to_set (nx.nodes g)) as Hseen.
  { apply set_eq. intros w. rewrite elem_of_list_to_set. unfold nx.nodes. rewrite elem_of_seq.
    split; [intros ?%Hrange; lia|]. intros [_ Hw]. apply (Hreach 0 w); [|done].
    apply Hconn; [apply Hconn | done]. }
  assert (size seen = nx.number_of_nodes g) as Hn.
  { rewrite Hseen, size_list_to_set by apply NoDup_seq. unfold nx.nodes. by rewrite length_seq. }
  assert ((list_to_set (nx.edges g) : gset (nat * nat)) ⊆ ve) as Hsub.
  { intros [u v] [Huv Hle]%elem_of_list_to_set%elem_of_edges.
    assert (u ∈ seen) as Hu.
    { rewrite Hseen. apply elem_of_list_to_set, elem_of_seq. apply elem_of_row_lt in Huv.
      unfold nx.number_of_nodes. lia. }
    destruct (Hclosed u v Hu Huv) as [_ Hid]. unfold nx.edge_id in Hid.
    by rewrite Nat.min_l, Nat.max_r in Hid. }
  apply subseteq_size in Hsub.
  rewrite size_list_to_set in Hsub by (apply NoDup_edges; intros u; by apply simple_NoDup).
  unfold nx.number_of_edges in Hedges. lia.
Qed.

(** On a connected graph with as many edges as nodes, or more, [find_cycle]
    returns a cycle: edges of the graph, none of them twice. *)
Lemma find_cycle_finds :
  ∃ cycle, nx.find_cycle g = Ok cycle ∧ cycle ≠ [] ∧
    (∀ e, e ∈ cycle → adjacent g e.1 e.2) ∧ NoDup (edge_ids cycle).
Proof.
  destruct (dfs_run g 0 Hg (nx.dfs_fuel g) [0] ∅ ∅ [] {[0]} {[0]} None dfs_inv_start)
    as (r & Hrun & Hpost); [by rewrite dfs_measure_start|].
  destruct r as [[cycle final]|seen]; [|by apply dfs_no_forest in Hpost].
  destruct Hpost as (Hne & Hadj & Hnd).
  assert (nx.find_cycle g = Ok (nx.trim final cycle)) as Hfind.
  { unfold nx.find_cycle, nx.nodes.
    destruct (nx.number_of_nodes g) as [|n] eqn:Hn; [destruct Hconn; lia|].
    cbn [seq nx.find_cycle_loop]. rewrite bool_decide_eq_false_2 by set_solver.
    unfold nx.edge_dfs. rewrite Hrun. done. }
  exists (nx.trim final cycle). split; [done|].
  destruct (trim_suffix final cycle) as [k Hk].
  split; [by apply trim_nonempty|]. split.
  - intros e He. apply Hadj. rewrite Hk. apply elem_of_app. by right.
  - unfold edge_ids in *. rewrite Hk, fmap_app in Hnd. by apply NoDup_app in Hnd as (_ & _ & ?).
Qed.

End find_cycle.

(** ** The trial graphs *)

Lemma entry_insert {A} n (M : list (list A)) i j (x : A) u v :
  square n M → i < n → j < n →
  entry (<[i := <[j := x]> (default [] (M !! i))]> M) u v
  = if decide (u = i ∧ v = j) then Some x else entry M u v.
Proof.
  intros HM Hi Hj. destruct (square_lookup n M i HM Hi) as (r & Hr & Hlen).
  unfold entry. rewrite Hr. simpl. destruct (decide (u = i)) as [->|Hu].
  - rewrite list_lookup_insert_eq by (destruct HM; lia). rewrite Hr. simpl.
    destruct (decide (v = j)) as [->|Hv].
    + rewrite list_lookup_insert_eq by lia. by rewrite decide_True.
    + rewrite list_lookup_insert_ne by done. by rewrite decide_False by tauto.
  - rewrite list_lookup_insert_ne by done. by rewrite decide_False by tauto.
Qed.

Lemma entry_with_edge n (M : list (list Z)) a b u v :
  square n M → a < n → b < n →
  entry (with_edge M (a, b)) u v
  = if decide ((u = a ∧ v = b) ∨ (u = b ∧ v = a)) then Some 1%Z else entry M u v.
Proof.
  intros HM Ha Hb. unfold with_edge. cbn [fst snd].
  assert (square n (<[a := <[b := 1%Z]> (default [] (M !! a))]> M)) as HM1.
  { destruct (square_lookup n M a HM Ha) as (r & Hr & Hlen). rewrite Hr. simpl.
    apply square_insert; [done|]. by rewrite length_insert. }
  rewrite (entry_insert n) by done. rewrite (entry_insert n) by done.
  repeat case_decide; try done; exfalso; tauto.
Qed.

Lemma entry_to_numpy_array g u v :
  u < nx.number_of_nodes g → v < nx.number_of_nodes g →
  entry (nx.to_numpy_array g) u v
  = Some (if bool_decide (v ∈ nx.neighbors g u) then 1%Z else 0%Z).
Proof.
  intros Hu Hv. destruct (to_numpy_array_lookup g u v Hu Hv) as (r & Hr & Hrv).
  unfold entry. rewrite Hr. done.
Qed.

Lemma entry_lt {A} n (M : list (list A)) u v (x : A) :
  square n M → entry M u v = Some x → u < n ∧ v < n.
Proof.
  intros [Hlen Hrows]. unfold entry. destruct (M !! u) as [r|] eqn:Hr; [|done]. simpl.
  intros Hv. split; [rewrite <- Hlen; by eapply lookup_lt_Some|].
  rewrite <- (Forall_lookup_1 _ _ _ _ Hrows Hr). by eapply lookup_lt_Some.
Qed.

Lemma elem_of_nonzero_entry (M : list (list Z)) i j :
  (i, j) ∈ nx.nonzero (λ x, negb (bool_decide (x = 0%Z))) M ↔
  ∃ x, entry M i j = Some x ∧ x ≠ 0%Z.
Proof.
  rewrite elem_of_nonzero. unfold entry. split.
  - intros (r & x & Hr & Hx & Hnz). exists x. rewrite Hr. split; [done|].
    by case_bool_decide.
  - intros (x & Hx & Hnz). destruct (M !! i) as [r|]; [|done]. simpl in Hx.
    exists r, x. split; [done|]. split; [done|]. by rewrite bool_decide_eq_false_2.
Qed.

Section trial.
Context (t : nx.Graph) (a b : nat).
Context (Ht : simple t).
Context (Ha : a < nx.number_of_nodes t) (Hb : b < nx.number_of_nodes t) (Hab : a < b).

Lemma number_of_nodes_trial : nx.number_of_nodes (trial t (a, b)) = nx.number_of_nodes t.
Proof.
  unfold trial. rewrite number_of_nodes_from_pandas_adjacency.
  apply with_edge_square, to_numpy_array_square.
Qed.

Lemma nonzero_trial u v :
  (u, v) ∈ nx.nonzero (λ x, negb (bool_decide (x = 0%Z)))
             (with_edge (nx.to_numpy_array t) (a, b)) ↔
  adjacent t u v ∨ (u = a ∧ v = b) ∨ (u = b ∧ v = a).
Proof.
  rewrite elem_of_nonzero_entry.
  pose proof (to_numpy_array_square t) as Hsq.
  rewrite (entry_with_edge (nx.number_of_nodes t)) by done.
  case_decide as Hcase.
  - split; [tauto|]. intros _. by exists 1%Z.
  - split.
    + intros (x & Hx & Hnz). left.
      destruct (entry_lt _ _ _ _ _ Hsq Hx) as [Hu Hv].
      rewrite entry_to_numpy_array in Hx by done. injection Hx as <-.
      by case_bool_decide.
    + intros [Hadj | ?]; [|tauto].
      destruct (simple_adjacent t u v Ht Hadj) as (Hu & Hv & _).
      rewrite entry_to_numpy_array by done. exists 1%Z.
      split; [|done]. by rewrite bool_decide_eq_true_2.
Qed.

Lemma adjacent_trial u v :
  adjacent (trial t (a, b)) u v ↔ adjacent t u v ∨ (u = a ∧ v = b) ∨ (u = b ∧ v = a).
Proof.
  unfold adjacent at 1, trial. rewrite elem_of_from_pandas_adjacency, !nonzero_trial.
  replace (length (with_edge (nx.to_numpy_array t) (a, b))) with (nx.number_of_nodes t)
    by (symmetry; apply with_edge_square, to_numpy_array_square).
  split.
  - intros [_ [H|[H|H]]]; [tauto | | tauto].
    left. by apply (simple_adjacent t v u Ht H).
  - intros H. split; [|tauto]. destruct H as [H|[[-> _]|[-> _]]]; [|done..].
    by apply (simple_adjacent t u v Ht H).
Qed.

Lemma trial_simple : simple (trial t (a, b)).
Proof.
  apply simple_intro.
  - intros u. apply NoDup_graph_of_edges.
  - intros u v Huv. rewrite number_of_nodes_trial.
    fold (adjacent (trial t (a, b)) v u). rewrite adjacent_trial in *.
    destruct Huv as [H|[[-> ->]|[-> ->]]].
    + destruct (simple_adjacent t u v Ht H) as (_ & ? & ? & ?). tauto.
    + split; [done|]. split; [lia | tauto].
    + split; [done|]. split; [lia | tauto].
Qed.

Lemma trial_connected : connected t → connected (trial t (a, b)).
Proof.
  intros [Hn Hconn]. split; rewrite number_of_nodes_trial; [done|].
  intros u v Hu Hv. specialize (Hconn u v Hu Hv).
  induction Hconn as [|x y z Hxy _ IH]; [done|].
  eapply rtc_l; [apply adjacent_trial; by left|].
  apply IH; [|done]. by apply (simple_adjacent t x y Ht Hxy).
Qed.

Lemma number_of_edges_trial :
  ¬ adjacent t a b →
  nx.number_of_edges (trial t (a, b)) = nx.number_of_edges t + 1.
Proof.
  intros Hnot. unfold nx.number_of_edges.
  assert (nx.edges (trial t (a, b)) ≡ₚ (a, b) :: nx.edges t) as ->; [|simpl; lia].
  apply NoDup_Permutation.
  - apply NoDup_edges. intros u. apply simple_NoDup, trial_simple.
  - apply NoDup_cons. split; [|apply NoDup_edges; intros u; by apply simple_NoDup].
    rewrite elem_of_edges. by intros [? _].
  - intros [u v]. rewrite elem_of_cons, !elem_of_edges.
    fold (adjacent (trial t (a, b)) u v) (adjacent t u v). rewrite adjacent_trial.
    split.
    + intros [[H|[[-> ->]|[-> ->]]] Hle]; [by right | by left | lia].
    + intros [[= -> ->] | [H Hle]]; [split; [tauto | lia] | tauto].
Qed.

End trial.

(** ** The fundamental cycles of a connected graph *)

Section cycles.
Context (kg : nx.Graph).
Context (Hkg : simple kg) (Hconn : connected kg).

Local Abbreviation t := (nx.minimum_spanning_tree kg).

Lemma cotree_edges_range eled :
  cotree_edges kg eled →
  Forall (λ e, e.1 < length (nx.to_numpy_array t) ∧ e.2 < length (nx.to_numpy_array t)) eled.
Proof.
  intros [_ Hl]. apply Forall_forall. intros [a b] [[Hadj _] _]%Hl.
  replace (length (nx.to_numpy_array t)) with (nx.number_of_nodes kg)
    by (rewrite <- number_of_nodes_mst; symmetry; apply to_numpy_array_square).
  destruct (simple_adjacent kg a b Hkg Hadj) as (? & ? & _). done.
Qed.

Lemma graph_list_trial eled :
  cotree_edges kg eled →
  graph_list (nx.to_numpy_array t) eled = Ok (trial t <$> eled).
Proof.
  intros Heled.
  destruct (graph_list_slots (nx.to_numpy_array t) eled)
    as (glam & _ & Hlen & Hglam & ->).
  - rewrite (proj1 (to_numpy_array_square t)) at 1. apply to_numpy_array_square.
  - by apply cotree_edges_range.
  - f_equal. apply list_eq. intros i. rewrite !list_lookup_fmap.
    destruct (eled !! i) as [e|] eqn:He.
    + by rewrite (Hglam i e He).
    + apply lookup_ge_None in He. rewrite lookup_ge_None_2 by lia. done.
Qed.

Lemma find_cycle_trial a b :
  cotree kg t a b → a < b →
  ∃ cycle, nx.find_cycle (trial t (a, b)) = Ok cycle ∧ cycle_in kg cycle.
Proof.
  intros [Hadj Hnot] Hab.
  destruct (simple_adjacent kg a b Hkg Hadj) as (Ha & Hb & _).
  rewrite <- number_of_nodes_mst in Ha, Hb.
  pose proof (mst_simple kg Hkg) as Ht.
  destruct (find_cycle_finds (trial t (a, b))) as (cycle & Hfind & Hne & Hedges & Hnd).
  - by apply trial_simple.
  - apply trial_connected; [done..|]. by apply mst_connected.
  - rewrite number_of_nodes_trial, number_of_edges_trial by done.
    pose proof (number_of_edges_mst kg Hkg Hconn). rewrite number_of_nodes_mst. lia.
  - exists cycle. split; [done|]. split; [done|]. split; [|done].
    intros e He. apply Hedges in He. apply adjacent_trial in He; [|done..].
    destruct He as [He|[[-> ->]|[-> ->]]].
    + by apply adjacent_mst_sub.
    + done.
    + by apply (simple_adjacent kg a b Hkg Hadj).
Qed.

Lemma find_fundamental_cycles_trial eled :
  Forall (λ e, cotree kg t e.1 e.2 ∧ e.1 < e.2) eled →
  ∃ fcl, find_fundamental_cycles (trial t <$> eled) = Ok fcl ∧
    Forall2 (λ e cycle, nx.find_cycle (trial t e) = Ok cycle) eled fcl ∧
    Forall (cycle_in kg) fcl.
Proof.
  induction eled as [|[a b] eled IH]; intros Hall.
  - exists []. repeat constructor.
  - apply Forall_cons in Hall as [[Hc Hab] Hall].
    destruct (find_cycle_trial a b Hc Hab) as (cycle & Hfind & Hcycle).
    destruct (IH Hall) as (fcl & Hfcl & Hall2 & Hin).
    exists (cycle :: fcl). rewrite fmap_cons. cbn [find_fundamental_cycles].
    rewrite Hfind, Hfcl. split; [done|]. split; by constructor.
Qed.

(** The cycle basis of a connected graph: a cycle for each co-tree edge, and
    [E - N + 1] of them. *)
Lemma fundamental_cycles_connected :
  ∃ eled fcl,
    Eliminated_Edges (nx.to_numpy_array kg) (nx.to_numpy_array t) = Ok eled ∧
    cotree_edges kg eled ∧
    fundamental_cycles kg = Ok fcl ∧
    Forall2 (λ e cycle, nx.find_cycle (trial t e) = Ok cycle) eled fcl ∧
    Forall (cycle_in kg) fcl ∧
    length fcl + nx.number_of_nodes kg = nx.number_of_edges kg + 1.
Proof.
  pose proof (mst_simple kg Hkg) as Ht.
  destruct (Eliminated_Edges_cotree kg t Hkg Ht (number_of_nodes_mst kg))
    as (eled & Heled & Hnd & Hl).
  assert (cotree_edges kg eled) as Hcotree by done.
  destruct (find_fundamental_cycles_trial eled) as (fcl & Hfcl & Hall2 & Hin).
  { apply Forall_forall. intros [a b] He. by apply Hl. }
  exists eled, fcl. split; [done|]. split; [done|]. split; [|split; [done|split; [done|]]].
  - unfold fundamental_cycles. rewrite Heled. cbn [bind].
    rewrite graph_list_trial by done. done.
  - rewrite <- (Forall2_length _ _ _ Hall2).
    pose proof (Eliminated_Edges_count kg t Hkg Ht (number_of_nodes_mst kg) eled
                  (λ u v, adjacent_mst_sub kg u v Hkg) Heled).
    pose proof (number_of_edges_mst kg Hkg Hconn). lia.
Qed.

End cycles.

(** ** The rows of the system *)

Lemma foldM_app {A B} (f : B → A → Res B) l k b :
  foldM f (l ++ k) b = bind (foldM f l b) (foldM f k).
Proof.
  revert b. induction l as [|x l IH]; intros b; simpl; [done|].
  destruct (f b x); simpl; [apply IH | done].
Qed.

Lemma square_insert_entry {A} n (M : list (list A)) i j (x : A) :
  square n M → square n (<[i := <[j := x]> (default [] (M !! i))]> M).
Proof.
  intros HM. destruct (decide (i < n)) as [Hi|Hi].
  - destruct (square_lookup n M i HM Hi) as (r & -> & Hr). simpl.
    apply square_insert; [done|]. by rewrite length_insert.
  - rewrite list_insert_ge; [done|]. destruct HM. lia.
Qed.

Lemma setitem_row_Some {A} n (M : list (list A)) i c (x : A) :
  square n M → i < n → c < n →
  np.setitem_row M i (Some c) x = Ok (<[i := <[c := x]> (default [] (M !! i))]> M).
Proof.
  intros HM Hi Hc. destruct (square_lookup n M i HM Hi) as (r & Hr & Hlen).
  simpl. rewrite Hr. simpl. apply setitem2_intro; [done | lia].
Qed.

Lemma entry_row {A} (M M' : list (list A)) u v :
  M !! u = M' !! u → entry M u v = entry M' u v.
Proof. intros H. unfold entry. by rewrite H. Qed.

Section assemble.
Context (kg : nx.Graph).
Context (Hkg : simple kg) (Hattr : attributed kg).

Local Abbreviation E := (nx.number_of_edges kg).

Lemma edge_attr_adjacent u v :
  adjacent kg u v →
  ∃ d, edge_attr kg u v = Ok d ∧ branch_attr kg (u, v) = Some d ∧
       (suggested_dir d = (u, v) ∨ suggested_dir d = (v, u)).
Proof.
  intros Hadj. destruct (attributed_adjacent kg u v Hattr Hadj) as (d & Hd & Hdir).
  exists d. split; [|done]. unfold edge_attr, nx.get_edge_data, nx.has_edge.
  rewrite bool_decide_eq_true_2 by done. by rewrite Hd.
Qed.

Lemma get_edge_index_adjacent u v :
  adjacent kg u v → ∃ c, get_edge_index kg u v = Some c ∧ c < E.
Proof.
  intros Hadj. destruct (get_edge_index kg u v) as [c|] eqn:Hc.
  - exists c. split; [done|]. apply get_edge_index_Some in Hc as (e & He & _).
    by eapply lookup_lt_Some.
  - exfalso. pose proof (proj1 (get_edge_index_None kg u v) Hc) as Hnone.
    apply (adjacent_linked_edges kg u v Hkg) in Hadj as [H|H].
    + apply (Hnone _ H). by left.
    + apply (Hnone _ H). by right.
Qed.

Lemma get_edge_index_inj u v u' v' c :
  get_edge_index kg u v = Some c → get_edge_index kg u' v' = Some c →
  nx.edge_id u v = nx.edge_id u' v'.
Proof.
  intros H H'.
  apply get_edge_index_Some in H as (e & He & Hm & _).
  apply get_edge_index_Some in H' as (e' & He' & Hm' & _).
  rewrite He in He'. injection He' as <-. apply edge_id_eq.
  unfold matches in *. destruct Hm as [[<- <-]|[<- <-]], Hm' as [[<- <-]|[<- <-]]; tauto.
Qed.

Lemma kvl_edge_adjacent i volsum A edge :
  adjacent kg edge.1 edge.2 → square E A → i < E →
  ∃ c x, get_edge_index kg edge.1 edge.2 = Some c ∧ c < E ∧
    coefficient kg edge = Some x ∧
    kvl_edge kg i (volsum, A) edge
    = Ok (voltage_step kg volsum edge, <[i := <[c := x]> (default [] (A !! i))]> A).
Proof.
  intros Hadj HA Hi. destruct edge as [org dst]. simpl in Hadj.
  destruct (edge_attr_adjacent org dst Hadj) as (d & Hd & Hb & _).
  destruct (get_edge_index_adjacent org dst Hadj) as (c & Hc & Hlt).
  unfold kvl_edge, voltage_step, coefficient, straight. cbn [fst snd].
  rewrite Hd, Hb, Hc. cbn [bind mbind option_bind].
  exists c. destruct (isstraight org dst (suggested_dir d)).
  - eexists. repeat split; [done|]. rewrite (setitem_row_Some E) by done. done.
  - eexists. repeat split; [done|]. rewrite (setitem_row_Some E) by done. done.
Qed.

(** The walk along one cycle, for the row [i]. *)
Lemma kvl_walk i cycle A :
  cycle_in kg cycle → square E A → i < E →
  ∃ A', foldM (kvl_edge kg i) cycle (0%float, A)
        = Ok (foldl (voltage_step kg) 0%float cycle, A') ∧
    square E A' ∧ (∀ j, j ≠ i → A' !! j = A !! j) ∧
    ∀ e, e ∈ cycle →
      ∃ c, get_edge_index kg e.1 e.2 = Some c ∧ c < E ∧ entry A' i c = coefficient kg e.
Proof.
  intros (_ & Hadj & Hnd) HA Hi. revert Hadj Hnd.
  induction cycle as [|edge cycle IH] using rev_ind; intros Hadj Hnd.
  - exists A. split; [done|]. split; [done|]. split; [done|]. by intros e He%elem_of_nil.
  - unfold edge_ids in Hnd. rewrite fmap_app in Hnd.
    apply NoDup_app in Hnd as (Hnd & Hdisj & _).
    destruct IH as (A1 & Hwalk & HA1 & Hframe & Hentries);
      [intros e He; apply Hadj, elem_of_app; by left | done|].
    destruct (kvl_edge_adjacent i (foldl (voltage_step kg) 0%float cycle) A1 edge)
      as (c & x & Hc & Hlt & Hx & Hstep); [apply Hadj, elem_of_app; right; by left | done..|].
    eexists. rewrite foldM_app, Hwalk. cbn [bind foldM]. rewrite Hstep. cbn [bind].
    rewrite foldl_app. split; [done|]. split; [by apply square_insert_entry|].
    split; [intros j Hj; rewrite list_lookup_insert_ne by done; by apply Hframe|].
    intros e [He | ->%list_elem_of_singleton]%elem_of_app.
    + destruct (Hentries e He) as (c' & Hc' & Hlt' & Hentry). exists c'.
      split; [done|]. split; [done|]. rewrite (entry_insert E) by done.
      rewrite decide_False; [done|]. intros [_ ->].
      apply (Hdisj (nx.edge_id e.1 e.2)).
      * apply list_elem_of_fmap. by exists e.
      * rewrite (get_edge_index_inj _ _ _ _ _ Hc' Hc). simpl. by left.
    + exists c. split; [done|]. split; [done|]. rewrite (entry_insert E) by done.
      by rewrite decide_True.
Qed.

Lemma kvl_row_walk i cycle A B :
  cycle_in kg cycle → square E A → length B = E → i < E →
  ∃ A', kvl_row kg (i, A, B) cycle
        = Ok (i + 1, A', <[i := foldl (voltage_step kg) 0%float cycle]> B) ∧
    square E A' ∧ (∀ j, j ≠ i → A' !! j = A !! j) ∧
    ∀ e, e ∈ cycle →
      ∃ c, get_edge_index kg e.1 e.2 = Some c ∧ c < E ∧ entry A' i c = coefficient kg e.
Proof.
  intros Hcycle HA HB Hi.
  destruct (kvl_walk i cycle A Hcycle HA Hi) as (A1 & Hwalk & HA1 & Hframe & Hentries).
  exists A1. split; [|done]. unfold kvl_row. rewrite Hwalk. cbn [bind].
  unfold np.setitem. rewrite decide_True by lia. done.
Qed.

(** The loop over the cycles, from the row [i] on. *)
Lemma kvl_rows fcl i A B :
  Forall (cycle_in kg) fcl → i + length fcl ≤ E → square E A → length B = E →
  ∃ A' B', foldM (kvl_row kg) fcl (i, A, B) = Ok (i + length fcl, A', B') ∧
    square E A' ∧ length B' = E ∧
    (∀ j, j < i ∨ i + length fcl ≤ j → A' !! j = A !! j ∧ B' !! j = B !! j) ∧
    ∀ k cycle, fcl !! k = Some cycle →
      B' !! (i + k) = Some (foldl (voltage_step kg) 0%float cycle) ∧
      ∀ e, e ∈ cycle →
        ∃ c, get_edge_index kg e.1 e.2 = Some c ∧ c < E ∧
             entry A' (i + k) c = coefficient kg e.
Proof.
  revert i A B. induction fcl as [|cycle fcl IH]; intros i A B Hall Hlen HA HB.
  - exists A, B. rewrite Nat.add_0_r. split; [done|]. split; [done|]. split; [done|].
    split; [done|]. intros k cycle [=].
  - apply Forall_cons in Hall as [Hcycle Hall]. cbn [length] in Hlen.
    destruct (kvl_row_walk i cycle A B Hcycle HA HB)
      as (A1 & Hwalk & HA1 & Hframe & Hentries); [lia|].
    cbn [foldM]. rewrite Hwalk. cbn [bind].
    destruct (IH (i + 1) A1 (<[i := foldl (voltage_step kg) 0%float cycle]> B))
      as (A' & B' & Hrows & HA' & HB' & Hframe' & Hrest);
      [done | lia | done | by rewrite length_insert|].
    exists A', B'. split; [rewrite Hrows; do 3 f_equal; cbn [length]; lia|].
    split; [done|]. split; [done|]. split.
    + intros j Hj. destruct (Hframe' j) as [-> ->]; [cbn [length] in Hj; lia|].
      split; [apply Hframe; cbn [length] in Hj; lia|].
      apply list_lookup_insert_ne. cbn [length] in Hj. lia.
    + intros [|k] cycle' Hk.
      * injection Hk as <-. rewrite Nat.add_0_r.
        destruct (Hframe' i) as [HAi HBi]; [lia|]. rewrite HBi.
        split; [apply list_lookup_insert_eq; lia|].
        intros e He. destruct (Hentries e He) as (c & Hc & Hlt & Hentry).
        exists c. split; [done|]. split; [done|]. by rewrite (entry_row A' A1).
      * replace (i + S k) with (i + 1 + k) by lia. by apply Hrest.
Qed.

Lemma kcl_edge_adjacent i node A nei :
  adjacent kg node nei → square E A → i < E →
  ∃ A', kcl_edge kg i node A nei = Ok A' ∧ square E A' ∧ ∀ j, j ≠ i → A' !! j = A !! j.
Proof.
  intros Hadj HA Hi.
  destruct (edge_attr_adjacent node nei Hadj) as (d & Hd & _).
  destruct (get_edge_index_adjacent node nei Hadj) as (c & Hc & Hlt).
  unfold kcl_edge. rewrite Hd, Hc. cbn [bind].
  destruct (isstraight node nei (suggested_dir d)); rewrite (setitem_row_Some E) by done;
    (eexists; split; [done|]; split; [by apply square_insert_entry|]);
    intros j Hj; by apply list_lookup_insert_ne.
Qed.

Lemma kcl_node i node nbrs A :
  (∀ nei, nei ∈ nbrs → adjacent kg node nei) → square E A → i < E →
  ∃ A', foldM (kcl_edge kg i node) nbrs A = Ok A' ∧ square E A' ∧
        ∀ j, j ≠ i → A' !! j = A !! j.
Proof.
  intros Hadj HA Hi. revert A HA. induction nbrs as [|nei nbrs IH]; intros A HA.
  - by exists A.
  - destruct (kcl_edge_adjacent i node A nei) as (A1 & Hstep & HA1 & Hframe);
      [apply Hadj; by left | done..|].
    destruct (IH (λ x Hx, Hadj x (list_elem_of_further _ _ _ Hx)) A1 HA1)
      as (A' & Hfold & HA' & Hframe').
    exists A'. cbn [foldM]. rewrite Hstep. cbn [bind]. split; [done|]. split; [done|].
    intros j Hj. rewrite Hframe' by done. by apply Hframe.
Qed.

(** The loop over the nodes stops on its [break], one node before the end. *)
Lemma kcl_rows_break nodes i A :
  2 ≤ length nodes → i + length nodes = E + 1 → square E A →
  ∃ A', kcl_rows kg nodes i A = Ok (E, A') ∧ square E A' ∧ ∀ j, j < i → A' !! j = A !! j.
Proof.
  revert i A. induction nodes as [|node nodes IH]; intros i A Hlen Hi HA; [simpl in Hlen; lia|].
  cbn [length] in *. cbn [kcl_rows].
  destruct (kcl_node i node (nx.neighbors kg node) A) as (A1 & -> & HA1 & Hframe);
    [done | done | lia|].
  cbn [bind]. case_bool_decide as Hbreak.
  - exists A1. split; [by rewrite Hbreak|]. split; [done|]. intros j Hj. apply Hframe. lia.
  - destruct (IH (i + 1) A1) as (A' & -> & HA' & Hframe'); [lia | lia | done|].
    exists A'. split; [done|]. split; [done|]. intros j Hj.
    rewrite Hframe' by lia. apply Hframe. lia.
Qed.

(** A graph of one node: the loop runs once and writes nothing. *)
Lemma kcl_rows_single A :
  nx.number_of_nodes kg = 1 → E = 0 ∧ kcl_rows kg (nx.nodes kg) 0 A = Ok (1, A).
Proof.
  intros Hn.
  assert (∀ u, nx.neighbors kg u = []) as Hnone.
  { intros u. destruct (nx.neighbors kg u) as [|v nbrs] eqn:Hu; [done|]. exfalso.
    assert (adjacent kg u v) as Hadj by (unfold adjacent; rewrite Hu; by left).
    destruct (simple_adjacent kg u v Hkg Hadj) as (? & ? & ? & _). lia. }
  assert (E = 0) as HE.
  { unfold nx.number_of_edges. destruct (nx.edges kg) as [|[u v] es] eqn:Hes; [done|].
    assert ((u, v) ∈ nx.edges kg) as [Huv _]%elem_of_edges by (rewrite Hes; by left).
    rewrite Hnone in Huv. by apply elem_of_nil in Huv. }
  split; [done|]. unfold nx.nodes. rewrite Hn. cbn [seq kcl_rows].
  rewrite Hnone. cbn [foldM bind]. rewrite HE. done.
Qed.

End assemble.

(** The whole of [assemble] on a connected graph. *)
Lemma assemble_connected kg :
  simple kg → connected kg → attributed kg →
  ∃ fcl A1 A B i,
    fundamental_cycles kg = Ok fcl ∧ Forall (cycle_in kg) fcl ∧
    length fcl + nx.number_of_nodes kg = nx.number_of_edges kg + 1 ∧
    foldM (kvl_row kg) fcl
      (0, np.zeros 0%float (nx.number_of_edges kg) (nx.number_of_edges kg),
       replicate (nx.number_of_edges kg) 0%float)
    = Ok (length fcl, A1, B) ∧
    kcl_rows kg (nx.nodes kg) (length fcl) A1 = Ok (i, A) ∧
    assemble kg = Ok (A, B) ∧
    square (nx.number_of_edges kg) A ∧ length B = nx.number_of_edges kg ∧
    (2 ≤ nx.number_of_nodes kg → i = nx.number_of_edges kg) ∧
    (∀ j, j < length fcl → A !! j = A1 !! j) ∧
    ∀ k cycle, fcl !! k = Some cycle →
      B !! k = Some (foldl (voltage_step kg) 0%float cycle) ∧
      ∀ e, e ∈ cycle →
        ∃ c, get_edge_index kg e.1 e.2 = Some c ∧ c < nx.number_of_edges kg ∧
             entry A1 k c = coefficient kg e.
Proof.
  intros Hkg Hconn Hattr.
  destruct (fundamental_cycles_connected kg Hkg Hconn)
    as (eled & fcl & _ & _ & Hfcl & _ & Hcycles & Hcount).
  destruct (kvl_rows kg Hkg Hattr fcl 0
              (np.zeros 0%float (nx.number_of_edges kg) (nx.number_of_edges kg))
              (replicate (nx.number_of_edges kg) 0%float))
    as (A1 & B & Hkvl & HA1 & HB & _ & Hrows);
    [done | destruct Hconn; lia | apply square_zeros | apply length_replicate|].
  simpl in Hkvl.
  assert (∃ i A, kcl_rows kg (nx.nodes kg) (length fcl) A1 = Ok (i, A) ∧
            square (nx.number_of_edges kg) A ∧
            (2 ≤ nx.number_of_nodes kg → i = nx.number_of_edges kg) ∧
            ∀ j, j < length fcl → A !! j = A1 !! j) as (i & A & Hkcl & HA & Hi & Hframe).
  { destruct (decide (2 ≤ nx.number_of_nodes kg)) as [Hn|Hn].
    - destruct (kcl_rows_break kg Hkg Hattr (nx.nodes kg) (length fcl) A1)
        as (A & HA & Hsq & Hframe).
      + unfold nx.nodes. by rewrite length_seq.
      + unfold nx.nodes. rewrite length_seq. lia.
      + done.
      + by exists (nx.number_of_edges kg), A.
    - assert (nx.number_of_nodes kg = 1) as Hone by (destruct Hconn; lia).
      destruct (kcl_rows_single kg Hkg A1 Hone) as [HE Hkcl].
      assert (length fcl = 0) as -> by lia.
      exists 1, A1. split; [done|]. split; [done|]. split; [lia | done]. }
  exists fcl, A1, A, B, i. split; [done|]. split; [done|]. split; [done|].
  split; [done|]. split; [done|]. split.
  { unfold assemble. rewrite Hfcl. cbn [bind]. rewrite Hkvl. cbn [bind].
    rewrite Hkcl. done. }
  split; [done|]. split; [done|]. split; [done|]. split; [done|].
  intros k cycle Hk. apply (Hrows k cycle Hk).
Qed.

(** ** The partition of branches and cycles *)

Lemma elem_of_add_new {A} `{EqDecision A} (l : list A) t x :
  x ∈ add_new l t ↔ x ∈ l ∨ x = t.
Proof.
  unfold add_new. case_bool_decide.
  - split; [auto | intros [? | ->]; done].
  - rewrite elem_of_app, list_elem_of_singleton. done.
Qed.

Lemma NoDup_add_new {A} `{EqDecision A} (l : list A) t : NoDup l → NoDup (add_new l t).
Proof.
  intros Hnd. unfold add_new. case_bool_decide; [done|].
  apply NoDup_app. split; [done|]. split; [|apply NoDup_singleton].
  intros x Hx ->%list_elem_of_singleton. done.
Qed.

Section partition.
Context (kg : nx.Graph).
Context (Hkg : simple kg) (Hattr : attributed kg).

Lemma canonical_suggested_dir u v :
  adjacent kg u v →
  ∃ d, branch_attr kg (u, v) = Some d ∧ canonical kg (u, v) = suggested_dir d.
Proof.
  intros Hadj. destruct (edge_attr_adjacent kg Hattr u v Hadj) as (d & _ & Hb & Hdir).
  exists d. split; [done|]. unfold canonical, straight. rewrite Hb. cbn [fst snd].
  unfold isstraight. destruct Hdir as [-> | ->]; cbn [fst snd].
  - by rewrite !bool_decide_eq_true_2.
  - destruct (simple_adjacent kg u v Hkg Hadj) as (_ & _ & Hne & _).
    rewrite (bool_decide_eq_false_2 (v = u)) by done. done.
Qed.

Lemma partition_edge_adjacent varicyc vwe cwe e :
  adjacent kg e.1 e.2 →
  partition_edge kg (varicyc, vwe, cwe) e
  = Ok (if decide (variable_branch kg e)
        then (true, add_new vwe (canonical kg e), cwe)
        else (varicyc, vwe, add_new cwe (canonical kg e))).
Proof.
  intros Hadj. destruct e as [org dst]. cbn [fst snd] in Hadj.
  destruct (edge_attr_adjacent kg Hattr org dst Hadj) as (d & Hd & Hb & _).
  unfold partition_edge, canonical, straight. cbn [fst snd]. rewrite Hd, Hb. cbn [bind].
  destruct (is_zero (capacitor d)) eqn:Hz.
  - rewrite decide_False; [done|]. intros (d' & Hd' & Hz'). rewrite Hb in Hd'.
    injection Hd' as <-. congruence.
  - rewrite decide_True; [done|]. by exists d.
Qed.

Lemma partition_walk cycle varicyc vwe cwe :
  (∀ e, e ∈ cycle → adjacent kg e.1 e.2) → NoDup vwe → NoDup cwe →
  ∃ varicyc' vwe' cwe',
    foldM (partition_edge kg) cycle (varicyc, vwe, cwe) = Ok (varicyc', vwe', cwe') ∧
    NoDup vwe' ∧ NoDup cwe' ∧
    (varicyc' = true ↔ varicyc = true ∨ variable_cycle kg cycle) ∧
    (∀ x, x ∈ vwe' ↔ x ∈ vwe ∨ ∃ e, e ∈ cycle ∧ variable_branch kg e ∧ x = canonical kg e) ∧
    (∀ x, x ∈ cwe' ↔ x ∈ cwe ∨ ∃ e, e ∈ cycle ∧ ¬ variable_branch kg e ∧ x = canonical kg e).
Proof.
  revert varicyc vwe cwe. induction cycle as [|e cycle IH]; intros varicyc vwe cwe Hadj Hv Hc.
  - exists varicyc, vwe, cwe. split; [done|]. split; [done|]. split; [done|].
    unfold variable_cycle. rewrite Exists_nil.
    split; [tauto|]. split; intros x; (split; [tauto|]);
      (intros [?|(e & He & _)]; [done | by apply elem_of_nil in He]).
  - cbn [foldM]. rewrite partition_edge_adjacent by (apply Hadj; by left). cbn [bind].
    assert (∀ e', e' ∈ cycle → adjacent kg e'.1 e'.2) as Hadj'
      by (intros e' He'; apply Hadj; by right).
    unfold variable_cycle. setoid_rewrite Exists_cons.
    destruct (decide (variable_branch kg e)) as [Hvar|Hvar].
    + destruct (IH true (add_new vwe (canonical kg e)) cwe Hadj')
        as (b & vwe' & cwe' & -> & Hv' & Hc' & Hb & Hvwe & Hcwe);
        [by apply NoDup_add_new | done|].
      exists b, vwe', cwe'. split; [done|]. split; [done|]. split; [done|].
      split; [rewrite Hb; tauto|]. split.
      * intros x. rewrite Hvwe, elem_of_add_new. setoid_rewrite elem_of_cons. naive_solver.
      * intros x. rewrite Hcwe. setoid_rewrite elem_of_cons. naive_solver.
    + destruct (IH varicyc vwe (add_new cwe (canonical kg e)) Hadj')
        as (b & vwe' & cwe' & -> & Hv' & Hc' & Hb & Hvwe & Hcwe);
        [done | by apply NoDup_add_new|].
      exists b, vwe', cwe'. split; [done|]. split; [done|]. split; [done|].
      split; [rewrite Hb; unfold variable_cycle; tauto|]. split.
      * intros x. rewrite Hvwe. setoid_rewrite elem_of_cons. naive_solver.
      * intros x. rewrite Hcwe, elem_of_add_new. setoid_rewrite elem_of_cons. naive_solver.
Qed.

Lemma partition_cycle_walk cycle i p b vwe cwe :
  foldM (partition_edge kg) cycle (false, variable_weight_edge p, const_weight_edge p)
  = Ok (b, vwe, cwe) →
  partition_cycle kg (i, p) cycle
  = Ok (i + 1,
        if b then
          {| variable_weight_edge := vwe; const_weight_edge := cwe;
             const_weight_cycle := const_weight_cycle p;
             variable_weight_cycle := variable_weight_cycle p ++ [cycle];
             variable_weight_cycle_index := variable_weight_cycle_index p ++ [i] |}
        else
          {| variable_weight_edge := vwe; const_weight_edge := cwe;
             const_weight_cycle := const_weight_cycle p ++ [cycle];
             variable_weight_cycle := variable_weight_cycle p;
             variable_weight_cycle_index := variable_weight_cycle_index p |}).
Proof. intros Hwalk. unfold partition_cycle. rewrite Hwalk. cbn [bind]. by destruct b. Qed.

Lemma partition_cycles fcl i p :
  Forall (cycle_in kg) fcl →
  NoDup (variable_weight_edge p) → NoDup (const_weight_edge p) →
  ∃ p', foldM (partition_cycle kg) fcl (i, p) = Ok (i + length fcl, p') ∧
    NoDup (variable_weight_edge p') ∧ NoDup (const_weight_edge p') ∧
    (∀ x, x ∈ variable_weight_edge p' ↔
          x ∈ variable_weight_edge p ∨
          ∃ cycle e, cycle ∈ fcl ∧ e ∈ cycle ∧ variable_branch kg e ∧ x = canonical kg e) ∧
    (∀ x, x ∈ const_weight_edge p' ↔
          x ∈ const_weight_edge p ∨
          ∃ cycle e, cycle ∈ fcl ∧ e ∈ cycle ∧ ¬ variable_branch kg e ∧ x = canonical kg e) ∧
    const_weight_cycle p'
    = const_weight_cycle p ++ filter (λ c, ¬ variable_cycle kg c) fcl ∧
    variable_weight_cycle p' = variable_weight_cycle p ++ filter (variable_cycle kg) fcl.
Proof.
  revert i p. induction fcl as [|cycle fcl IH]; intros i p Hall Hv Hc.
  - exists p. rewrite Nat.add_0_r, !app_nil_r. split; [done|]. split; [done|]. split; [done|].
    split; [|split; [|done]]; intros x; (split; [tauto|]);
      (intros [?|(c & e & Hin & _)]; [done | by apply elem_of_nil in Hin]).
  - apply Forall_cons in Hall as [(_ & Hadj & _) Hall].
    destruct (partition_walk cycle false (variable_weight_edge p) (const_weight_edge p))
      as (b & vwe & cwe & Hwalk & Hv1 & Hc1 & Hb & Hvwe & Hcwe); [done..|].
    cbn [foldM]. rewrite (partition_cycle_walk cycle i p b vwe cwe Hwalk). cbn [bind].
    rewrite !filter_cons.
    destruct b.
    + assert (variable_cycle kg cycle) as Hvar by (destruct (proj1 Hb eq_refl); done).
      rewrite decide_False by tauto. rewrite decide_True by done.
      edestruct (IH (i + 1)) as (p' & -> & Hv' & Hc' & Hvwe' & Hcwe' & Hcc & Hvc);
        [done | | |]; [simpl; done..|].
      simpl in *. exists p'. split; [do 2 f_equal; lia|]. split; [done|]. split; [done|].
      split; [|split; [|split]].
      * intros x. rewrite Hvwe', Hvwe. setoid_rewrite elem_of_cons. naive_solver.
      * intros x. rewrite Hcwe', Hcwe. setoid_rewrite elem_of_cons. naive_solver.
      * done.
      * rewrite Hvc, <- app_assoc. done.
    + assert (¬ variable_cycle kg cycle) as Hvar.
      { intros Hv0. assert (false = true) by (apply Hb; by right). done. }
      rewrite decide_True by done. rewrite decide_False by done.
      edestruct (IH (i + 1)) as (p' & -> & Hv' & Hc' & Hvwe' & Hcwe' & Hcc & Hvc);
        [done | | |]; [simpl; done..|].
      simpl in *. exists p'. split; [do 2 f_equal; lia|]. split; [done|]. split; [done|].
      split; [|split; [|split]].
      * intros x. rewrite Hvwe', Hvwe. setoid_rewrite elem_of_cons. naive_solver.
      * intros x. rewrite Hcwe', Hcwe. setoid_rewrite elem_of_cons. naive_solver.
      * rewrite Hcc, <- app_assoc. done.
      * done.
Qed.

End partition.

(** ** The assembled system of a connected circuit *)

Lemma triangle_simple : simple triangle ∧ attributed triangle.
Proof. split; apply (bool_decide_unpack _); vm_compute; reflexivity. Qed.

Lemma triangle_connected : connected triangle.
Proof.
  split; [vm_compute; lia|]. intros u v Hu Hv.
  change (nx.number_of_nodes triangle) with 3 in Hu, Hv.
  destruct (decide (u = v)) as [->|Hne]; [done|]. apply rtc_once. unfold adjacent.
  destruct u as [|[|[|u]]], v as [|[|[|v]]]; try lia;
    apply (bool_decide_unpack _); vm_compute; reflexivity.
Qed.



(** C2: for a connected circuit with [N] nodes and [E] branches the pipeline
    finds one fundamental cycle for each co-tree edge, the co-tree edges
    listed once each with their smaller node first, [E - N + 1] cycles in
    all; the system it assembles has [E] rows (and [E] columns); the rows
    after those of the cycles are [N - 1], and when the graph has more than
    one node the loop over the nodes fills them one node each and stops at row
    [E]. *)
Theorem pipeline_counts (kg : nx.Graph) :
  simple kg → connected kg → attributed kg →
  ∃ eled fcl A1 A B i,
    Eliminated_Edges (nx.to_numpy_array kg)
      (nx.to_numpy_array (nx.minimum_spanning_tree kg)) = Ok eled ∧
    cotree_edges kg eled ∧
    fundamental_cycles kg = Ok fcl ∧
    Forall2 (λ e cycle, nx.find_cycle (trial (nx.minimum_spanning_tree kg) e) = Ok cycle)
      eled fcl ∧
    length fcl + nx.number_of_nodes kg = nx.number_of_edges kg + 1 ∧
    foldM (kvl_row kg) fcl
      (0, np.zeros 0%float (nx.number_of_edges kg) (nx.number_of_edges kg),
       replicate (nx.number_of_edges kg) 0%float)
    = Ok (length fcl, A1, B) ∧
    kcl_rows kg (nx.nodes kg) (length fcl) A1 = Ok (i, A) ∧
    assemble kg = Ok (A, B) ∧
    square (nx.number_of_edges kg) A ∧ length B = nx.number_of_edges kg ∧
    length A - length fcl = nx.number_of_nodes kg - 1 ∧
    (2 ≤ nx.number_of_nodes kg →
     i = nx.number_of_edges kg ∧ i - length fcl = nx.number_of_nodes kg - 1).
Proof.
  intros Hkg Hconn Hattr.
  destruct (fundamental_cycles_connected kg Hkg Hconn)
    as (eled & fcl & Heled & Hcotree & Hfcl & Hall2 & _ & Hcount).
  destruct (assemble_connected kg Hkg Hconn Hattr)
    as (fcl' & A1 & A & B & i & Hfcl' & _ & _ & Hkvl & Hkcl & Hasm & HA & HB & Hi & _).
  rewrite Hfcl in Hfcl'. injection Hfcl' as <-.
  exists eled, fcl, A1, A, B, i. repeat (split; [done|]).
  destruct HA as [HlenA _]. split; [lia|]. intros Hn. specialize (Hi Hn). lia.
Qed.

(** The counts of the triangle. *)
Lemma pipeline_counts_witness :
  ∃ fcl A B, fundamental_cycles triangle = Ok fcl ∧
    length fcl + nx.number_of_nodes triangle = nx.number_of_edges triangle + 1 ∧
    assemble triangle = Ok (A, B) ∧ length A = nx.number_of_edges triangle.
Proof.
  destruct (pipeline_counts triangle)
    as (eled & fcl & A1 & A & B & i & _ & _ & Hfcl & _ & Hcount & _ & _ & Hasm & [HA _] & _).
  - exact (proj1 triangle_simple).
  - exact triangle_connected.
  - exact (proj2 triangle_simple).
  - exists fcl, A, B. split; [exact Hfcl|]. split; [exact Hcount|]. split; [exact Hasm | exact HA].
Defined.

(** ** The partition of a connected circuit *)

Lemma pendant_connected : simple pendant ∧ attributed pendant ∧ connected pendant.
Proof.
  split; [|split]; [apply (bool_decide_unpack _); vm_compute; reflexivity..|].
  split; [vm_compute; lia|].
  assert (∀ u, u < 4 → rtc (adjacent pendant) u 2 ∧ rtc (adjacent pendant) 2 u) as Hhub.
  { intros u Hu. destruct (decide (u = 2)) as [->|Hne]; [done|].
    split; apply rtc_once; unfold adjacent;
      destruct u as [|[|[|[|u]]]]; try lia;
      apply (bool_decide_unpack _); vm_compute; reflexivity. }
  intros u v Hu Hv. change (nx.number_of_nodes pendant) with 4 in Hu, Hv.
  etrans; [apply (Hhub u Hu) | apply (Hhub v Hv)].
Qed.

(** C6, at the triangle with a fourth node hanging on node 2: the graph is
    connected, its branch (2,3) lies on no fundamental cycle and is in neither
    list of branches, in either orientation. *)
Lemma partition_misses_bridge :
  connected pendant ∧ (2, 3) ∈ nx.edges pendant ∧
  ∃ p, seperate_const_variable_cycle_and_loop pendant = Ok p ∧
    ((2, 3) ∉ const_weight_edge p) ∧ ((3, 2) ∉ const_weight_edge p) ∧
    ((2, 3) ∉ variable_weight_edge p) ∧ ((3, 2) ∉ variable_weight_edge p).
Proof.
  split; [apply pendant_connected|].
  split; [apply (bool_decide_unpack _); vm_compute; reflexivity|].
  eexists. split; [vm_compute; reflexivity|].
  repeat split; apply (bool_decide_unpack _); vm_compute; reflexivity.
Qed.

Lemma canonical_id kg e :
  nx.edge_id (canonical kg e).1 (canonical kg e).2 = nx.edge_id e.1 e.2.
Proof. unfold canonical. destruct (straight kg e); [done | apply edge_id_sym]. Qed.

Lemma variable_branch_id kg e e' :
  nx.edge_id e.1 e.2 = nx.edge_id e'.1 e'.2 → variable_branch kg e → variable_branch kg e'.
Proof. unfold variable_branch, branch_attr. by intros ->. Qed.

(** C6, amended: for a connected circuit the partitioner places every branch
    that lies on a fundamental cycle in exactly one of the two lists of
    branches, in its reference direction and once, in the constant-weight
    list if and only if its capacitance is zero; a branch on no fundamental
    cycle is in neither list.  It places every fundamental cycle in exactly
    one of the two lists of cycles, in the variable-weight list if and only
    if one of its branches is variable-weight. *)
Theorem partition_of_cycles (kg : nx.Graph) :
  simple kg → connected kg → attributed kg →
  ∃ fcl p, fundamental_cycles kg = Ok fcl ∧
    seperate_const_variable_cycle_and_loop kg = Ok p ∧
    NoDup (const_weight_edge p) ∧ NoDup (variable_weight_edge p) ∧
    (∀ x, x ∈ const_weight_edge p ↔
          ∃ cycle e, cycle ∈ fcl ∧ e ∈ cycle ∧ ¬ variable_branch kg e ∧ x = canonical kg e) ∧
    (∀ x, x ∈ variable_weight_edge p ↔
          ∃ cycle e, cycle ∈ fcl ∧ e ∈ cycle ∧ variable_branch kg e ∧ x = canonical kg e) ∧
    (∀ x, x ∈ const_weight_edge p → x ∉ variable_weight_edge p) ∧
    (∀ cycle e, cycle ∈ fcl → e ∈ cycle →
       ∃ d, branch_attr kg e = Some d ∧ canonical kg e = suggested_dir d ∧
            (variable_branch kg e ↔ is_zero (capacitor d) = false)) ∧
    const_weight_cycle p = filter (λ c, ¬ variable_cycle kg c) fcl ∧
    variable_weight_cycle p = filter (variable_cycle kg) fcl.
Proof.
  intros Hkg Hconn Hattr.
  destruct (fundamental_cycles_connected kg Hkg Hconn)
    as (eled & fcl & _ & _ & Hfcl & _ & Hcycles & _).
  destruct (partition_cycles kg Hattr fcl 0 empty_partition Hcycles)
    as (p & Hp & Hv & Hc & Hvwe & Hcwe & Hcc & Hvc); [constructor..|].
  simpl in Hvwe, Hcwe, Hcc, Hvc.
  assert (∀ x, x ∈ const_weight_edge p ↔
            ∃ cycle e, cycle ∈ fcl ∧ e ∈ cycle ∧ ¬ variable_branch kg e ∧ x = canonical kg e)
    as Hcwe'.
  { intros x. rewrite Hcwe. split; [intros [[]%elem_of_nil|?]; done | by right]. }
  assert (∀ x, x ∈ variable_weight_edge p ↔
            ∃ cycle e, cycle ∈ fcl ∧ e ∈ cycle ∧ variable_branch kg e ∧ x = canonical kg e)
    as Hvwe'.
  { intros x. rewrite Hvwe. split; [intros [[]%elem_of_nil|?]; done | by right]. }
  exists fcl, p. split; [done|]. split.
  { unfold seperate_const_variable_cycle_and_loop. rewrite Hfcl. cbn [bind]. by rewrite Hp. }
  split; [done|]. split; [done|]. split; [done|]. split; [done|]. split; [|split; [|done]].
  - intros x (c & e & _ & _ & Hnot & ->)%Hcwe' (c' & e' & _ & _ & Hvar & Heq)%Hvwe'.
    apply Hnot. apply (variable_branch_id kg e' e); [|done].
    by rewrite <- (canonical_id kg e), <- (canonical_id kg e'), Heq.
  - intros cycle [u v] Hcycle He.
    pose proof (proj1 (Forall_forall _ _) Hcycles cycle Hcycle) as (_ & Hadj & _).
    destruct (canonical_suggested_dir kg Hkg Hattr u v (Hadj _ He)) as (d & Hb & Hcan).
    exists d. split; [done|]. split; [done|]. unfold variable_branch. rewrite Hb. split.
    + by intros (d' & [= <-] & ?).
    + intros Hz. by exists d.
Qed.

(** The partition of the triangle. *)
Lemma partition_of_cycles_witness :
  ∃ fcl p, fundamental_cycles triangle = Ok fcl ∧
    seperate_const_variable_cycle_and_loop triangle = Ok p ∧
    const_weight_cycle p = filter (λ c, ¬ variable_cycle triangle c) fcl ∧
    variable_weight_cycle p = filter (variable_cycle triangle) fcl.
Proof.
  destruct (partition_of_cycles triangle)
    as (fcl & p & Hfcl & Hp & _ & _ & _ & _ & _ & _ & Hcc & Hvc).
  - exact (proj1 triangle_simple).
  - exact triangle_connected.
  - exact (proj2 triangle_simple).
  - exists fcl, p. split; [exact Hfcl|]. split; [exact Hp|]. split; [exact Hcc | exact Hvc].
Defined.

(** ** The graph of a well-formed file *)

Section parser_wf.
Context (n : nat).

Lemma elem_of_dict_set (d : list ((Z * Z) * BranchRecord)) k r k' r' :
  (k', r') ∈ dict_set d k r → (k', r') ∈ d ∨ (k', r') = (k, r).
Proof.
  induction d as [|[k0 r0] d IH]; simpl.
  - intros ->%list_elem_of_singleton. by right.
  - case_decide as Hk.
    + intros [-> | Hin]%elem_of_cons; [by right|]. left. by right.
    + intros [-> | Hin]%elem_of_cons; [left; by left|].
      destruct (IH Hin) as [? | ?]; [left; by right | by right].
Qed.

Lemma dict_set_key (d : list ((Z * Z) * BranchRecord)) k r :
  (∃ r', (k, r') ∈ dict_set d k r) ∧
  ∀ k0 r0, (k0, r0) ∈ d → ∃ r', (k0, r') ∈ dict_set d k r.
Proof.
  induction d as [|[k1 r1] d [IH1 IH2]]; simpl.
  - split; [exists r; by left|]. by intros k0 r0 ?%elem_of_nil.
  - case_decide as Hk.
    + subst k1. split; [exists r; by left|].
      intros k0 r0 [[= -> ->] | Hin]%elem_of_cons; [exists r; by left|].
      exists r0. by right.
    + split; [destruct IH1 as [r' ?]; exists r'; by right|].
      intros k0 r0 [[= -> ->] | Hin]%elem_of_cons; [exists r1; by left|].
      destruct (IH2 k0 r0 Hin) as [r' ?]. exists r'. by right.
Qed.

Lemma parse_line_parsed lines st r :
  parsed n lines st → well_formed_line n r →
  ∃ st', parse_line n st r = Ok st' ∧ parsed n (lines ++ [r]) st'.
Proof.
  destruct st as [kgam kgedgatt]. intros (HM & Hentries & Hkeys & Hitems) (Hx & Hy & Hne).
  simpl in *. unfold parse_line, np.index.
  rewrite !decide_True by done. cbn [bind].
  destruct (square_lookup n kgam (Z.to_nat (rec_org r)) HM) as (row & Hrow & Hlen); [lia|].
  rewrite (setitem2_intro kgam _ _ 1%float row) by (done || lia). cbn [bind].
  eexists. split; [done|]. split; [|split; [|split]]; simpl.
  - apply square_insert; [done|]. by rewrite length_insert.
  - intros u v Hu Hv.
    replace row with (default [] (kgam !! Z.to_nat (rec_org r))) by (by rewrite Hrow).
    rewrite (entry_insert n) by (done || lia).
    case_decide as Huv.
    + left. split; [done|]. exists r. split; [apply elem_of_app; right; by left|].
      unfold joins. lia.
    + destruct (Hentries u v Hu Hv) as [[He (r0 & Hr0 & Hj)] | [He Hno]].
      * left. split; [done|]. exists r0. split; [apply elem_of_app; by left | done].
      * right. split; [done|].
        intros (r0 & [Hr0 | ->%list_elem_of_singleton]%elem_of_app & Hj); [by apply Hno; eauto|].
        unfold joins in Hj. lia.
  - intros r0 [Hr0 | ->%list_elem_of_singleton]%elem_of_app.
    + destruct (Hkeys r0 Hr0) as [r' Hr'].
      by apply (proj2 (dict_set_key kgedgatt (rec_org r, rec_dst r) r) _ r').
    + apply dict_set_key.
  - intros k r' [Hin | [= -> ->]]%elem_of_dict_set.
    + destruct (Hitems k r' Hin) as [-> ?]. split; [done|]. apply elem_of_app. by left.
    + split; [done|]. apply elem_of_app. right. by left.
Qed.

Lemma parse_lines_parsed rest lines st :
  parsed n lines st → Forall (well_formed_line n) rest →
  ∃ st', foldM (parse_line n) rest st = Ok st' ∧ parsed n (lines ++ rest) st'.
Proof.
  revert lines st. induction rest as [|r rest IH]; intros lines st Hst Hwf.
  - exists st. by rewrite app_nil_r.
  - apply Forall_cons in Hwf as [Hr Hwf].
    destruct (parse_line_parsed lines st r Hst Hr) as (st1 & Hstep & Hst1).
    destruct (IH (lines ++ [r]) st1 Hst1 Hwf) as (st' & Hfold & Hst').
    exists st'. cbn [foldM]. rewrite Hstep. cbn [bind].
    split; [done|]. by rewrite <- app_assoc in Hst'.
Qed.

Lemma parsed_start : parsed n [] (np.zeros 0%float n n, []).
Proof.
  split; [apply square_zeros|]. split; [|split].
  - intros u v Hu Hv. right. split.
    + cbn [fst]. unfold entry, np.zeros. rewrite lookup_replicate_2 by done. simpl.
      by rewrite lookup_replicate_2.
    + by intros (r & Hr%elem_of_nil & _).
  - by intros r Hr%elem_of_nil.
  - by intros k r' Hin%elem_of_nil.
Qed.

End parser_wf.

Lemma set_edge_attributes_adj items g :
  nx.adj (set_edge_attributes g items) = nx.adj g.
Proof.
  revert g. induction items as [|[[x y] r] items IH]; intros g; [done|].
  unfold set_edge_attributes in *. cbn [foldl]. rewrite IH.
  unfold set_edge_attribute. by destruct (_ && _).
Qed.

Lemma set_edge_attributes_attr items g :
  directed_attrs g →
  directed_attrs (set_edge_attributes g items) ∧
  (∀ id, is_Some (nx.attr g !! id) → is_Some (nx.attr (set_edge_attributes g items) !! id)) ∧
  ∀ x y r, ((x, y), r) ∈ items → (0 ≤ x)%Z → (0 ≤ y)%Z →
    nx.has_edge g (Z.to_nat x) (Z.to_nat y) = true →
    is_Some (nx.attr (set_edge_attributes g items) !! nx.edge_id (Z.to_nat x) (Z.to_nat y)).
Proof.
  revert g. induction items as [|[[x y] r] items IH]; intros g Hg.
  - split; [done|]. split; [done|]. by intros x y r Hin%elem_of_nil.
  - unfold set_edge_attributes in *. cbn [foldl].
    set (g1 := set_edge_attribute g (x, y, r)).
    assert (nx.adj g1 = nx.adj g) as Hadj.
    { subst g1. unfold set_edge_attribute. by destruct (_ && _). }
    assert (directed_attrs g1) as Hg1.
    { subst g1. unfold set_edge_attribute. destruct (_ && _); [|done].
      intros id d. simpl. rewrite lookup_insert_Some.
      intros [[<- <-] | [_ Hd]]; [done | by apply Hg]. }
    assert (∀ id, is_Some (nx.attr g !! id) → is_Some (nx.attr g1 !! id)) as Hmono.
    { subst g1. unfold set_edge_attribute. destruct (_ && _); [|done].
      intros id Hid. simpl. rewrite lookup_insert_is_Some.
      destruct (decide (nx.edge_id (Z.to_nat x) (Z.to_nat y) = id)); [by left | by right]. }
    destruct (IH g1 Hg1) as (Hdir & Hkeep & Hset).
    split; [done|]. split; [intros id Hid; by apply Hkeep, Hmono|].
    intros x' y' r' [[= -> -> ->] | Hin]%elem_of_cons Hx Hy Hedge.
    + apply Hkeep. subst g1. unfold set_edge_attribute.
      rewrite Hedge, !bool_decide_eq_true_2 by done. simpl.
      by rewrite lookup_insert_eq.
    + apply (Hset x' y' r' Hin Hx Hy). unfold nx.has_edge, nx.neighbors in *.
      by rewrite Hadj.
Qed.

(** A file whose lines name different nodes of the circuit is parsed into a
    graph that is simple and whose branches all have their attributes. *)
Lemma circuit_parser_well_formed (n : nat) (edgesnumber : Z) (lines : list BranchRecord) :
  Forall (well_formed_line n) lines →
  ∃ kg, circuit_parser (Z.of_nat n) edgesnumber lines = Ok kg ∧
    nx.number_of_nodes kg = n ∧ simple kg ∧ attributed kg ∧
    ∀ u v, adjacent kg u v ↔ ∃ r, r ∈ lines ∧ (joins r u v ∨ joins r v u).
Proof.
  intros Hwf.
  destruct (parse_lines_parsed n lines [] _ (parsed_start n) Hwf)
    as ([kgam kgedgatt] & Hparse & HM & Hentries & Hkeys & Hitems).
  simpl in *.
  set (kg0 := nx.from_pandas_adjacency (λ x, negb (is_zero x)) kgam).
  set (kg := set_edge_attributes kg0 kgedgatt).
  assert (∀ u v, (u, v) ∈ nx.nonzero (λ x, negb (is_zero x)) kgam
                 ↔ ∃ r, r ∈ lines ∧ joins r u v) as Hnz.
  { intros u v. rewrite elem_of_nonzero. split.
    - intros (row & x & Hrow & Hx & Hnzx).
      assert (entry kgam u v = Some x) as He by (unfold entry; by rewrite Hrow).
      destruct (entry_lt n kgam u v x HM He) as [Hu Hv].
      destruct (Hentries u v Hu Hv) as [[_ ?] | [He' _]]; [done|].
      rewrite He in He'. injection He' as ->. done.
    - intros (r & Hr & Hj).
      pose proof (proj1 (Forall_forall _ _) Hwf r Hr) as (Hx & Hy & _).
      destruct Hj as [Hju Hjv].
      destruct (Hentries u v) as [[He _] | [_ Hno]]; [lia | lia | | exfalso; apply Hno; by exists r].
      unfold entry in He. destruct (kgam !! u) as [row|] eqn:Hrow; [|done].
      exists row, 1%float. done. }
  assert (∀ u v, adjacent kg u v ↔ ∃ r, r ∈ lines ∧ (joins r u v ∨ joins r v u)) as Hadj.
  { intros u v. unfold adjacent, nx.neighbors, kg. rewrite set_edge_attributes_adj.
    fold (nx.neighbors kg0 u). unfold kg0. rewrite elem_of_from_pandas_adjacency, !Hnz.
    split; [naive_solver|]. intros (r & Hr & Hj). split; [|naive_solver].
    pose proof (proj1 (Forall_forall _ _) Hwf r Hr) as (Hx & Hy & _).
    destruct HM as [-> _]. unfold joins in Hj. lia. }
  assert (nx.number_of_nodes kg = n) as Hn.
  { unfold nx.number_of_nodes, kg. rewrite set_edge_attributes_adj.
    fold (nx.number_of_nodes kg0). unfold kg0.
    rewrite number_of_nodes_from_pandas_adjacency. apply HM. }
  exists kg. split.
  { unfold circuit_parser. rewrite decide_False by lia. rewrite Nat2Z.id, Hparse. done. }
  split; [done|]. split; [|split; [|done]].
  - apply simple_intro.
    + intros u. unfold nx.neighbors, kg. rewrite set_edge_attributes_adj.
      apply NoDup_graph_of_edges.
    + intros u v Huv. rewrite Hn. split; [|split].
      * apply Hadj in Huv as (r & Hr & Hj).
        pose proof (proj1 (Forall_forall _ _) Hwf r Hr) as (Hx & Hy & _).
        unfold joins in Hj. lia.
      * apply Hadj in Huv as (r & Hr & Hj).
        pose proof (proj1 (Forall_forall _ _) Hwf r Hr) as (_ & _ & Hne).
        unfold joins in Hj. lia.
      * apply Hadj. apply Hadj in Huv as (r & Hr & Hj). exists r. tauto.
  - destruct (set_edge_attributes_attr kgedgatt kg0) as (Hdir & _ & Hset).
    { intros id d. unfold kg0. simpl. by rewrite lookup_empty. }
    apply Forall_forall. intros p Hp.
    apply elem_of_lookup_imap in Hp as (u & nbrs & -> & Hu). simpl.
    apply Forall_forall. intros v Hv.
    assert (adjacent kg u v) as Huv by (unfold adjacent, nx.neighbors; by rewrite Hu).
    assert (∃ x y, is_Some (nx.attr kg !! nx.edge_id (Z.to_nat x) (Z.to_nat y)) ∧
                   nx.edge_id (Z.to_nat x) (Z.to_nat y) = nx.edge_id u v)
      as (x & y & [d Hd] & Hid).
    { apply Hadj in Huv as Hr. destruct Hr as (r & Hr & Hj).
      destruct (Hkeys r Hr) as [r' Hr'].
      pose proof (proj1 (Forall_forall _ _) Hwf r Hr) as (Hx & Hy & _).
      exists (rec_org r), (rec_dst r). split.
      - apply (Hset _ _ r' Hr'); [lia | lia|].
        unfold nx.has_edge. apply bool_decide_eq_true_2.
        fold (adjacent kg0 (Z.to_nat (rec_org r)) (Z.to_nat (rec_dst r))).
        assert (adjacent kg (Z.to_nat (rec_org r)) (Z.to_nat (rec_dst r))) as Hk.
        { apply Hadj. exists r. split; [done|]. left. unfold joins. lia. }
        unfold adjacent, nx.neighbors, kg in Hk. by rewrite set_edge_attributes_adj in Hk.
      - apply edge_id_eq. unfold joins in Hj. lia. }
    unfold branch_ok. rewrite <- Hid, Hd.
    pose proof (Hdir _ _ Hd) as Hsd. rewrite Hid in Hsd.
    destruct (suggested_dir d) as [a b]. simpl in Hsd.
    apply edge_id_eq in Hsd as [[-> ->] | [-> ->]]; tauto.
Qed.

(** * Further properties of the program *)

(** ** [circuit_parser] on a well-formed file *)

(** X1: a file whose lines each name two different nodes of the circuit is
    parsed without an exception, into a graph on the announced number of
    nodes that has no self-loop and no repeated neighbour, whose branches
    all carry attributes with a reference direction along the branch, and
    whose branches are exactly the node pairs of the lines. *)
Theorem circuit_parser_builds_circuit (n : nat) (edgesnumber : Z) (lines : list BranchRecord) :
  Forall (well_formed_line n) lines →
  ∃ kg, circuit_parser (Z.of_nat n) edgesnumber lines = Ok kg ∧
    nx.number_of_nodes kg = n ∧ simple kg ∧ attributed kg ∧
    ∀ u v, adjacent kg u v ↔ ∃ r, r ∈ lines ∧ (joins r u v ∨ joins r v u).
Proof. apply circuit_parser_well_formed. Qed.

Lemma triangle_lines_well_formed : Forall (well_formed_line 3) triangle_lines.
Proof. repeat constructor; simpl; lia. Qed.

Lemma circuit_parser_builds_circuit_witness :
  ∃ kg, circuit_parser 3 3 triangle_lines = Ok kg ∧ simple kg ∧ attributed kg.
Proof.
  destruct (circuit_parser_builds_circuit 3 3 triangle_lines triangle_lines_well_formed)
    as (kg & Hkg & _ & Hs & Ha & _).
  exists kg. split; [exact Hkg|]. split; [exact Hs | exact Ha].
Defined.

(** ** The columns of the branches *)

(** X2: on a graph without self-loop or repeated neighbour, [get_edge_index]
    numbers the branches: every branch has a column below the number of
    branches, two node pairs have the same column only if they are the same
    branch, and every column below the number of branches is the column of
    the branch at that place of [kg.edges()]. *)
Theorem get_edge_index_columns (kg : nx.Graph) :
  simple kg →
  (∀ u v, adjacent kg u v →
     ∃ c, get_edge_index kg u v = Some c ∧ c < nx.number_of_edges kg) ∧
  (∀ u v u' v' c, get_edge_index kg u v = Some c → get_edge_index kg u' v' = Some c →
     nx.edge_id u v = nx.edge_id u' v') ∧
  (∀ c, c < nx.number_of_edges kg →
     ∃ u v, nx.edges kg !! c = Some (u, v) ∧ adjacent kg u v ∧
       get_edge_index kg u v = Some c ∧ get_edge_index kg v u = Some c).
Proof.
  intros Hkg. split; [intros u v; by apply get_edge_index_adjacent|].
  split; [intros u v u' v' c; by apply get_edge_index_inj|].
  intros c Hc. destruct (lookup_lt_is_Some_2 (nx.edges kg) c Hc) as [[u v] He].
  exists u, v. split; [done|].
  assert ((u, v) ∈ nx.edges kg) as Hin by (by eapply list_elem_of_lookup_2).
  split; [by apply elem_of_edges in Hin as [? _]|].
  pose proof (edges_range kg Hkg) as Hrange.
  assert (get_edge_index kg u v = Some c) as Huv.
  { apply get_edge_index_Some. exists (u, v). split; [done|]. split; [by left|].
    intros j [a b] Hj Hj' Hm.
    pose proof (proj1 (Forall_lookup _ _) Hrange _ _ Hj') as (_ & _ & Hab).
    pose proof (proj1 (Forall_lookup _ _) Hrange _ _ He) as (_ & _ & Huv).
    unfold matches in Hm. simpl in *. destruct Hm as [[-> ->] | [-> ->]]; [|lia].
    assert (NoDup (nx.edges kg)) as Hnd.
    { apply NoDup_edges. intros w. by apply simple_NoDup. }
    pose proof (NoDup_lookup _ _ _ _ Hnd Hj' He). lia. }
  split; [done|]. unfold get_edge_index in *. by rewrite get_edge_index_loop_sym.
Qed.

Lemma get_edge_index_columns_witness :
  ∃ c, get_edge_index triangle 2 1 = Some c ∧ c < nx.number_of_edges triangle.
Proof.
  apply (proj1 (get_edge_index_columns triangle (proj1 triangle_simple)) 2 1).
  vm_compute. repeat constructor.
Defined.

(** ** [Eliminated_Edges] on any two arrays *)

Lemma getitem2_entry {A} (M : list (list A)) i j :
  np.getitem2 M i j = match entry M i j with Some x => Ok x | None => Raise IndexError end.
Proof.
  unfold np.getitem2, np.getitem, entry. destruct (M !! i) as [row|]; [|done]. simpl.
  by destruct (row !! j).
Qed.

Lemma foldM_fmap {A B C} (f : B → A → Res B) (h : C → A) l b :
  foldM f (h <$> l) b = foldM (λ b x, f b (h x)) l b.
Proof.
  revert b. induction l as [|x l IH]; intros b; [done|]. cbn [fmap list_fmap foldM].
  destruct (f b (h x)); [apply IH | done].
Qed.

(** The two loops are one loop over the positions. *)
Lemma foldM_index_pairs {B} (f : nat → B → nat → Res B) (rows cols : list nat) b :
  foldM (λ b i, foldM (f i) cols b) rows b
  = foldM (λ b p, f p.1 b p.2) (mjoin ((λ i, (λ j, (i, j)) <$> cols) <$> rows)) b.
Proof.
  revert b. induction rows as [|i rows IH]; intros b; [done|].
  cbn [fmap list_fmap mjoin list_join foldM]. rewrite foldM_app, foldM_fmap.
  cbn [fst snd]. destruct (foldM (f i) cols b); [apply IH | done].
Qed.

Lemma elem_of_index_pairs n i j : (i, j) ∈ index_pairs n ↔ i < n ∧ j < n.
Proof.
  unfold index_pairs. rewrite list_elem_of_join. split.
  - intros (l & Hij & Hl). apply list_elem_of_fmap in Hl as (i' & -> & Hi).
    apply list_elem_of_fmap in Hij as (j' & [= -> ->] & Hj).
    apply elem_of_seq in Hi, Hj. lia.
  - intros [Hi Hj]. exists ((λ j, (i, j)) <$> seq 0 n). split.
    + apply list_elem_of_fmap. exists j. split; [done|]. apply elem_of_seq. lia.
    + apply list_elem_of_fmap. exists i. split; [done|]. apply elem_of_seq. lia.
Qed.

Lemma NoDup_index_pairs_from n (rows : list nat) :
  NoDup rows → NoDup (mjoin ((λ i : nat, (λ j : nat, (i, j)) <$> seq 0 n) <$> rows)).
Proof.
  induction 1 as [|i rows Hi Hnd IH]; [constructor|].
  cbn [fmap list_fmap mjoin list_join]. apply NoDup_app. split; [|split; [|done]].
  - apply NoDup_fmap_2; [|apply NoDup_seq]. by intros j j' [=].
  - intros p Hp Hp'. apply list_elem_of_fmap in Hp as (j & -> & _).
    apply list_elem_of_join in Hp' as (l & Hij & Hl).
    apply list_elem_of_fmap in Hl as (i' & -> & Hi').
    apply list_elem_of_fmap in Hij as (j' & [= -> ->] & _). done.
Qed.

Lemma NoDup_index_pairs n : NoDup (index_pairs n).
Proof. apply NoDup_index_pairs_from, NoDup_seq. Qed.

(** The body of the inner loop, by the entries it reads. *)
Lemma Eliminated_Edges_entry_cases kgam kgmstam i l j :
  Eliminated_Edges_entry kgam kgmstam i l j =
  match entry kgam i j with
  | None => Raise IndexError
  | Some a =>
      if decide (a = 1%Z) then
        match entry kgmstam i j with
        | None => Raise IndexError
        | Some m => Ok (if decide (m = 0%Z ∧ (j, i) ∉ l) then l ++ [(i, j)] else l)
        end
      else Ok l
  end.
Proof.
  unfold Eliminated_Edges_entry. rewrite !getitem2_entry.
  destruct (entry kgam i j) as [a|]; [|done]. cbn [bind].
  case_bool_decide; [rewrite decide_True by done | by rewrite decide_False].
  destruct (entry kgmstam i j) as [m|]; [|done]. cbn [bind].
  case_bool_decide as Hm; [|rewrite decide_False by tauto; done].
  case_bool_decide as Hji; [rewrite decide_False by tauto | rewrite decide_True by tauto]; done.
Qed.

Lemma eliminated_step kgam kgmstam visited l p :
  p ∉ visited → eliminated_among kgam kgmstam visited l →
  match Eliminated_Edges_entry kgam kgmstam p.1 l p.2 with
  | Ok l' => eliminated_among kgam kgmstam (visited ++ [p]) l' ∧ readable kgam kgmstam p
  | Raise e => e = IndexError ∧ ¬ readable kgam kgmstam p
  end.
Proof.
  destruct p as [i j]. intros Hp (Hnd & Hin & Hall). cbn [fst snd].
  rewrite Eliminated_Edges_entry_cases.
  assert (¬ eliminated kgam kgmstam (i, j) ∨ (j, i) ∈ l →
          eliminated_among kgam kgmstam (visited ++ [(i, j)]) l) as Hsame.
  { intros Hno. split; [done|]. split.
    - intros q Hq. destruct (Hin q Hq) as (? & ? & ?). split; [|done].
      apply elem_of_app. by left.
    - intros q [Hq | ->%list_elem_of_singleton]%elem_of_app Hel; [by apply Hall|].
      destruct Hno as [? | ?]; [done | by right]. }
  unfold readable, eliminated in *. cbn [fst snd] in *.
  destruct (entry kgam i j) as [a|] eqn:Ha.
  - case_decide as Ha1.
    + subst a. destruct (entry kgmstam i j) as [m|] eqn:Hm.
      * split; [|exists 1%Z; eauto]. case_decide as Hnew.
        -- destruct Hnew as [-> Hji]. split; [|split].
           ++ apply NoDup_app. split; [done|]. split; [|apply NoDup_singleton].
              intros q Hq ->%list_elem_of_singleton. by destruct (Hin _ Hq) as (? & _).
           ++ intros q [Hq | ->%list_elem_of_singleton]%elem_of_app.
              ** destruct (Hin q Hq) as (Hv & Hel & Hswap).
                 split; [apply elem_of_app; by left|]. split; [done|].
                 intros [Hq' | Heq%list_elem_of_singleton]%elem_of_app; [by apply Hswap|].
                 injection Heq as <- <-. by destruct q.
              ** split; [apply elem_of_app; right; by left|]. split; [done|].
                 cbn [fst snd]. intros [Hq' | Heq%list_elem_of_singleton]%elem_of_app; [done|].
                 by injection Heq.
           ++ intros q [Hq | ->%list_elem_of_singleton]%elem_of_app Hel.
              ** destruct (Hall q Hq Hel); [left | right]; apply elem_of_app; by left.
              ** left. apply elem_of_app. right. by left.
        -- apply Hsame. destruct (decide (m = 0%Z)) as [->|Hm0].
           ++ right. destruct (decide ((j, i) ∈ l)); [done | tauto].
           ++ left. intros [_ [=]]. done.
      * split; [done|]. intros (a & [= <-] & Hr). by destruct Hr as [? [=]].
    + split; [|exists a; split; [done|]; by intros ?].
      apply Hsame. left. intros [[=] _]. done.
  - split; [done|]. by intros (a & [=] & _).
Qed.

Lemma eliminated_loop kgam kgmstam todo visited l :
  NoDup (visited ++ todo) → eliminated_among kgam kgmstam visited l →
  match foldM (λ l p, Eliminated_Edges_entry kgam kgmstam p.1 l p.2) todo l with
  | Ok l' => eliminated_among kgam kgmstam (visited ++ todo) l' ∧
             Forall (readable kgam kgmstam) todo
  | Raise e => e = IndexError ∧ Exists (λ p, ¬ readable kgam kgmstam p) todo
  end.
Proof.
  revert visited l. induction todo as [|p todo IH]; intros visited l Hnd Hinv.
  - cbn [foldM]. by rewrite app_nil_r.
  - cbn [foldM]. assert (p ∉ visited) as Hp.
    { apply NoDup_app in Hnd as (_ & Hdisj & _). intros Hv. apply (Hdisj p Hv). by left. }
    pose proof (eliminated_step kgam kgmstam visited l p Hp Hinv) as Hstep.
    destruct (Eliminated_Edges_entry kgam kgmstam p.1 l p.2) as [l1|e]; cbn [bind].
    + destruct Hstep as [Hinv1 Hread].
      specialize (IH (visited ++ [p]) l1). rewrite <- app_assoc in IH.
      specialize (IH Hnd Hinv1).
      destruct (foldM _ todo l1) as [l'|e].
      * destruct IH as [? ?]. split; [done | by constructor].
      * destruct IH as [? ?]. split; [done | by apply Exists_cons_tl].
    + destruct Hstep as [-> Hno]. split; [done | by apply Exists_cons_hd].
Qed.

(** X3: whatever the two arrays, [Eliminated_Edges] raises nothing but
    [IndexError], and that only when it reads a position one of them lacks.
    What it returns lists positions with a 1 in the first array and a 0 in the
    second, each once and never together with its mirror image, and it lists
    every such position or its mirror image. *)
Theorem Eliminated_Edges_pairs (kgam kgmstam : list (list Z)) :
  match Eliminated_Edges kgam kgmstam with
  | Ok l =>
      NoDup l ∧
      (∀ i j, (i, j) ∈ l →
         i < length kgam ∧ j < length kgam ∧ eliminated kgam kgmstam (i, j) ∧
         ((j, i) ∈ l → i = j)) ∧
      (∀ i j, i < length kgam → j < length kgam → eliminated kgam kgmstam (i, j) →
         (i, j) ∈ l ∨ (j, i) ∈ l) ∧
      (∀ i j, i < length kgam → j < length kgam → readable kgam kgmstam (i, j))
  | Raise e =>
      e = IndexError ∧
      ∃ i j, i < length kgam ∧ j < length kgam ∧ ¬ readable kgam kgmstam (i, j)
  end.
Proof.
  unfold Eliminated_Edges. rewrite foldM_index_pairs. fold (index_pairs (length kgam)).
  pose proof (eliminated_loop kgam kgmstam (index_pairs (length kgam)) [] []) as Hloop.
  cbn [app] in Hloop. specialize (Hloop (NoDup_index_pairs _)).
  destruct (foldM _ (index_pairs (length kgam)) []) as [l|e].
  - destruct Hloop as [(Hnd & Hin & Hall) Hread].
    { split; [constructor|]. split; [by intros p Hp%elem_of_nil | by intros p Hp%elem_of_nil]. }
    split; [done|]. split; [|split].
    + intros i j Hij. destruct (Hin _ Hij) as (Hv & Hel & Hswap).
      apply elem_of_index_pairs in Hv as [? ?]. done.
    + intros i j Hi Hj Hel. apply (Hall (i, j)); [by apply elem_of_index_pairs | done].
    + intros i j Hi Hj. apply (proj1 (Forall_forall _ _) Hread).
      by apply elem_of_index_pairs.
  - destruct Hloop as [-> Hex].
    { split; [constructor|]. split; [by intros p Hp%elem_of_nil | by intros p Hp%elem_of_nil]. }
    split; [done|]. apply Exists_exists in Hex as ([i j] & Hij & Hno).
    apply elem_of_index_pairs in Hij as [? ?]. by exists i, j.
Qed.

(** ** [graph_list] and the range of the edges *)

Lemma graph_list_step_out n kgmstam i glam e :
  square n kgmstam → i < length glam → ¬ (e.1 < n ∧ e.2 < n) →
  graph_list_step kgmstam (i, glam) e = Raise IndexError.
Proof.
  intros HM Hi Hout. unfold graph_list_step.
  unfold np.setitem at 1. rewrite decide_True by done. cbn [bind].
  unfold np.getitem at 1. rewrite list_lookup_insert_eq by done. cbn [bind].
  unfold np.setitem2 at 1, np.getitem at 1.
  destruct (kgmstam !! e.1) as [row|] eqn:Hrow; [|done]. cbn [bind].
  assert (e.1 < n) as H1 by (destruct HM as [<- _]; by eapply lookup_lt_Some).
  destruct (square_lookup n kgmstam e.1 HM H1) as (row' & Hrow' & Hlen).
  rewrite Hrow in Hrow'. injection Hrow' as <-.
  unfold np.setitem at 1. rewrite decide_False by lia. done.
Qed.

Lemma graph_list_loop_cases n kgmstam rest i glam :
  square n kgmstam → length glam = i + length rest →
  match foldM (graph_list_step kgmstam) rest (i, glam) with
  | Ok _ => Forall (λ e, e.1 < n ∧ e.2 < n) rest
  | Raise e => e = IndexError ∧ Exists (λ e, ¬ (e.1 < n ∧ e.2 < n)) rest
  end.
Proof.
  intros HM. revert i glam. induction rest as [|e rest IH]; intros i glam Hlen; cbn [foldM].
  - constructor.
  - cbn [length] in Hlen. destruct (decide (e.1 < n ∧ e.2 < n)) as [[H1 H2]|Hout].
    + rewrite (graph_list_step_insert n) by (done || lia). cbn [bind].
      specialize (IH (i + 1) (<[i := with_edge kgmstam e]> glam)).
      rewrite length_insert in IH. specialize (IH ltac:(lia)).
      destruct (foldM _ rest _) as [st|err].
      * by constructor.
      * destruct IH as [-> Hex]. split; [done|]. by apply Exists_cons_tl.
    + rewrite (graph_list_step_out n) by (done || lia). cbn [bind].
      split; [done|]. by apply Exists_cons_hd.
Qed.

(** X4: for the matrix of a graph on [n] nodes, [graph_list] raises
    [IndexError], and nothing else, exactly when an edge names a node that is
    not below [n]; otherwise it returns one graph for each edge, each on the
    [n] nodes. *)
Theorem graph_list_index_error (kgmstam : list (list Z)) (eled : list (nat * nat)) :
  square (length kgmstam) kgmstam →
  match graph_list kgmstam eled with
  | Ok gl =>
      Forall (λ e, e.1 < length kgmstam ∧ e.2 < length kgmstam) eled ∧
      length gl = length eled ∧
      Forall (λ g, nx.number_of_nodes g = length kgmstam) gl
  | Raise e =>
      e = IndexError ∧
      Exists (λ e, ¬ (e.1 < length kgmstam ∧ e.2 < length kgmstam)) eled
  end.
Proof.
  intros HM.
  pose proof (graph_list_loop_cases (length kgmstam) kgmstam eled 0
                (replicate (length eled) (np.zeros 0%Z (length kgmstam) (length kgmstam)))
                HM) as Hloop.
  rewrite length_replicate in Hloop. specialize (Hloop eq_refl).
  destruct (decide (Forall (λ e, e.1 < length kgmstam ∧ e.2 < length kgmstam) eled))
    as [Hrange|Hout].
  - destruct (graph_list_slots kgmstam eled HM Hrange) as (glam & _ & Hlen & Hslots & ->).
    split; [done|]. split; [by rewrite length_fmap|].
    apply Forall_fmap, Forall_lookup. intros i M HM'. simpl.
    rewrite number_of_nodes_from_pandas_adjacency.
    destruct (lookup_lt_is_Some_2 eled i) as [e He].
    { rewrite <- Hlen. by eapply lookup_lt_Some. }
    rewrite (Hslots i e He) in HM'. injection HM' as <-.
    by destruct (with_edge_square (length kgmstam) kgmstam e HM).
  - unfold graph_list, graph_list_glam. rewrite bool_decide_eq_true_2 by apply HM.
    destruct (foldM _ eled _) as [[i glam]|err]; [done|]. by cbn [bind].
Qed.

Lemma graph_list_index_error_witness :
  graph_list (nx.to_numpy_array triangle) [(0, 3)] = Raise IndexError.
Proof.
  pose proof (graph_list_index_error (nx.to_numpy_array triangle) [(0, 3)]
                (to_numpy_array_square triangle)) as H.
  destruct (graph_list (nx.to_numpy_array triangle) [(0, 3)]) as [gl|e].
  - destruct H as [H _]. apply Forall_cons in H as [[_ H] _]. vm_compute in H. lia.
  - destruct H as [-> _]. reflexivity.
Defined.

(** ** The classes of [circuit_type] *)

Lemma elem_of_get_edge_attributes {A} kg (name : EdgeAttr → A) x :
  x ∈ get_edge_attributes kg name ↔
  ∃ e d, e ∈ nx.edges kg ∧ branch_attr kg e = Some d ∧ x = name d.
Proof.
  unfold get_edge_attributes, branch_attr. rewrite list_elem_of_omap. split.
  - intros (e & He & Hx). destruct (nx.attr kg !! nx.edge_id e.1 e.2) as [d|] eqn:Hd; [|done].
    injection Hx as <-. by exists e, d.
  - intros (e & d & He & Hd & ->). exists e. by rewrite Hd.
Qed.

Lemma contains_nonzero_self kg :
  contains_nonzero (get_edge_attributes kg self) = true ↔ has_inductor kg.
Proof.
  rewrite contains_nonzero_spec. unfold has_inductor. split.
  - intros (x & (e & d & ? & ? & ->)%elem_of_get_edge_attributes & ?). by exists e, d.
  - intros (e & d & ? & ? & ?). exists (self d). split; [|done].
    apply elem_of_get_edge_attributes. by exists e, d.
Qed.

Lemma contains_nonzero_capacitor kg :
  contains_nonzero (get_edge_attributes kg capacitor) = true ↔ has_capacitor kg.
Proof.
  rewrite contains_nonzero_spec. unfold has_capacitor. split.
  - intros (x & (e & d & ? & ? & ->)%elem_of_get_edge_attributes & ?). by exists e, d.
  - intros (e & d & ? & ? & ?). exists (capacitor d). split; [|done].
    apply elem_of_get_edge_attributes. by exists e, d.
Qed.

(** X5: [circuit_type] always returns one of its four names, whatever its
    argument, and the name tells which components the circuit in [kg3] has:
    ['Ordinary'] when no branch has an inductance or a capacitance other than
    zero, ['RC'] when some branch has a capacitance but none an inductance,
    ['RL'] the other way round, ['RLC'] when there are both. *)
Theorem circuit_type_classifies (kg3 kg : nx.Graph) :
  (circuit_type kg3 kg = Some "Ordinary"%string ↔ ¬ has_inductor kg3 ∧ ¬ has_capacitor kg3) ∧
  (circuit_type kg3 kg = Some "RC"%string ↔ ¬ has_inductor kg3 ∧ has_capacitor kg3) ∧
  (circuit_type kg3 kg = Some "RL"%string ↔ has_inductor kg3 ∧ ¬ has_capacitor kg3) ∧
  (circuit_type kg3 kg = Some "RLC"%string ↔ has_inductor kg3 ∧ has_capacitor kg3) ∧
  circuit_type kg3 kg ≠ None.
Proof.
  rewrite circuit_type_of_kg3.
  assert (∀ (b : bool) (P : Prop), (b = true ↔ P) → if b then P else ¬ P) as Hcase.
  { intros [] P HP; [by apply HP | intros H%HP; done]. }
  pose proof (Hcase _ _ (contains_nonzero_self kg3)) as Hs.
  pose proof (Hcase _ _ (contains_nonzero_capacitor kg3)) as Hc.
  destruct (contains_nonzero (get_edge_attributes kg3 self)),
    (contains_nonzero (get_edge_attributes kg3 capacitor)); simpl in Hs, Hc;
    (split_and!; [split; intros H; first [discriminate H | reflexivity | tauto] .. | done]).
Qed.

(** ** The rows of the current law *)

Section kcl.
Context (kg : nx.Graph).
Context (Hkg : simple kg) (Hattr : attributed kg).

Local Abbreviation E := (nx.number_of_edges kg).

Lemma kcl_edge_entry i node A nei :
  adjacent kg node nei → square E A → i < E →
  ∃ c, get_edge_index kg node nei = Some c ∧ c < E ∧
    kcl_edge kg i node A nei
    = Ok (<[i := <[c := kcl_sign kg node nei]> (default [] (A !! i))]> A).
Proof.
  intros Hadj HA Hi.
  destruct (edge_attr_adjacent kg Hattr node nei Hadj) as (d & Hd & Hb & _).
  destruct (get_edge_index_adjacent kg Hkg node nei Hadj) as (c & Hc & Hlt).
  exists c. split; [done|]. split; [done|].
  unfold kcl_edge, kcl_sign, straight. rewrite Hd, Hc, Hb. cbn [bind fst snd].
  destruct (isstraight node nei (suggested_dir d)); by rewrite (setitem_row_Some E).
Qed.

Lemma kcl_column_neighbour node nei nei' c :
  adjacent kg node nei → adjacent kg node nei' →
  get_edge_index kg node nei = Some c → get_edge_index kg node nei' = Some c →
  nei = nei'.
Proof.
  intros Hadj Hadj' Hc Hc'.
  pose proof (get_edge_index_inj kg _ _ _ _ _ Hc Hc') as Hid.
  apply edge_id_eq in Hid as [[_ ?] | [-> <-]]; [done|].
  by destruct (simple_adjacent kg _ _ Hkg Hadj) as (_ & _ & ? & _).
Qed.

(** The row of one node: an entry for each neighbour, the other entries as
    they were. *)
Lemma kcl_node_entries i node nbrs A :
  (∀ nei, nei ∈ nbrs → adjacent kg node nei) → square E A → i < E →
  ∃ A', foldM (kcl_edge kg i node) nbrs A = Ok A' ∧ square E A' ∧
    (∀ j, j ≠ i → A' !! j = A !! j) ∧
    (∀ nei, nei ∈ nbrs →
       ∃ c, get_edge_index kg node nei = Some c ∧
            entry A' i c = Some (kcl_sign kg node nei)) ∧
    (∀ c, (∀ nei, nei ∈ nbrs → get_edge_index kg node nei ≠ Some c) →
       entry A' i c = entry A i c).
Proof.
  intros Hadj HA Hi. revert A HA. induction nbrs as [|nei nbrs IH]; intros A HA.
  - exists A. split; [done|]. split; [done|]. split; [done|].
    split; [by intros nei Hnei%elem_of_nil | done].
  - assert (adjacent kg node nei) as Hnei by (apply Hadj; by left).
    destruct (kcl_edge_entry i node A nei Hnei HA Hi) as (c & Hc & Hlt & Hstep).
    set (A1 := <[i := <[c := kcl_sign kg node nei]> (default [] (A !! i))]> A) in *.
    assert (square E A1) as HA1 by (by apply square_insert_entry).
    destruct (IH (λ x Hx, Hadj x (list_elem_of_further _ _ _ Hx)) A1 HA1)
      as (A' & Hfold & HA' & Hframe & Hnew & Hold).
    exists A'. cbn [foldM]. rewrite Hstep. cbn [bind]. split; [done|]. split; [done|].
    assert (∀ c', entry A1 i c' = if decide (c' = c) then Some (kcl_sign kg node nei)
                                  else entry A i c') as HA1i.
    { intros c'. unfold A1. rewrite (entry_insert E) by done.
      case_decide as H1; case_decide as H2; try done; exfalso; tauto. }
    split; [|split].
    + intros j Hj. rewrite Hframe by done. by apply list_lookup_insert_ne.
    + intros x [-> | Hx]%elem_of_cons; [|by apply Hnew].
      exists c. split; [done|].
      destruct (decide (Exists (λ y, get_edge_index kg node y = Some c) nbrs)) as [Hex|Hno].
      * apply Exists_exists in Hex as (y & Hy & Hcy). destruct (Hnew y Hy) as (c' & Hc' & Hentry).
        rewrite Hcy in Hc'. injection Hc' as <-.
        assert (nei = y) as ->; [|done].
        eapply kcl_column_neighbour; [done | | done | done].
        apply Hadj. by right.
      * rewrite Hold; [by rewrite HA1i, decide_True|].
        intros y Hy Hcy. apply Hno, Exists_exists. by exists y.
    + intros c' Hc'. rewrite Hold.
      * rewrite HA1i, decide_False; [done|]. intros ->. apply (Hc' nei); [by left | done].
      * intros y Hy. apply Hc'. by right.
Qed.

(** The loop over the nodes: a row for each node but the last. *)
Lemma kcl_rows_entries nodes i A :
  2 ≤ length nodes → i + length nodes = E + 1 → square E A →
  ∃ A', kcl_rows kg nodes i A = Ok (E, A') ∧ square E A' ∧
    (∀ j, j < i → A' !! j = A !! j) ∧
    ∀ k node, nodes !! k = Some node → k + 1 < length nodes →
      (∀ nei, adjacent kg node nei →
         ∃ c, get_edge_index kg node nei = Some c ∧
              entry A' (i + k) c = Some (kcl_sign kg node nei)) ∧
      (∀ c, (∀ nei, adjacent kg node nei → get_edge_index kg node nei ≠ Some c) →
         entry A' (i + k) c = entry A (i + k) c).
Proof.
  revert i A. induction nodes as [|node nodes IH]; intros i A Hlen Hi HA; [simpl in Hlen; lia|].
  cbn [length] in *. cbn [kcl_rows].
  destruct (kcl_node_entries i node (nx.neighbors kg node) A)
    as (A1 & -> & HA1 & Hframe & Hnew & Hold); [done | done | lia|].
  cbn [bind]. case_bool_decide as Hbreak.
  - exists A1. split; [by rewrite Hbreak|]. split; [done|].
    split; [intros j Hj; apply Hframe; lia|].
    intros [|k] x Hx Hk; [|lia]. injection Hx as <-. rewrite Nat.add_0_r. done.
  - destruct (IH (i + 1) A1) as (A' & -> & HA' & Hframe' & Hrows); [lia | lia | done|].
    exists A'. split; [done|]. split; [done|].
    split; [intros j Hj; rewrite Hframe' by lia; apply Hframe; lia|].
    intros [|k] x Hx Hk.
    + injection Hx as <-. rewrite Nat.add_0_r.
      assert (∀ c, entry A' i c = entry A1 i c) as Hrow.
      { intros c. apply entry_row, Hframe'. lia. }
      split.
      * intros nei Hnei. destruct (Hnew nei Hnei) as (c & Hc & Hentry).
        exists c. by rewrite Hrow.
      * intros c Hc. rewrite Hrow. by apply Hold.
    + replace (i + S k) with (i + 1 + k) by lia.
      destruct (Hrows k x Hx ltac:(lia)) as [Hnew' Hold']. split; [done|].
      intros c Hc. rewrite Hold' by done. apply entry_row, Hframe. lia.
Qed.

(** The sign, in the words of the reference direction. *)
Lemma kcl_sign_coefficient node nei :
  adjacent kg node nei → kcl_sign kg node nei = kcl_coefficient kg node (node, nei).
Proof.
  intros Hadj. destruct (edge_attr_adjacent kg Hattr node nei Hadj) as (d & _ & Hb & Hdir).
  destruct (simple_adjacent kg _ _ Hkg Hadj) as (_ & _ & Hne & _).
  unfold kcl_sign, kcl_coefficient, straight, isstraight. rewrite Hb. cbn [fst snd].
  destruct Hdir as [-> | ->]; cbn [fst snd].
  - by rewrite !bool_decide_eq_true_2.
  - rewrite (bool_decide_eq_false_2 (nei = node)) by done. cbn [andb].
    by rewrite bool_decide_eq_true_2.
Qed.

Lemma kcl_coefficient_sym node u v :
  kcl_coefficient kg node (u, v) = kcl_coefficient kg node (v, u).
Proof. unfold kcl_coefficient, branch_attr. cbn [fst snd]. by rewrite edge_id_sym. Qed.

Lemma kcl_coefficient_other node u v :
  adjacent kg u v → node ≠ u → node ≠ v → kcl_coefficient kg node (u, v) = 0%float.
Proof.
  intros Hadj Hu Hv. destruct (edge_attr_adjacent kg Hattr u v Hadj) as (d & _ & Hb & Hdir).
  unfold kcl_coefficient. rewrite Hb.
  destruct Hdir as [-> | ->]; cbn [fst snd]; by rewrite !bool_decide_eq_false_2.
Qed.

End kcl.

Lemma zeros_entry {A} (z : A) n i j : i < n → j < n → entry (np.zeros z n n) i j = Some z.
Proof.
  intros Hi Hj. unfold entry, np.zeros. rewrite lookup_replicate_2 by done. simpl.
  by rewrite lookup_replicate_2.
Qed.

(** X6: on a connected circuit, the rows of [A] after the rows of the
    cycles are the current laws of the nodes, in the order of the nodes and
    without the last node: the row of a node holds, in the column of every
    branch, -1 when the reference direction of the branch leaves the node, 1
    when it enters it and 0 when the branch does not touch the node, and the
    right-hand side of the row is 0. *)
Theorem kcl_rows_of_assemble (kg : nx.Graph) :
  simple kg → connected kg → attributed kg →
  ∃ fcl A B, fundamental_cycles kg = Ok fcl ∧ assemble kg = Ok (A, B) ∧
    length fcl + (nx.number_of_nodes kg - 1) = length A ∧
    ∀ node, node + 1 < nx.number_of_nodes kg →
      B !! (length fcl + node) = Some 0%float ∧
      ∀ c e, nx.edges kg !! c = Some e →
        entry A (length fcl + node) c = Some (kcl_coefficient kg node e).
Proof.
  intros Hkg Hconn Hattr.
  destruct (assemble_connected kg Hkg Hconn Hattr)
    as (fcl & A1 & A & B & i & Hfcl & Hcycles & Hcount & Hkvl & Hkcl & Hasm & HA & HB & _).
  exists fcl, A, B. split; [done|]. split; [done|].
  pose proof (proj1 Hconn) as Hpos.
  split; [destruct HA as [-> _]; lia|].
  intros node Hnode.
  destruct (kvl_rows kg Hkg Hattr fcl 0
              (np.zeros 0%float (nx.number_of_edges kg) (nx.number_of_edges kg))
              (replicate (nx.number_of_edges kg) 0%float))
    as (A1' & B' & Hkvl' & HA1 & _ & Hframe & _);
    [done | lia | apply square_zeros | apply length_replicate|].
  simpl in Hkvl'. rewrite Hkvl in Hkvl'. injection Hkvl' as <- <-.
  destruct (kcl_rows_entries kg Hkg Hattr (nx.nodes kg) (length fcl) A1)
    as (A' & Hkcl' & _ & _ & Hrows).
  { unfold nx.nodes. rewrite length_seq. lia. }
  { unfold nx.nodes. rewrite length_seq. lia. }
  { done. }
  rewrite Hkcl in Hkcl'. injection Hkcl' as -> <-.
  destruct (Hrows node node) as [Hnew Hold].
  { unfold nx.nodes. apply lookup_seq. lia. }
  { unfold nx.nodes. rewrite length_seq. lia. }
  split.
  - destruct (Hframe (length fcl + node)) as [_ ->]; [lia|].
    apply lookup_replicate_2. lia.
  - intros c [u v] He.
    assert ((u, v) ∈ nx.edges kg) as Hin by (by eapply list_elem_of_lookup_2).
    apply elem_of_edges in Hin as [Huv _]. fold (adjacent kg u v) in Huv.
    assert (c < nx.number_of_edges kg) as Hc by (by eapply lookup_lt_Some).
    assert (get_edge_index kg u v = Some c ∧ get_edge_index kg v u = Some c) as [Hcu Hcv].
    { destruct (get_edge_index_adjacent kg Hkg u v Huv) as (c' & Hc' & Hlt).
      assert (c' = c) as ->.
      { apply get_edge_index_Some in Hc' as ([a b] & Hab & Hm & _).
        assert (NoDup (nx.edges kg)) as Hnd.
        { apply NoDup_edges. intros w. by apply simple_NoDup. }
        pose proof (edges_range kg Hkg) as Hrange.
        pose proof (proj1 (Forall_lookup _ _) Hrange _ _ Hab) as (_ & _ & Hlt1).
        pose proof (proj1 (Forall_lookup _ _) Hrange _ _ He) as (_ & _ & Hlt2).
        unfold matches in Hm. simpl in *. destruct Hm as [[-> ->] | [-> ->]]; [|lia].
        apply (NoDup_lookup _ _ _ _ Hnd Hab He). }
      split; [done|]. unfold get_edge_index in *. by rewrite get_edge_index_loop_sym. }
    destruct (simple_adjacent kg u v Hkg Huv) as (_ & _ & Hne & Hvu).
    destruct (decide (node = u)) as [->|Hu]; [|destruct (decide (node = v)) as [->|Hv]].
    + destruct (Hnew v Huv) as (c' & Hc' & Hentry).
      rewrite Hcu in Hc'. injection Hc' as <-.
      by rewrite Hentry, (kcl_sign_coefficient kg Hkg Hattr).
    + destruct (Hnew u Hvu) as (c' & Hc' & Hentry).
      rewrite Hcv in Hc'. injection Hc' as <-.
      by rewrite Hentry, (kcl_sign_coefficient kg Hkg Hattr), kcl_coefficient_sym.
    + rewrite Hold.
      * rewrite (entry_row A1 (np.zeros 0%float (nx.number_of_edges kg) (nx.number_of_edges kg)))
          by (apply Hframe; lia).
        rewrite zeros_entry by lia.
        by rewrite (kcl_coefficient_other kg Hattr).
      * intros nei Hnei Hcn.
        pose proof (get_edge_index_inj kg _ _ _ _ _ Hcn Hcu) as Hid.
        apply edge_id_eq in Hid. lia.
Qed.

Lemma kcl_rows_of_assemble_witness :
  ∃ fcl A B, fundamental_cycles triangle = Ok fcl ∧ assemble triangle = Ok (A, B) ∧
    length fcl + (nx.number_of_nodes triangle - 1) = length A.
Proof.
  destruct (kcl_rows_of_assemble triangle (proj1 triangle_simple) triangle_connected
              (proj2 triangle_simple)) as (fcl & A & B & Hfcl & Hasm & Hlen & _).
  exists fcl, A, B. split; [exact Hfcl|]. split; [exact Hasm | exact Hlen].
Defined.

(** ** The exceptions of the solver *)

Lemma eliminate_cases fuel rows :
  length rows ≤ fuel →
  (∃ U, linalg.eliminate fuel rows = Ok U ∧ length U = length rows) ∨
  linalg.eliminate fuel rows = Raise LinAlgError.
Proof.
  revert rows. induction fuel as [|fuel IH]; intros rows Hlen.
  - destruct rows; [|simpl in Hlen; lia]. left. by exists [].
  - destruct rows as [|r0 rest]; [left; by exists []|].
    cbn [linalg.eliminate].
    set (p := linalg.argmax_abs rest 1 0 (PrimFloat.abs (linalg.lead r0))).
    set (piv := default r0 ((r0 :: rest) !! p)).
    set (others := match p with 0 => rest | S q => <[q := r0]> rest end).
    assert (length others = length rest) as Hothers.
    { unfold others. destruct p; [done | apply length_insert]. }
    destruct (is_zero (linalg.lead piv)); [by right|].
    destruct (IH (linalg.eliminate_row piv <$> others)) as [(U & -> & HU) | ->].
    + rewrite length_fmap, Hothers. simpl in Hlen. lia.
    + left. exists (piv :: U). split; [done|].
      rewrite length_fmap, Hothers in HU. simpl. by rewrite HU.
    + by right.
Qed.

Lemma length_back_substitute U : length (linalg.back_substitute U) = length U.
Proof. induction U as [|r U IH]; [done|]. simpl. by rewrite IH. Qed.

Lemma solve_cases n A B :
  square n A → length B = n →
  (∃ x, linalg.solve A B = Ok x ∧ length x = n) ∨ linalg.solve A B = Raise LinAlgError.
Proof.
  intros [HA Hrows] HB. unfold linalg.solve.
  rewrite bool_decide_eq_true_2 by (by rewrite HA, HB).
  destruct (eliminate_cases (length A) (zip A B)) as [(U & -> & HU) | ->].
  - rewrite length_zip_with. lia.
  - left. eexists. split; [done|].
    rewrite length_back_substitute, HU, length_zip_with. lia.
  - by right.
Qed.

Lemma find_kg_edges_weights_cases kg :
  simple kg → connected kg → attributed kg →
  (∃ x, find_kg_edges_weights kg = Ok x ∧ length x = nx.number_of_edges kg) ∨
  find_kg_edges_weights kg = Raise LinAlgError.
Proof.
  intros Hkg Hconn Hattr.
  destruct (assemble_connected kg Hkg Hconn Hattr)
    as (fcl & A1 & A & B & i & _ & _ & _ & _ & _ & Hasm & HA & HB & _).
  unfold find_kg_edges_weights. rewrite Hasm. cbn [bind]. by apply solve_cases.
Qed.



(** ** The indices of the variable-weight cycles *)

Lemma elem_of_variable_positions kg i fcl k :
  k ∈ variable_positions kg i fcl ↔
  ∃ cycle, i ≤ k ∧ fcl !! (k - i) = Some cycle ∧ variable_cycle kg cycle.
Proof.
  revert i. induction fcl as [|c fcl IH]; intros i; cbn [variable_positions].
  - split; [by intros ?%elem_of_nil | by intros (? & _ & [=] & _)].
  - assert (k ∈ variable_positions kg (i + 1) fcl ↔
            ∃ cycle, i < k ∧ (c :: fcl) !! (k - i) = Some cycle ∧ variable_cycle kg cycle) as IH'.
    { rewrite IH. split; intros (cycle & Hk & Hc & Hv); exists cycle.
      - split; [lia|]. split; [|done]. replace (k - i) with (S (k - (i + 1))) by lia. done.
      - split; [lia|]. split; [|done]. replace (k - i) with (S (k - (i + 1))) in Hc by lia. done. }
    case_decide as Hvar.
    + rewrite elem_of_cons, IH'. split.
      * intros [-> | (cycle & ? & ? & ?)].
        -- exists c. rewrite Nat.sub_diag. done.
        -- exists cycle. split; [lia | done].
      * intros (cycle & Hk & Hc & Hv). destruct (decide (k = i)) as [->|]; [by left|].
        right. exists cycle. split; [lia | done].
    + rewrite IH'. split.
      * intros (cycle & ? & ? & ?). exists cycle. split; [lia | done].
      * intros (cycle & Hk & Hc & Hv). exists cycle. split; [|done].
        destruct (decide (k = i)) as [->|]; [|lia].
        rewrite Nat.sub_diag in Hc. injection Hc as <-. done.
Qed.

Lemma variable_positions_increasing kg i fcl k k' a b :
  k < k' → variable_positions kg i fcl !! k = Some a →
  variable_positions kg i fcl !! k' = Some b → a < b.
Proof.
  revert i k k'. induction fcl as [|c fcl IH]; intros i k k' Hk Ha Hb;
    cbn [variable_positions] in *; [done|].
  case_decide; [|by eapply IH].
  destruct k' as [|k']; [lia|]. destruct k as [|k].
  - injection Ha as <-. cbn [lookup list_lookup] in Hb.
    apply list_elem_of_lookup_2, elem_of_variable_positions in Hb as (? & ? & _). lia.
  - eapply (IH (i + 1) k k'); [lia | done..].
Qed.

Lemma variable_positions_cycles kg i fcl :
  Forall2 (λ k cycle, i ≤ k ∧ fcl !! (k - i) = Some cycle)
    (variable_positions kg i fcl) (filter (variable_cycle kg) fcl).
Proof.
  revert i. induction fcl as [|c fcl IH]; intros i; cbn [variable_positions]; [constructor|].
  rewrite filter_cons.
  assert (Forall2 (λ k cycle, i ≤ k ∧ (c :: fcl) !! (k - i) = Some cycle)
            (variable_positions kg (i + 1) fcl) (filter (variable_cycle kg) fcl)) as Hrest.
  { eapply Forall2_impl; [apply (IH (i + 1))|]. intros k cycle [Hk Hc]. split; [lia|].
    replace (k - i) with (S (k - (i + 1))) by lia. done. }
  case_decide; [|done]. constructor; [|done]. by rewrite Nat.sub_diag.
Qed.

Lemma partition_cycles_index kg fcl i p :
  attributed kg → Forall (cycle_in kg) fcl →
  NoDup (variable_weight_edge p) → NoDup (const_weight_edge p) →
  ∃ j p', foldM (partition_cycle kg) fcl (i, p) = Ok (j, p') ∧
    variable_weight_cycle_index p'
    = variable_weight_cycle_index p ++ variable_positions kg i fcl.
Proof.
  intros Hattr. revert i p. induction fcl as [|cycle fcl IH]; intros i p Hall Hv Hc.
  - exists i, p. by rewrite app_nil_r.
  - apply Forall_cons in Hall as [(_ & Hadj & _) Hall].
    destruct (partition_walk kg Hattr cycle false (variable_weight_edge p) (const_weight_edge p))
      as (b & vwe & cwe & Hwalk & Hv1 & Hc1 & Hb & _); [done..|].
    cbn [foldM variable_positions].
    rewrite (partition_cycle_walk kg cycle i p b vwe cwe Hwalk). cbn [bind].
    destruct b.
    + assert (variable_cycle kg cycle) as Hvar by (destruct (proj1 Hb eq_refl); done).
      rewrite decide_True by done.
      match goal with
      | |- context [foldM _ fcl (i + 1, ?q)] =>
          destruct (IH (i + 1) q) as (j & p' & Hfold & Hidx); [done | simpl; done..|]
      end.
      exists j, p'. split; [done|]. rewrite Hidx. simpl. by rewrite <- app_assoc.
    + assert (¬ variable_cycle kg cycle) as Hvar.
      { intros Hv0. assert (false = true) by (apply Hb; by right). done. }
      rewrite decide_False by done.
      match goal with
      | |- context [foldM _ fcl (i + 1, ?q)] =>
          destruct (IH (i + 1) q) as (j & p' & Hfold & Hidx); [done | simpl; done..|]
      end.
      exists j, p'. split; [done|]. by rewrite Hidx.
Qed.

(** The partition of a connected circuit, with its list of indices. *)
Lemma partition_connected kg :
  simple kg → connected kg → attributed kg →
  ∃ fcl p, fundamental_cycles kg = Ok fcl ∧ Forall (cycle_in kg) fcl ∧
    seperate_const_variable_cycle_and_loop kg = Ok p ∧
    (∀ x, x ∈ variable_weight_edge p ↔
          ∃ cycle e, cycle ∈ fcl ∧ e ∈ cycle ∧ variable_branch kg e ∧ x = canonical kg e) ∧
    const_weight_cycle p = filter (λ c, ¬ variable_cycle kg c) fcl ∧
    variable_weight_cycle p = filter (variable_cycle kg) fcl ∧
    variable_weight_cycle_index p = variable_positions kg 0 fcl.
Proof.
  intros Hkg Hconn Hattr.
  destruct (fundamental_cycles_connected kg Hkg Hconn)
    as (eled & fcl & _ & _ & Hfcl & _ & Hcycles & _).
  destruct (partition_cycles kg Hattr fcl 0 empty_partition Hcycles)
    as (p & Hp & _ & _ & Hvwe & _ & Hcc & Hvc); [constructor..|].
  destruct (partition_cycles_index kg fcl 0 empty_partition Hattr Hcycles)
    as (j & p' & Hp' & Hidx); [constructor..|].
  rewrite Hp in Hp'. injection Hp' as _ <-.
  simpl in Hvwe, Hcc, Hvc, Hidx.
  exists fcl, p. split; [done|]. split; [done|]. split.
  { unfold seperate_const_variable_cycle_and_loop. rewrite Hfcl. cbn [bind]. by rewrite Hp. }
  split; [|done].
  intros x. rewrite Hvwe. split; [intros [[]%elem_of_nil|?]; done | by right].
Qed.

(** X8: for a connected circuit, the list of indices that
    [seperate_const_variable_cycle_and_loop] returns last holds the places
    of the variable-weight cycles in the list of the fundamental cycles, in
    increasing order and beside the list of those cycles: its [k]-th index is
    the place of the [k]-th variable-weight cycle.  Every fundamental cycle is
    in one of the two lists of cycles. *)
Theorem partition_cycle_indices (kg : nx.Graph) :
  simple kg → connected kg → attributed kg →
  ∃ fcl p, fundamental_cycles kg = Ok fcl ∧
    seperate_const_variable_cycle_and_loop kg = Ok p ∧
    Forall2 (λ i cycle, fcl !! i = Some cycle)
      (variable_weight_cycle_index p) (variable_weight_cycle p) ∧
    (∀ i, i ∈ variable_weight_cycle_index p ↔
          ∃ cycle, fcl !! i = Some cycle ∧ variable_cycle kg cycle) ∧
    (∀ k k' i i', k < k' → variable_weight_cycle_index p !! k = Some i →
       variable_weight_cycle_index p !! k' = Some i' → i < i') ∧
    length (const_weight_cycle p) + length (variable_weight_cycle p) = length fcl.
Proof.
  intros Hkg Hconn Hattr.
  destruct (partition_connected kg Hkg Hconn Hattr)
    as (fcl & p & Hfcl & _ & Hp & _ & Hcc & Hvc & Hidx).
  exists fcl, p. split; [done|]. split; [done|]. rewrite Hidx, Hvc, Hcc.
  split; [|split; [|split]].
  - eapply Forall2_impl; [apply variable_positions_cycles|].
    intros i cycle [_ Hi]. by rewrite Nat.sub_0_r in Hi.
  - intros i. rewrite elem_of_variable_positions. rewrite Nat.sub_0_r.
    split; intros (cycle & ?); exists cycle; [tauto | split; [lia | tauto]].
  - intros k k' i i'. apply variable_positions_increasing.
  - rewrite Nat.add_comm, <- length_app.
    apply Permutation_length, filter_app_complement.
Qed.

Lemma partition_cycle_indices_witness :
  ∃ fcl p, fundamental_cycles two_capacitors = Ok fcl ∧
    seperate_const_variable_cycle_and_loop two_capacitors = Ok p ∧
    length (const_weight_cycle p) + length (variable_weight_cycle p) = length fcl.
Proof.
  destruct (partition_cycle_indices two_capacitors)
    as (fcl & p & Hfcl & Hp & _ & _ & _ & Hs).
  - apply (bool_decide_unpack _). vm_compute. reflexivity.
  - split; [vm_compute; lia|]. intros u v Hu Hv.
    assert (∀ w, w < 3 → rtc (adjacent two_capacitors) 0 w) as H0.
    { intros w Hw. destruct w as [|[|[|w]]]; [done | | | lia].
      - apply rtc_once. vm_compute. repeat constructor.
      - apply rtc_once. vm_compute. repeat constructor. }
    assert (∀ w, w < 3 → rtc (adjacent two_capacitors) w 0) as H1.
    { intros w Hw. destruct w as [|[|[|w]]]; [done | | | lia].
      - apply rtc_once. vm_compute. repeat constructor.
      - apply rtc_once. vm_compute. repeat constructor. }
    etrans; [apply H1, Hu | apply H0, Hv].
  - apply (bool_decide_unpack _). vm_compute. reflexivity.
  - exists fcl, p. split; [exact Hfcl|]. split; [exact Hp | exact Hs].
Defined.

(** ** A circuit without capacitors *)

Lemma no_capacitor_no_variable_branch kg e :
  simple kg → ¬ has_capacitor kg → adjacent kg e.1 e.2 → ¬ variable_branch kg e.
Proof.
  intros Hkg Hno Hadj (d & Hd & Hz). apply Hno.
  destruct e as [a b]. simpl in Hadj.
  destruct (simple_adjacent kg a b Hkg Hadj) as (_ & _ & _ & Hba).
  destruct (decide (a ≤ b)).
  - exists (a, b), d. split; [by apply elem_of_edges|]. done.
  - exists (b, a), d. split; [apply elem_of_edges; split; [done | lia]|].
    split; [|done]. unfold branch_attr in *. cbn [fst snd] in *. by rewrite edge_id_sym.
Qed.

(** X9: when the circuit in [kg3] is connected and none of its branches has
    a capacitance other than zero, [find_kg_edges_weights_RC] deletes no row
    and no column: it solves the system [find_kg_edges_weights] solves, and
    returns or raises what that function does. *)
Theorem find_kg_edges_weights_RC_resistive (kg3 kg : nx.Graph) :
  simple kg3 → connected kg3 → attributed kg3 → ¬ has_capacitor kg3 →
  reduced_system kg3 kg = assemble kg ∧
  find_kg_edges_weights_RC kg3 kg = find_kg_edges_weights kg.
Proof.
  intros Hkg Hconn Hattr Hno.
  destruct (partition_connected kg3 Hkg Hconn Hattr)
    as (fcl & p & _ & Hcycles & Hp & Hvwe & _ & _ & Hidx).
  assert (∀ cycle, cycle ∈ fcl → ¬ variable_cycle kg3 cycle) as Hnone.
  { intros cycle Hc (e & He & Hv)%Exists_exists.
    pose proof (proj1 (Forall_forall _ _) Hcycles cycle Hc) as (_ & Hadj & _).
    by apply (no_capacitor_no_variable_branch kg3 e Hkg Hno (Hadj e He)). }
  assert (variable_weight_edge p = []) as Ha.
  { destruct (variable_weight_edge p) as [|x l] eqn:Hl; [done|]. exfalso.
    assert (x ∈ x :: l) as Hx by (by left).
    apply Hvwe in Hx as (cycle & e & Hc & He & Hv & _).
    apply (Hnone cycle Hc). apply Exists_exists. by exists e. }
  assert (variable_weight_cycle_index p = []) as He.
  { rewrite Hidx. destruct (variable_positions kg3 0 fcl) as [|k l] eqn:Hl; [done|]. exfalso.
    assert (k ∈ k :: l) as Hk by (by left). rewrite <- Hl in Hk.
    apply elem_of_variable_positions in Hk as (cycle & _ & Hc & Hv).
    apply (Hnone cycle); [by eapply list_elem_of_lookup_2 | done]. }
  assert (reduced_system kg3 kg = assemble kg) as Hsys.
  { unfold reduced_system. destruct (assemble kg) as [[A B]|err]; [|done].
    cbn [bind]. rewrite Hp. cbn [bind]. rewrite Ha, He. done. }
  split; [done|]. unfold find_kg_edges_weights_RC, find_kg_edges_weights. by rewrite Hsys.
Qed.

Lemma find_kg_edges_weights_RC_resistive_witness :
  find_kg_edges_weights_RC triangle two_capacitors = find_kg_edges_weights two_capacitors.
Proof.
  apply (find_kg_edges_weights_RC_resistive triangle two_capacitors).
  - exact (proj1 triangle_simple).
  - exact triangle_connected.
  - exact (proj2 triangle_simple).
  - intros (e & d & He & Hd & Hz). vm_compute in He.
    repeat (apply elem_of_cons in He as [-> | He];
            [vm_compute in Hd; injection Hd as <-; vm_compute in Hz; discriminate Hz|]).
    by apply elem_of_nil in He.
Defined.

(** ** The attributes of the branches of a parsed file *)

Lemma dict_set_spec (d : list ((Z * Z) * BranchRecord)) k v :
  NoDup d.*1 →
  NoDup (dict_set d k v).*1 ∧
  ∀ k' v', (k', v') ∈ dict_set d k v ↔ (k' = k ∧ v' = v) ∨ (k' ≠ k ∧ (k', v') ∈ d).
Proof.
  induction d as [|[k0 v0] d IH]; intros Hnd; simpl.
  - split; [apply NoDup_singleton|]. intros k' v'. rewrite list_elem_of_singleton.
    split; [intros [= -> ->]; by left|].
    intros [[-> ->] | [_ Hin]]; [done | by apply elem_of_nil in Hin].
  - apply NoDup_cons in Hnd as [Hk0 Hnd]. simpl in Hk0. case_decide as Hk.
    + subst k0. split; [by apply NoDup_cons|]. intros k' v'. rewrite !elem_of_cons. split.
      * intros [[= -> ->] | Hin]; [by left|]. right. split; [|by right].
        intros ->. apply Hk0. apply list_elem_of_fmap. by exists (k, v').
      * intros [[-> ->] | [Hne [[= -> ->] | Hin]]]; [by left | done | by right].
    + destruct (IH Hnd) as [Hnd' Hin']. split.
      * simpl. apply NoDup_cons. split; [|done].
        intros ([k1 v1] & Hk1 & Hin1)%list_elem_of_fmap. simpl in Hk1. subst k1.
        apply Hin' in Hin1 as [[-> _] | [_ Hin1]]; [done|].
        apply Hk0. apply list_elem_of_fmap. by exists (k0, v1).
      * intros k' v'. rewrite !elem_of_cons, Hin'. split.
        -- intros [[= -> ->] | [[-> ->] | [? ?]]]; [right; split; [done | by left] | by left|].
           right. split; [done | by right].
        -- intros [[-> ->] | [Hne [[= -> ->] | Hin]]]; [right; by left | by left|].
           right. right. done.
Qed.

Lemma dict_of_NoDup d lines : NoDup d.*1 → NoDup (dict_of d lines).*1.
Proof.
  revert d. induction lines as [|r lines IH]; intros d Hnd; [done|].
  apply IH. by apply dict_set_spec.
Qed.

(** The dictionary holds, for the pair of a line, the last line of that pair. *)
Lemma dict_of_last d l1 r l2 v :
  NoDup d.*1 → (∀ r', r' ∈ l2 → ¬ same_direction r r') →
  ((rec_org r, rec_dst r), v) ∈ dict_of d (l1 ++ r :: l2) → v = r.
Proof.
  intros Hnd Hlast. unfold dict_of. rewrite foldl_app. cbn [foldl].
  fold (dict_of d l1).
  pose proof (dict_of_NoDup d l1 Hnd) as Hnd1.
  destruct (dict_set_spec (dict_of d l1) (rec_org r, rec_dst r) r Hnd1) as [Hnd2 Hin2].
  assert (∀ v, ((rec_org r, rec_dst r), v) ∈ dict_set (dict_of d l1) (rec_org r, rec_dst r) r
               → v = r) as Hone.
  { intros v' [[_ ->] | [? _]]%Hin2; done. }
  clear Hin2. revert Hnd2 Hone.
  generalize (dict_set (dict_of d l1) (rec_org r, rec_dst r) r). clear Hnd Hnd1.
  induction l2 as [|r2 l2 IH]; intros d2 Hnd2 Hone; cbn [foldl]; [apply Hone|].
  destruct (dict_set_spec d2 (rec_org r2, rec_dst r2) r2 Hnd2) as [Hnd3 Hin3].
  apply IH; [|done|].
  - intros r' Hr'. apply Hlast. by right.
  - intros v' [[[= Ho Hd] ->] | [_ Hin]]%Hin3; [|by apply Hone].
    exfalso. apply (Hlast r2); [by left | done].
Qed.

Lemma parse_line_dict n kgam d r kgam' d' :
  parse_line n (kgam, d) r = Ok (kgam', d') → d' = dict_set d (rec_org r, rec_dst r) r.
Proof.
  unfold parse_line. destruct (np.index n (rec_org r)); [|done]. cbn [bind].
  destruct (np.index n (rec_dst r)); [|done]. cbn [bind].
  destruct (np.setitem2 _ _ _ _); [|done]. cbn [bind]. by intros [= _ <-].
Qed.

Lemma parse_lines_dict n lines kgam d kgam' d' :
  foldM (parse_line n) lines (kgam, d) = Ok (kgam', d') → d' = dict_of d lines.
Proof.
  revert kgam d. induction lines as [|r lines IH]; intros kgam d; cbn [foldM].
  - by intros [= _ <-].
  - destruct (parse_line n (kgam, d) r) as [[kgam1 d1]|] eqn:Hstep; [|done]. cbn [bind].
    intros Hrest. apply IH in Hrest. apply parse_line_dict in Hstep. by subst.
Qed.

Lemma set_edge_attribute_spec g item :
  item_ok g item →
  set_edge_attribute g item
  = {| nx.adj := nx.adj g; nx.attr := <[item_id item := item_attr item]> (nx.attr g) |}.
Proof.
  destruct item as [[x y] r]. intros (Hx & Hy & Hadj). simpl in *.
  unfold set_edge_attribute, nx.has_edge.
  rewrite !bool_decide_eq_true_2 by done. done.
Qed.

Lemma item_ok_adj g g' item : nx.adj g' = nx.adj g → item_ok g item → item_ok g' item.
Proof.
  unfold item_ok, adjacent, nx.neighbors. by intros ->.
Qed.

(** After [nx.set_edge_attributes], a branch that some item names carries
    the dictionary of one of the items that name it. *)
Lemma set_edge_attributes_item items g id :
  Forall (item_ok g) items →
  (∃ item, item ∈ items ∧ item_id item = id) →
  ∃ item, item ∈ items ∧ item_id item = id ∧
    nx.attr (set_edge_attributes g items) !! id = Some (item_attr item).
Proof.
  induction items as [|last items IH] using rev_ind; intros Hok (item & Hin & Hid).
  - by apply elem_of_nil in Hin.
  - apply Forall_app in Hok as [Hok [Hlast _]%Forall_cons].
    unfold set_edge_attributes in *. rewrite foldl_app. cbn [foldl].
    rewrite set_edge_attribute_spec
      by (eapply item_ok_adj; [apply set_edge_attributes_adj | done]).
    cbn [nx.attr]. destruct (decide (item_id last = id)) as [Hl|Hl].
    + exists last. split; [apply elem_of_app; right; by left|]. split; [done|].
      rewrite <- Hl. apply lookup_insert_eq.
    + rewrite lookup_insert_ne by done.
      destruct (IH Hok) as (item' & Hin' & Hid' & Hattr').
      { apply elem_of_app in Hin as [? | ->%list_elem_of_singleton]; [by exists item | done]. }
      exists item'. split; [apply elem_of_app; by left | done].
Qed.

(** The state of the parser after a well-formed file. *)
Lemma circuit_parser_dict n edgesnumber lines :
  Forall (well_formed_line n) lines →
  ∃ kgam, parsed n lines (kgam, dict_of [] lines) ∧
    circuit_parser (Z.of_nat n) edgesnumber lines
    = Ok (set_edge_attributes (nx.from_pandas_adjacency (λ x, negb (is_zero x)) kgam)
            (dict_of [] lines)).
Proof.
  intros Hwf.
  destruct (parse_lines_parsed n lines [] _ (parsed_start n) Hwf)
    as ([kgam d] & Hparse & Hparsed).
  pose proof (parse_lines_dict _ _ _ _ _ _ Hparse) as ->.
  exists kgam. split; [done|].
  unfold circuit_parser. rewrite decide_False by lia. by rewrite Nat2Z.id, Hparse.
Qed.

Lemma circuit_parser_branch n edgesnumber lines kg u v :
  Forall (well_formed_line n) lines →
  circuit_parser (Z.of_nat n) edgesnumber lines = Ok kg →
  adjacent kg u v →
  ∃ r, r ∈ lines ∧ ((rec_org r, rec_dst r), r) ∈ dict_of [] lines ∧
       (joins r u v ∨ joins r v u) ∧
       edge_attr kg u v = Ok (line_attr r).
Proof.
  intros Hwf Hparse Huv.
  destruct (circuit_parser_well_formed n edgesnumber lines Hwf)
    as (kg' & Hparse' & _ & Hkg & _ & Hadj).
  rewrite Hparse in Hparse'. injection Hparse' as <-.
  destruct (circuit_parser_dict n edgesnumber lines Hwf) as (kgam & Hparsed & Hkg').
  rewrite Hparse in Hkg'. injection Hkg' as Hkg'.
  destruct Hparsed as (_ & _ & Hkeys & Hitems). simpl in Hkeys, Hitems.
  set (kg0 := nx.from_pandas_adjacency (λ x, negb (is_zero x)) kgam) in *.
  assert (∀ r, r ∈ lines → (0 ≤ rec_org r)%Z ∧ (0 ≤ rec_dst r)%Z) as Hpos.
  { intros r Hr. pose proof (proj1 (Forall_forall _ _) Hwf r Hr) as (? & ? & _). lia. }
  assert (Forall (item_ok kg0) (dict_of [] lines)) as Hok.
  { apply Forall_forall. intros [k r] Hin. destruct (Hitems k r Hin) as [-> Hr].
    destruct (Hpos r Hr). split; [done|]. split; [done|]. simpl.
    assert (adjacent kg (Z.to_nat (rec_org r)) (Z.to_nat (rec_dst r))) as Hk.
    { apply Hadj. exists r. split; [done|]. left. unfold joins. lia. }
    unfold adjacent, nx.neighbors in *. by rewrite Hkg', set_edge_attributes_adj in Hk. }
  destruct (set_edge_attributes_item (dict_of [] lines) kg0 (nx.edge_id u v) Hok)
    as ([k r] & Hin & Hid & Hattr).
  { apply Hadj in Huv as (r & Hr & Hj). destruct (Hkeys r Hr) as [r' Hr'].
    exists ((rec_org r, rec_dst r), r'). split; [done|]. unfold item_id. simpl.
    apply edge_id_eq. unfold joins in Hj. lia. }
  destruct (Hitems k r Hin) as [-> Hr]. destruct (Hpos r Hr).
  exists r. split; [done|]. split; [done|]. split.
  - unfold item_id in Hid. simpl in Hid. apply edge_id_eq in Hid. unfold joins. lia.
  - unfold edge_attr, nx.get_edge_data, nx.has_edge.
    rewrite bool_decide_eq_true_2 by done. rewrite Hkg', Hattr. done.
Qed.

(** X10: in the graph of a file whose lines each name two different nodes,
    every branch carries the attributes of one of the lines that name its two
    nodes, read from either end.  When the lines that name the two nodes of a
    line all give them in its order, and none comes after it, the branch
    carries the resistance, source voltage, capacitance and inductance of
    that line, and its reference direction runs from the line's first node to
    its second; so it is for a branch that one line only names. *)
Theorem circuit_parser_attributes (n : nat) (edgesnumber : Z)
    (lines : list BranchRecord) (kg : nx.Graph) :
  Forall (well_formed_line n) lines →
  circuit_parser (Z.of_nat n) edgesnumber lines = Ok kg →
  (∀ u v, adjacent kg u v →
     ∃ r, r ∈ lines ∧ (joins r u v ∨ joins r v u) ∧
          edge_attr kg u v = Ok (line_attr r) ∧ edge_attr kg v u = Ok (line_attr r)) ∧
  (∀ l1 r l2, lines = l1 ++ r :: l2 →
     (∀ r', r' ∈ l1 ++ l2 → same_branch r r' → same_direction r r') →
     (∀ r', r' ∈ l2 → ¬ same_direction r r') →
     edge_attr kg (Z.to_nat (rec_org r)) (Z.to_nat (rec_dst r)) = Ok (line_attr r) ∧
     edge_attr kg (Z.to_nat (rec_dst r)) (Z.to_nat (rec_org r)) = Ok (line_attr r)).
Proof.
  intros Hwf Hparse.
  destruct (circuit_parser_well_formed n edgesnumber lines Hwf)
    as (kg' & Hparse' & _ & Hkg & _ & Hadj).
  rewrite Hparse in Hparse'. injection Hparse' as <-.
  assert (∀ u v d, adjacent kg u v → edge_attr kg u v = Ok d → edge_attr kg v u = Ok d) as Hsym.
  { intros u v d Huv. destruct (simple_adjacent kg u v Hkg Huv) as (_ & _ & _ & Hvu).
    unfold edge_attr, nx.get_edge_data, nx.has_edge.
    rewrite !bool_decide_eq_true_2 by done. by rewrite (edge_id_sym v u). }
  split.
  - intros u v Huv.
    destruct (circuit_parser_branch n edgesnumber lines kg u v Hwf Hparse Huv)
      as (r & Hr & _ & Hj & Hattr).
    exists r. split; [done|]. split; [done|]. split; [done | by apply Hsym].
  - intros l1 r l2 -> Hsame Hlast.
    pose proof (proj1 (Forall_forall _ _) Hwf r ltac:(apply elem_of_app; right; by left))
      as (Hx & Hy & Hne).
    assert (adjacent kg (Z.to_nat (rec_org r)) (Z.to_nat (rec_dst r))) as Huv.
    { apply Hadj. exists r. split; [apply elem_of_app; right; by left|].
      left. unfold joins. lia. }
    destruct (circuit_parser_branch n edgesnumber _ kg _ _ Hwf Hparse Huv)
      as (r' & Hr' & Hin' & Hj & Hattr).
    pose proof (proj1 (Forall_forall _ _) Hwf r' Hr') as (Hx' & Hy' & _).
    assert (same_direction r r') as [Ho Hd].
    { assert (same_branch r r') as Hb.
      { unfold same_branch, same_direction, joins in *. lia. }
      apply elem_of_app in Hr' as [Hr' | [-> | Hr']%elem_of_cons]; [| done |].
      - apply Hsame; [apply elem_of_app; by left | done].
      - apply Hsame; [apply elem_of_app; by right | done]. }
    rewrite <- Ho, <- Hd in Hin'.
    apply dict_of_last in Hin'; [|constructor | done]. subst r'.
    split; [done | by apply Hsym].
Qed.

Lemma circuit_parser_attributes_witness :
  edge_attr triangle 2 0 = Ok (branch 1 0 0 0 (2, 0)) ∧
  edge_attr triangle 0 2 = Ok (branch 1 0 0 0 (2, 0)).
Proof.
  apply (proj2 (circuit_parser_attributes 3 3 triangle_lines triangle
                  triangle_lines_well_formed ltac:(vm_compute; reflexivity))
           [ {| rec_org := 0; rec_dst := 1; rec_resistor := 1; rec_battery := 6;
                rec_capacitor := 0; rec_self := 0 |};
             {| rec_org := 1; rec_dst := 2; rec_resistor := 1; rec_battery := 0;
                rec_capacitor := 0; rec_self := 0 |} ]
           {| rec_org := 2; rec_dst := 0; rec_resistor := 1; rec_battery := 0;
              rec_capacitor := 0; rec_self := 0 |} []).
  - reflexivity.
  - intros r' Hr' Hb. exfalso. rewrite app_nil_r in Hr'.
    unfold same_branch, same_direction in Hb.
    repeat (apply elem_of_cons in Hr' as [-> | Hr']; [simpl in Hb; lia|]).
    by apply elem_of_nil in Hr'.
  - by intros r' Hr'%elem_of_nil.
Defined.

(** ** The label of a branch *)

Lemma append_nil (s t : string) : (s +:+ t)%string = ""%string → s = ""%string ∧ t = ""%string.
Proof.
  destruct s as [|a s]; intros H.
  - split; [done | exact H].
  - exfalso. change (String a (s +:+ t) = ""%string) in H. discriminate H.
Qed.

(** X11: the label [str_on_edge] makes is empty exactly when the four
    values of the branch are all zero. *)
Theorem str_on_edge_empty (str : float → string) (a b c d : float) :
  str_on_edge str a b c d = ""%string ↔
  is_zero a = true ∧ is_zero b = true ∧ is_zero c = true ∧ is_zero d = true.
Proof.
  unfold str_on_edge. split.
  - destruct (is_zero d); simpl; [|by intros [_ [=]]%append_nil].
    destruct (is_zero c); simpl; [|by intros [_ [=]]%append_nil].
    destruct (is_zero b); simpl; [|by intros [_ [=]]%append_nil].
    destruct (is_zero a); simpl; [done | by intros [_ [=]]%append_nil].
  - by intros (-> & -> & -> & ->).
Qed.

(** ** The rounded currents *)

Lemma round_kg_edges_weights_loop round3 (dummy : list (list float)) pre rest :
  length dummy = length rest →
  foldM (round_kg_edges_weights_step round3) dummy
    (length pre, ((λ x, [round3 x]) <$> pre) ++ ((λ x, [x]) <$> rest))
  = Ok (length pre + length rest, (λ x, [round3 x]) <$> (pre ++ rest)).
Proof.
  revert pre rest. induction dummy as [|ele dummy IH]; intros pre rest Hlen.
  - destruct rest; [|done]. cbn [foldM fmap list_fmap length].
    by rewrite !app_nil_r, Nat.add_0_r.
  - destruct rest as [|x rest]; [done|]. cbn [foldM round_kg_edges_weights_step].
    assert (length ((λ x, [round3 x]) <$> pre) = length pre) as Hpre by apply length_fmap.
    set (L := ((λ x, [round3 x]) <$> pre) ++ ((λ x, [x]) <$> x :: rest)).
    assert (L !! length pre = Some [x]) as Hrow.
    { unfold L. rewrite lookup_app_r by lia. by rewrite Hpre, Nat.sub_diag. }
    unfold np.getitem2, np.getitem at 1. rewrite Hrow. cbn [bind].
    unfold np.getitem at 1. cbn [lookup list_lookup bind].
    rewrite (setitem2_intro L (length pre) 0 (round3 x) [x]) by (done || simpl; lia).
    cbn [bind].
    assert (<[length pre := <[0 := round3 x]> [x]]> L
            = ((λ x, [round3 x]) <$> (pre ++ [x])) ++ ((λ x, [x]) <$> rest)) as ->.
    { unfold L. rewrite <- Hpre at 1. rewrite insert_app_r_alt by lia.
      rewrite Nat.sub_diag, fmap_app, <- app_assoc. done. }
    replace (length pre + 1) with (length (pre ++ [x])) by (rewrite length_app; simpl; lia).
    rewrite IH by (simpl in Hlen; lia).
    rewrite length_app, <- app_assoc. simpl. do 2 f_equal. lia.
Qed.

Lemma round_kg_edges_weights_column round3 (l : list float) :
  round_kg_edges_weights round3 ((λ x, [x]) <$> l) = Ok ((λ x, [round3 x]) <$> l).
Proof.
  unfold round_kg_edges_weights.
  pose proof (round_kg_edges_weights_loop round3 ((λ x, [x]) <$> l) [] l) as H.
  simpl in H. rewrite H by apply length_fmap. done.
Qed.

(** ** The directions of the currents *)

Lemma ltb_zero_asym (y : float) : PrimFloat.ltb 0 y = true → PrimFloat.ltb y 0 = false.
Proof.
  rewrite !ltb_spec. change (Prim2SF 0) with (S754_zero false).
  destruct (Prim2SF y) as [s | s | | s m e]; simpl; try done; by destruct s.
Qed.

Lemma ltb_opp_zero (y : float) : PrimFloat.ltb 0 y = false → PrimFloat.ltb (- y) 0 = false.
Proof.
  rewrite !ltb_spec, opp_spec. change (Prim2SF 0) with (S754_zero false).
  destruct (Prim2SF y) as [s | s | | s m e]; simpl; try done; by destruct s.
Qed.

Lemma drawn_not_negative dir y : PrimFloat.ltb (drawn dir y).2 0 = false.
Proof.
  unfold drawn. destruct (PrimFloat.ltb 0 y) eqn:Hy; simpl.
  - by apply ltb_zero_asym.
  - by apply ltb_opp_zero.
Qed.

Lemma direct_edge_drawn edw i dkg dir y :
  edw !! i = Some [y] →
  direct_edge edw (i, dkg) dir
  = Ok (i + 1, add_weighted_edge dkg (drawn dir y).1.1 (drawn dir y).1.2 (drawn dir y).2).
Proof.
  intros Hrow. unfold direct_edge, np.getitem2, np.getitem at 1. rewrite Hrow. cbn [bind].
  unfold np.getitem. cbn [lookup list_lookup bind]. unfold drawn.
  by destruct (PrimFloat.ltb 0 y).
Qed.

Lemma edge_id_eq_min_max a b (e : nat * nat) :
  nx.edge_id a b = e → e.1 < e.2 → (e.1 = a ∧ e.2 = b) ∨ (e.1 = b ∧ e.2 = a).
Proof. unfold nx.edge_id. intros <-. simpl. lia. Qed.

Section plot.
Context (kg : nx.Graph).
Context (Hkg : simple kg) (Hattr : attributed kg).

Lemma reference_direction_edge c e :
  nx.edges kg !! c = Some e →
  e.1 < e.2 ∧ adjacent kg e.1 e.2 ∧
  ∃ d, branch_attr kg e = Some d ∧ reference_direction kg e = suggested_dir d ∧
       (suggested_dir d = e ∨ suggested_dir d = (e.2, e.1)).
Proof.
  intros He.
  pose proof (proj1 (Forall_lookup _ _) (edges_range kg Hkg) _ _ He) as (_ & _ & Hlt).
  assert (e ∈ nx.edges kg) as Hin by (by eapply list_elem_of_lookup_2).
  destruct e as [u v]. apply elem_of_edges in Hin as [Huv _]. fold (adjacent kg u v) in Huv.
  split; [done|]. split; [done|].
  destruct (attributed_adjacent kg u v Hattr Huv) as (d & Hd & Hdir).
  exists d. unfold reference_direction, branch_attr. cbn [fst snd]. rewrite Hd. done.
Qed.

Lemma drawn_key dir y : (drawn dir y).1 = dir ∨ (drawn dir y).1 = (dir.2, dir.1).
Proof. unfold drawn. destruct (PrimFloat.ltb 0 y); [by left | by right]. Qed.

(** The edge drawn for a branch joins the nodes of the branch. *)
Lemma drawn_id c e y :
  nx.edges kg !! c = Some e →
  nx.edge_id (drawn (reference_direction kg e) y).1.1 (drawn (reference_direction kg e) y).1.2 = e ∧
  (drawn (reference_direction kg e) y).1.1 ≠ (drawn (reference_direction kg e) y).1.2.
Proof.
  intros He. destruct (reference_direction_edge c e He) as (Hlt & _ & d & _ & -> & Hdir).
  destruct e as [u v]. simpl in *. unfold nx.edge_id.
  destruct (drawn_key (suggested_dir d) y) as [-> | ->], Hdir as [-> | ->]; simpl;
    (split; [f_equal; lia | lia]).
Qed.

Lemma get_edge_attributes_suggested_dir :
  get_edge_attributes kg suggested_dir = reference_direction kg <$> nx.edges kg.
Proof.
  unfold get_edge_attributes.
  assert (∀ c e, nx.edges kg !! c = Some e →
            suggested_dir <$> nx.attr kg !! nx.edge_id e.1 e.2
            = Some (reference_direction kg e)) as Hall.
  { intros c e He. destruct (reference_direction_edge c e He) as (_ & _ & d & Hd & -> & _).
    unfold branch_attr in Hd. by rewrite Hd. }
  revert Hall. generalize (nx.edges kg). intros es Hall.
  induction es as [|e es IH]; [done|]. cbn [omap list_omap fmap list_fmap].
  rewrite (Hall 0 e eq_refl). cbn. f_equal. apply IH. intros c e' He'. by apply (Hall (S c)).
Qed.

Lemma plot_loop (ys : list float) rest visited dkg :
  nx.edges kg = visited ++ rest → length ys = nx.number_of_edges kg →
  drawn_upto kg ys (length visited) dkg →
  ∃ dkg', foldM (direct_edge ((λ x, [x]) <$> ys)) (reference_direction kg <$> rest)
            (length visited, dkg) = Ok (nx.number_of_edges kg, dkg') ∧
    drawn_upto kg ys (nx.number_of_edges kg) dkg'.
Proof.
  intros Hes Hys. revert visited dkg Hes. induction rest as [|e rest IH]; intros visited dkg Hes Hinv.
  - rewrite app_nil_r in Hes. exists dkg. unfold nx.number_of_edges. rewrite Hes. done.
  - set (i := length visited).
    assert (nx.edges kg !! i = Some e) as He.
    { rewrite Hes. unfold i. by rewrite lookup_app_r, Nat.sub_diag by lia. }
    destruct (lookup_lt_is_Some_2 ys i) as [y Hy].
    { rewrite Hys. by eapply lookup_lt_Some. }
    cbn [fmap list_fmap foldM].
    rewrite (direct_edge_drawn _ i dkg _ y) by (by rewrite list_lookup_fmap, Hy).
    cbn [bind].
    set (k := (drawn (reference_direction kg e) y).1).
    set (w := (drawn (reference_direction kg e) y).2).
    destruct (drawn_id i e y He) as [Hid Hne]. fold k in Hid, Hne.
    assert (NoDup (nx.edges kg)) as Hnd.
    { apply NoDup_edges. intros u. by apply simple_NoDup. }
    assert (∀ c e' y', c < i → nx.edges kg !! c = Some e' →
              (drawn (reference_direction kg e') y').1 ≠ k ∧
              (drawn (reference_direction kg e') y').1 ≠ (k.2, k.1) ∧
              ((drawn (reference_direction kg e') y').1.2,
               (drawn (reference_direction kg e') y').1.1) ≠ k) as Hother.
    { intros c e' y' Hc He'. destruct (drawn_id c e' y' He') as [Hid' _].
      assert (e' ≠ e) as Hee.
      { intros ->. pose proof (NoDup_lookup _ _ _ _ Hnd He He'). lia. }
      rewrite <- Hid, <- Hid' in Hee.
      split; [|split]; intros Heq; apply Hee.
      - by rewrite Heq.
      - rewrite Heq. cbn [fst snd]. apply edge_id_sym.
      - rewrite <- Heq. cbn [fst snd]. apply edge_id_sym. }
    replace (i + 1) with (length (visited ++ [e])) by (rewrite length_app; simpl; unfold i; lia).
    apply IH; [by rewrite <- app_assoc|].
    rewrite length_app. simpl. fold i.
    destruct Hinv as (HA & HB & HC). split; [|split].
    + intros c e' y' Hc He' Hy'. cbn [add_weighted_edge dweights].
      replace (k.1, k.2) with k by (by destruct k).
      destruct (decide (c = i)) as [->|Hci].
      * rewrite He in He'. injection He' as <-. rewrite Hy in Hy'. injection Hy' as <-.
        fold k w. rewrite lookup_insert_eq. split; [done|].
        rewrite lookup_insert_ne by (destruct k; simpl in *; intros [= ? ?]; lia).
        destruct (dweights dkg !! (k.2, k.1)) as [w'|] eqn:Hw'; [|done]. exfalso.
        destruct (HB _ _ Hw') as (c' & e' & y' & Hc' & He' & _ & Heq).
        destruct (Hother c' e' y' Hc' He') as (_ & Hno & _). by apply Hno.
      * destruct (Hother c e' y' ltac:(lia) He') as (H1 & H2 & H3).
        rewrite !lookup_insert_ne by done. apply (HA c e' y'); [lia | done..].
    + intros k' w'. cbn [add_weighted_edge dweights].
      replace (k.1, k.2) with k by (by destruct k).
      rewrite lookup_insert_Some. intros [[<- <-] | [_ Hk']].
      * exists i, e, y. split; [lia | done].
      * destruct (HB _ _ Hk') as (c & e' & y' & ? & ? & ? & ?).
        exists c, e', y'. split; [lia | done].
    + intros x. cbn [add_weighted_edge dnodes]. rewrite !elem_of_add_new, HC.
      assert (nx.edge_id k.1 k.2 = e) as Hid' by done.
      destruct (reference_direction_edge i e He) as (Hlt & _).
      apply edge_id_eq_min_max in Hid'; [|done]. split.
      * intros [[(c & e' & ? & ? & ?) | ->] | ->].
        -- exists c, e'. split; [lia | done].
        -- exists i, e. split; [lia|]. split; [done|]. destruct Hid' as [[-> ->] | [-> ->]]; tauto.
        -- exists i, e. split; [lia|]. split; [done|]. destruct Hid' as [[-> ->] | [-> ->]]; tauto.
      * intros (c & e' & Hc & He' & Hx). destruct (decide (c = i)) as [->|Hci].
        -- rewrite He in He'. injection He' as <-.
           destruct Hid' as [[H1 H2] | [H1 H2]]; rewrite H1, H2 in Hx; tauto.
        -- left. left. exists c, e'. split; [lia | done].
Qed.

End plot.

(** X12: for a connected circuit that [find_kg_edges_weights] solves,
    [plot_kirchoffgraph_after_solving] draws every branch as one directed
    edge: along the reference direction of the branch, with the rounded
    current as its weight, when the rounded current is greater than zero, and
    against it, with the negated rounded current, otherwise.  The graph it
    draws has no other edge, no edge in both directions and no weight below
    zero, and its nodes are the nodes of the circuit that have a branch. *)
Theorem plot_directions (round3 : float → float) (kg : nx.Graph) (x : list float) :
  simple kg → connected kg → attributed kg →
  find_kg_edges_weights kg = Ok x →
  ∃ dkg, plot_kirchoffgraph_after_solving round3 kg = Ok dkg ∧
    (∀ c e d y, nx.edges kg !! c = Some e → branch_attr kg e = Some d → x !! c = Some y →
       dweights dkg !! (drawn (suggested_dir d) (round3 y)).1
       = Some (drawn (suggested_dir d) (round3 y)).2 ∧
       dweights dkg !! ((drawn (suggested_dir d) (round3 y)).1.2,
                        (drawn (suggested_dir d) (round3 y)).1.1) = None) ∧
    (∀ k w, dweights dkg !! k = Some w →
       adjacent kg k.1 k.2 ∧ PrimFloat.ltb w 0 = false) ∧
    (∀ w, w ∈ dnodes dkg ↔ ∃ v, adjacent kg w v).
Proof.
  intros Hkg Hconn Hattr Hx.
  assert (length x = nx.number_of_edges kg) as Hlen.
  { destruct (find_kg_edges_weights_cases kg Hkg Hconn Hattr) as [(x' & Hx' & Hlen) | Hx'];
      rewrite Hx in Hx'; [by injection Hx' as <- | done]. }
  destruct (plot_loop kg Hkg Hattr (round3 <$> x) (nx.edges kg) [] empty_digraph)
    as (dkg & Hloop & HA & HB & HC).
  { done. }
  { by rewrite length_fmap. }
  { split; [intros c e y Hc; simpl in Hc; lia|]. split.
    - intros k w Hk. simpl in Hk. by rewrite lookup_empty in Hk.
    - intros w. simpl. split; [by intros ?%elem_of_nil | intros (c & e & Hc & _); lia]. }
  exists dkg. split.
  { unfold plot_kirchoffgraph_after_solving. rewrite Hx. cbn [bind].
    rewrite round_kg_edges_weights_column. cbn [bind].
    rewrite (get_edge_attributes_suggested_dir kg Hkg Hattr).
    assert ((λ y, [round3 y]) <$> x = (λ y, [y]) <$> (round3 <$> x)) as ->
      by (by rewrite <- list_fmap_compose).
    cbn [length] in Hloop. by rewrite Hloop. }
  assert (∀ c e d y, nx.edges kg !! c = Some e → branch_attr kg e = Some d →
            x !! c = Some y →
            dweights dkg !! (drawn (suggested_dir d) (round3 y)).1
            = Some (drawn (suggested_dir d) (round3 y)).2 ∧
            dweights dkg !! ((drawn (suggested_dir d) (round3 y)).1.2,
                             (drawn (suggested_dir d) (round3 y)).1.1) = None) as HA'.
  { intros c e d y He Hd Hy.
    assert (reference_direction kg e = suggested_dir d) as <-
      by (unfold reference_direction; by rewrite Hd).
    apply (HA c e (round3 y)); [by eapply lookup_lt_Some | done|].
    by rewrite list_lookup_fmap, Hy. }
  split; [done|]. split.
  - intros k w Hk. destruct (HB k w Hk) as (c & e & y & Hc & He & Hy & ->).
    destruct (drawn_id kg Hkg Hattr c e y He) as [Hid _].
    destruct (reference_direction_edge kg Hkg Hattr c e He) as (Hlt & Hadj & _).
    destruct (HA c e y Hc He Hy) as [Hw _]. rewrite Hk in Hw. injection Hw as ->.
    split; [|apply drawn_not_negative].
    apply edge_id_eq_min_max in Hid as [[<- <-] | [<- <-]]; [done.. | | done].
    by apply (simple_adjacent kg _ _ Hkg Hadj).
  - intros w. rewrite HC. split.
    + intros (c & [a b] & _ & He & Hw).
      destruct (reference_direction_edge kg Hkg Hattr c _ He) as (_ & Hadj & _).
      simpl in *. destruct Hw as [-> | ->]; [by exists b|].
      exists a. by apply (simple_adjacent kg _ _ Hkg Hadj).
    + intros (v & Hadj). apply (adjacent_linked_edges kg w v Hkg) in Hadj as [Hin | Hin];
        apply list_elem_of_lookup_1 in Hin as [c Hc].
      * exists c, (w, v). split; [by eapply lookup_lt_Some|]. split; [done | by left].
      * exists c, (v, w). split; [by eapply lookup_lt_Some|]. split; [done | by right].
Qed.

Lemma plot_directions_witness :
  ∃ dkg, plot_kirchoffgraph_after_solving (λ y, y) triangle = Ok dkg ∧
    ∀ k w, dweights dkg !! k = Some w → adjacent triangle k.1 k.2 ∧ PrimFloat.ltb w 0 = false.
Proof.
  destruct (plot_directions (λ y, y) triangle [2; 2; 2]%float
              (proj1 triangle_simple) triangle_connected (proj2 triangle_simple))
    as (dkg & Hdkg & _ & Hw & _).
  - vm_compute. reflexivity.
  - exists dkg. split; [exact Hdkg | exact Hw].
Defined.

(** ** The cycles that [find_cycle] returns *)

Lemma walk_app u es1 es2 v :
  walk u (es1 ++ es2) v ↔ ∃ m, walk u es1 m ∧ walk m es2 v.
Proof.
  revert u. induction es1 as [|e es1 IH]; intros u; simpl.
  - split; [intros H; by exists u | by intros (m & -> & H)].
  - rewrite IH. split.
    + intros (Hu & m & H1 & H2). by exists m.
    + intros (m & (Hu & H1) & H2). split; [done|]. by exists m.
Qed.

(** The edges of a walk start at its nodes, all but the last. *)
Lemma walk_sources u es v : walk u es v → es.*1 ++ [v] = u :: es.*2.
Proof.
  revert u. induction es as [|e es IH]; intros u Hw.
  - simpl in *. by subst.
  - destruct Hw as [<- H]. rewrite !fmap_cons. cbn [app]. f_equal. by apply IH.
Qed.

Lemma hd_nodes_of s path : head (nodes_of s path) = Some (hd s path.*2).
Proof. unfold nodes_of. by destruct path. Qed.

Lemma chained_suffix s path' path : path' `suffix_of` path → chained s path → chained s path'.
Proof.
  intros [k ->]. induction k as [|e k IH]; [done|]. simpl. intros [_ H]. by apply IH.
Qed.

(** The path, read from its first edge, is a walk from [s] to its last
    node. *)
Lemma chained_walk s path : chained s path → walk s (reverse path) (hd s path.*2).
Proof.
  induction path as [|e path IH]; simpl; [done|].
  intros [He Hch]. rewrite reverse_cons. apply walk_app.
  exists (hd s path.*2). split; [by apply IH|]. simpl. done.
Qed.

Lemma trim_cons final e rest :
  rest ≠ [] →
  nx.trim final (e :: rest) = if bool_decide (e.1 = final) then e :: rest else nx.trim final rest.
Proof. by destruct rest. Qed.

(** The last loop of [find_cycle] cuts the walk down to a closed one. *)
Lemma trim_closed P s cur final :
  walk s P cur → NoDup (s :: P.*2) → final ∈ s :: P.*2 →
  walk final (nx.trim final (P ++ [(cur, final)])) final ∧
  NoDup (nx.trim final (P ++ [(cur, final)])).*1.
Proof.
  revert s. induction P as [|e P IH]; intros s Hwalk Hnd Hfinal.
  - simpl in *. subst cur. apply list_elem_of_singleton in Hfinal as ->.
    split; [done | apply NoDup_singleton].
  - destruct Hwalk as [He Hwalk]. cbn [app]. rewrite trim_cons by (by destruct P).
    case_bool_decide as Hs.
    + split.
      * split; [done|]. apply walk_app. exists cur. by split.
      * pose proof (walk_sources s (e :: P) cur (conj He Hwalk)) as Hsrc.
        change (e :: P ++ [(cur, final)]) with ((e :: P) ++ [(cur, final)]).
        rewrite fmap_app. simpl. simpl in Hsrc. rewrite Hsrc. done.
    + rewrite fmap_cons in Hnd, Hfinal. apply NoDup_cons in Hnd as [_ Hnd].
      apply elem_of_cons in Hfinal as [-> | Hfinal]; [congruence|].
      by apply (IH e.2).
Qed.

Section dfs_closed.
Context (g : nx.Graph) (s : nat).
Context (Hg : simple g).

(** The search keeps a walk from [s], and ends with one when it finds a
    cycle. *)
Lemma dfs_run_closed fuel stack iters ve path seen active prev :
  dfs_inv g s stack iters ve path seen active prev →
  chained s path →
  dfs_measure g iters stack ≤ fuel →
  ∃ r, nx.consume (nx.edge_dfs_loop fuel g stack iters ve) ∅ path seen active prev = Ok r ∧
       dfs_closed s r.
Proof.
  revert stack iters ve path seen active prev.
  induction fuel as [|fuel IH]; intros stack iters ve path seen active prev Hinv Hch Hfuel;
    destruct stack as [|cur stack].
  - by exists (inr seen).
  - unfold dfs_measure in Hfuel. simpl in Hfuel. lia.
  - by exists (inr seen).
  - rewrite edge_dfs_loop_unfold.
    set (iters1 := match iters !! cur with
                   | Some _ => iters
                   | None => <[cur := nx.neighbors g cur]> iters
                   end).
    assert (dfs_inv g s (cur :: stack) iters1 ve path seen active prev ∧
            dfs_measure g iters1 (cur :: stack) = dfs_measure g iters (cur :: stack) ∧
            is_Some (iters1 !! cur)) as (Hinv1 & Hmeasure & [l Hl]).
    { subst iters1. destruct (iters !! cur) eqn:Hcur.
      - split; [done|]. split; [done|]. by rewrite Hcur.
      - split; [by apply dfs_inv_visit|]. split; [by apply dfs_measure_visit|].
        by rewrite lookup_insert_eq. }
    clearbody iters1. rewrite <- Hmeasure in Hfuel. clear Hinv Hmeasure.
    pose proof (dfs_inv_top _ _ _ _ _ _ _ _ _ _ Hinv1) as Hcurlt.
    cbv zeta. rewrite Hl. destruct l as [|nbr rest].
    + apply IH; [by eapply dfs_inv_pop | done|].
      unfold dfs_measure in *. simpl in Hfuel. lia.
    + pose proof (dfs_measure_next g iters1 cur nbr rest (cur :: stack) Hcurlt Hl) as Hnext.
      case_bool_decide as Hid.
      * apply IH; [by eapply dfs_inv_skip | done | lia].
      * cbn [nx.consume]. rewrite bool_decide_eq_false_2 by set_solver.
        destruct (dfs_sync _ _ _ _ _ _ _ _ _ _ Hinv1) as (path' & -> & Hnodes & Hsuffix).
        cbn [bind].
        pose proof (chained_suffix s path' path Hsuffix Hch) as Hch'.
        assert (hd s path'.*2 = cur) as Hhd.
        { pose proof (hd_nodes_of s path') as Hh. rewrite Hnodes in Hh. by injection Hh. }
        case_bool_decide as Hactive.
        -- eexists. split; [done|]. simpl. exists path', cur.
           split; [done|]. split; [done|]. rewrite Hnodes. split; [|split; [done|]].
           ++ destruct Hinv1 as [[k Hk] Hnodup _ _ _ _ _ _ _ _ _ _ _]. rewrite Hk in Hnodup.
              by apply NoDup_app in Hnodup as (_ & _ & ?).
           ++ by apply elem_of_list_to_set in Hactive.
        -- apply IH.
           ++ eapply dfs_inv_push; try done. by rewrite elem_of_list_to_set in Hactive.
           ++ simpl. done.
           ++ unfold dfs_measure in *. simpl in *. lia.
Qed.

End dfs_closed.

Section find_cycle_closed.
Context (g : nx.Graph).
Context (Hg : simple g) (Hconn : connected g).
Context (Hedges : nx.number_of_nodes g ≤ nx.number_of_edges g).

(** On a connected graph with as many edges as nodes, or more, what
    [find_cycle] returns is a cycle of the graph. *)
Lemma find_cycle_closed :
  ∃ cycle, nx.find_cycle g = Ok cycle ∧ simple_cycle g cycle.
Proof.
  destruct (find_cycle_finds g Hg Hconn Hedges) as (cycle & Hfind & Hne & Hadj & Hids).
  exists cycle. split; [done|]. split; [done|].
  enough ((∃ u, walk u cycle u) ∧ NoDup cycle.*1) as [? ?] by done.
  destruct (dfs_run_closed g 0 Hg (nx.dfs_fuel g) [0] ∅ ∅ [] {[0]} {[0]} None
              (dfs_inv_start g Hconn))
    as (r & Hrun & Hclosed); [done | by rewrite dfs_measure_start|].
  destruct (dfs_run g 0 Hg (nx.dfs_fuel g) [0] ∅ ∅ [] {[0]} {[0]} None
              (dfs_inv_start g Hconn)) as (r' & Hrun' & Hpost);
    [by rewrite dfs_measure_start|].
  rewrite Hrun in Hrun'. injection Hrun' as <-.
  unfold nx.find_cycle, nx.nodes in Hfind.
  destruct (nx.number_of_nodes g) as [|n] eqn:Hn; [destruct Hconn; lia|].
  cbn [seq nx.find_cycle_loop] in Hfind. rewrite bool_decide_eq_false_2 in Hfind by set_solver.
  unfold nx.edge_dfs in Hfind. rewrite Hrun in Hfind. cbn [bind] in Hfind.
  destruct r as [[cyc final]|seen].
  - cbn [bind] in Hfind. injection Hfind as <-.
    destruct Hclosed as (path & cur & -> & Hch & Hnd & Hhd & Hfinal).
    rewrite reverse_cons.
    pose proof (chained_walk 0 path Hch) as Hwalk. rewrite Hhd in Hwalk.
    assert (0 :: (reverse path).*2 = reverse (nodes_of 0 path)) as Hnodes.
    { unfold nodes_of. rewrite reverse_app, fmap_reverse. done. }
    destruct (trim_closed (reverse path) 0 cur final Hwalk) as [Hw Hsrc].
    + rewrite Hnodes. by rewrite reverse_Permutation.
    + rewrite Hnodes. by apply elem_of_reverse.
    + split; [by exists final | done].
  - exfalso. rewrite <- Hn in Hedges. by apply (dfs_no_forest g Hg Hconn Hedges seen).
Qed.

End find_cycle_closed.

(** ** The spanning tree has no cycle *)

Lemma kruskal_labels_app labels es1 es2 :
  kruskal_labels labels (es1 ++ es2) = kruskal_labels (kruskal_labels labels es1) es2.
Proof.
  revert labels. induction es1 as [|[u v] es1 IH]; intros labels; [done|].
  cbn [app kruskal_labels]. case_decide; apply IH.
Qed.

Lemma kruskal_app labels es1 es2 :
  nx.kruskal labels (es1 ++ es2)
  = nx.kruskal labels es1 ++ nx.kruskal (kruskal_labels labels es1) es2.
Proof.
  revert labels. induction es1 as [|[u v] es1 IH]; intros labels; [done|].
  cbn [app nx.kruskal kruskal_labels]. case_decide; [|apply IH].
  cbn [app]. f_equal. apply IH.
Qed.

(** The one of some elements of a list that comes last in it. *)
Lemma latest_position {A} (es ids : list A) :
  ids ≠ [] → (∀ x, x ∈ ids → x ∈ es) →
  ∃ p x, x ∈ ids ∧ es !! p = Some x ∧ ∀ y, y ∈ ids → ∃ q, q ≤ p ∧ es !! q = Some y.
Proof.
  induction ids as [|x ids IH]; intros Hne Hin; [done|].
  destruct (list_elem_of_lookup_1 es x) as [p Hp]; [apply Hin; by left|].
  destruct ids as [|x' ids].
  - exists p, x. split; [by left|]. split; [done|].
    intros y ->%list_elem_of_singleton. by exists p.
  - destruct IH as (p' & z & Hz & Hp' & Hmax); [done | intros y Hy; apply Hin; by right|].
    destruct (decide (p ≤ p')).
    + exists p', z. split; [by right|]. split; [done|].
      intros y [-> | Hy]%elem_of_cons; [by exists p | by apply Hmax].
    + exists p, x. split; [by left|]. split; [done|].
      intros y [-> | Hy]%elem_of_cons; [by exists p|].
      destruct (Hmax y Hy) as (q & ? & ?). exists q. split; [lia | done].
Qed.

Lemma walk_labels (f : nat → nat) a W b :
  (∀ e, e ∈ W → f e.1 = f e.2) → walk a W b → f a = f b.
Proof.
  revert a. induction W as [|e W IH]; intros a Hall; simpl; [by intros ->|].
  intros [<- Hw]. rewrite (Hall e) by (by left). apply IH; [|done].
  intros e' He'. apply Hall. by right.
Qed.

(** No closed walk runs along edges of the spanning tree, each once: the
    edge of the walk that Kruskal's algorithm met last joined two nodes that
    the others had joined before. *)
Lemma mst_no_cycle g C u0 :
  simple g → C ≠ [] → walk u0 C u0 → NoDup (edge_ids C) →
  (∀ e, e ∈ C → adjacent (nx.minimum_spanning_tree g) e.1 e.2) → False.
Proof.
  intros Hg Hne Hwalk Hnd Hadj.
  assert (∀ e, e ∈ C → nx.edge_id e.1 e.2 ∈ nx.mst_edges g) as HM.
  { intros [a b] He. apply Hadj in He. simpl in He. apply adjacent_mst in He; [|done].
    simpl. destruct He as [H|H];
      pose proof (proj1 (Forall_forall _ _) (mst_edges_range g Hg) _ H) as (_ & _ & Hlt);
      simpl in Hlt.
    - replace (nx.edge_id a b) with (a, b); [done|]. unfold nx.edge_id. f_equal; lia.
    - replace (nx.edge_id a b) with (b, a); [done|]. unfold nx.edge_id. f_equal; lia. }
  assert (NoDup (nx.edges g)) as Hes.
  { apply NoDup_edges. intros w. by apply simple_NoDup. }
  destruct (latest_position (nx.edges g) (edge_ids C)) as (p & id & Hid & Hp & Hmax).
  { unfold edge_ids. by destruct C. }
  { intros x (e & -> & He)%list_elem_of_fmap.
    eapply elem_of_sublist; [by apply HM | apply mst_edges_sublist]. }
  apply list_elem_of_fmap in Hid as (c & -> & Hc).
  apply list_elem_of_split in Hc as (C1 & C2 & ->).
  apply walk_app in Hwalk as (m & Hw1 & Hc1 & Hw2). subst m.
  assert (walk c.2 (C2 ++ C1) c.1) as HW by (apply walk_app; by exists u0).
  unfold edge_ids in Hnd. rewrite fmap_app, fmap_cons in Hnd. simpl in Hnd.
  apply NoDup_app in Hnd as (_ & Hc1 & [Hc2 _]%NoDup_cons).
  set (pre := take p (nx.edges g)).
  set (L := kruskal_labels (nx.nodes g) pre).
  assert (Forall (λ e, e.1 < length (nx.nodes g) ∧ e.2 < length (nx.nodes g)) pre) as Hrange.
  { apply Forall_take, edges_range_nodes. done. }
  assert (∀ e, e ∈ C2 ++ C1 → nx.uf_find L e.1 = nx.uf_find L e.2) as Hlabels.
  { intros e He.
    assert (nx.edge_id e.1 e.2 ∈ edge_ids (C1 ++ c :: C2)) as Hin.
    { apply list_elem_of_fmap. exists e. split; [done|].
      apply elem_of_app in He as [?|?]; apply elem_of_app; [right; by right | by left]. }
    assert (nx.edge_id e.1 e.2 ≠ nx.edge_id c.1 c.2) as Hne'.
    { intros Heq. apply elem_of_app in He as [He|He].
      - apply Hc2. rewrite <- Heq. apply list_elem_of_fmap. by exists e.
      - apply (Hc1 (nx.edge_id e.1 e.2)); [apply list_elem_of_fmap; by exists e|].
        rewrite Heq. by left. }
    destruct (Hmax _ Hin) as (q & Hq & Hq').
    assert (q < p) as Hlt.
    { destruct (decide (q = p)) as [->|]; [|lia]. rewrite Hp in Hq'. congruence. }
    assert (nx.edge_id e.1 e.2 ∈ pre) as Hpre.
    { apply elem_of_take. by exists q. }
    pose proof (kruskal_labels_edge (nx.nodes g) pre _ _ Hrange Hpre) as Heq.
    unfold nx.edge_id in Heq.
    destruct (decide (e.1 ≤ e.2)).
    - by rewrite Nat.min_l, Nat.max_r in Heq by lia.
    - by rewrite Nat.min_r, Nat.max_l in Heq by lia. }
  pose proof (walk_labels (nx.uf_find L) _ _ _ Hlabels HW) as Hends.
  pose proof (HM c ltac:(apply elem_of_app; right; by left)) as Hchosen.
  unfold nx.mst_edges in Hchosen.
  rewrite <- (take_drop_middle (nx.edges g) p _ Hp) in Hchosen, Hes.
  fold pre in Hchosen, Hes. rewrite kruskal_app in Hchosen. fold L in Hchosen.
  apply NoDup_app in Hes as (_ & Hpre & [Hpost _]%NoDup_cons).
  apply elem_of_app in Hchosen as [Hchosen | Hchosen].
  - apply (Hpre (nx.edge_id c.1 c.2)); [|by left].
    eapply elem_of_sublist; [done | apply kruskal_sublist].
  - unfold nx.edge_id in Hchosen at 2. cbn [nx.kruskal] in Hchosen.
    rewrite decide_False in Hchosen.
    + apply Hpost. eapply elem_of_sublist; [done | apply kruskal_sublist].
    + intros Hdiff. apply Hdiff.
      destruct (decide (c.1 ≤ c.2)).
      * by rewrite Nat.min_l, Nat.max_r by lia.
      * by rewrite Nat.min_r, Nat.max_l by lia.
Qed.

Lemma Forall2_impl_elem_of {A B} (P Q : A → B → Prop) l k :
  Forall2 P l k → (∀ x y, x ∈ l → P x y → Q x y) → Forall2 Q l k.
Proof.
  induction 1 as [|x y l k Hxy _ IH]; intros HPQ; constructor.
  - apply HPQ; [by left | done].
  - apply IH. intros x' y' Hx'. apply HPQ. by right.
Qed.

(** X13: for a connected circuit, every fundamental cycle is a cycle of the
    circuit: a closed walk, each branch starting at the node where the one
    before ends and the last ending where the first starts, that leaves no
    node twice and takes no branch twice.  The [i]-th cycle passes through
    the [i]-th eliminated (co-tree) branch; all its other branches are
    branches of the spanning tree. *)
Theorem fundamental_cycles_closed (kg : nx.Graph) :
  simple kg → connected kg →
  ∃ eled fcl,
    Eliminated_Edges (nx.to_numpy_array kg)
      (nx.to_numpy_array (nx.minimum_spanning_tree kg)) = Ok eled ∧
    fundamental_cycles kg = Ok fcl ∧
    Forall2 (λ e cycle,
        simple_cycle kg cycle ∧
        (e ∈ cycle ∨ (e.2, e.1) ∈ cycle) ∧
        ∀ e', e' ∈ cycle → e' = e ∨ e' = (e.2, e.1) ∨
                            adjacent (nx.minimum_spanning_tree kg) e'.1 e'.2)
      eled fcl.
Proof.
  intros Hkg Hconn.
  destruct (fundamental_cycles_connected kg Hkg Hconn)
    as (eled & fcl & Heled & [_ Hcotree] & Hfcl & Hall & _).
  exists eled, fcl. split; [done|]. split; [done|].
  eapply Forall2_impl_elem_of; [exact Hall|]. clear Hall.
  intros [a b] cycle Hin Hfind. simpl.
  apply Hcotree in Hin as [[Hadj Hnot] Hab].
  set (t := nx.minimum_spanning_tree kg) in *.
  destruct (simple_adjacent kg a b Hkg Hadj) as (Ha & Hb & _ & Hba).
  pose proof (mst_simple kg Hkg) as Ht. fold t in Ht.
  assert (a < nx.number_of_nodes t ∧ b < nx.number_of_nodes t) as [Ha' Hb']
    by (unfold t; by rewrite number_of_nodes_mst).
  destruct (find_cycle_closed (trial t (a, b))) as (cycle' & Hfind' & Hcycle).
  { by apply trial_simple. }
  { apply trial_connected; [done..|]. by apply mst_connected. }
  { rewrite number_of_nodes_trial, number_of_edges_trial by done.
    pose proof (number_of_edges_mst kg Hkg Hconn). unfold t. rewrite number_of_nodes_mst. lia. }
  rewrite Hfind in Hfind'. injection Hfind' as <-.
  destruct Hcycle as (Hne & [u Hwalk] & Hsrc & Hids & Hedges).
  assert (∀ e', e' ∈ cycle → e' = (a, b) ∨ e' = (b, a) ∨ adjacent t e'.1 e'.2) as Hparts.
  { intros [x y] He. apply Hedges in He. apply adjacent_trial in He; [|done..].
    simpl in *. destruct He as [? | [[-> ->] | [-> ->]]]; tauto. }
  split; [|split; [|done]].
  - split; [done|]. split; [by exists u|]. split; [done|]. split; [done|].
    intros e' He'. destruct (Hparts e' He') as [-> | [-> | H]]; [done | done|].
    by apply adjacent_mst_sub.
  - destruct (decide ((a, b) ∈ cycle)) as [?|Hno1]; [by left|].
    destruct (decide ((b, a) ∈ cycle)) as [?|Hno2]; [by right|].
    exfalso. apply (mst_no_cycle kg cycle u Hkg Hne Hwalk Hids).
    intros e' He'. destruct (Hparts e' He') as [-> | [-> | H]]; done.
Qed.

Lemma fundamental_cycles_closed_witness :
  ∃ eled fcl, fundamental_cycles triangle = Ok fcl ∧
    Forall2 (λ e cycle, simple_cycle triangle cycle ∧ (e ∈ cycle ∨ (e.2, e.1) ∈ cycle))
      eled fcl.
Proof.
  destruct (fundamental_cycles_closed triangle (proj1 triangle_simple) triangle_connected)
    as (eled & fcl & _ & Hfcl & Hall).
  exists eled, fcl. split; [exact Hfcl|].
  eapply Forall2_impl; [exact Hall|]. intros e cycle (H1 & H2 & _). exact (conj H1 H2).
Defined.

(** ** The other columns of the rows of the cycles *)

Section kvl_columns.
Context (kg : nx.Graph).
Context (Hkg : simple kg) (Hattr : attributed kg).

Local Abbreviation E := (nx.number_of_edges kg).

(** The walk along a cycle writes the columns of its branches only. *)
Lemma kvl_walk_columns i cycle volsum A :
  (∀ e, e ∈ cycle → adjacent kg e.1 e.2) → square E A → i < E →
  ∃ volsum' A', foldM (kvl_edge kg i) cycle (volsum, A) = Ok (volsum', A') ∧
    ∀ c, (∀ e, e ∈ cycle → get_edge_index kg e.1 e.2 ≠ Some c) →
         entry A' i c = entry A i c.
Proof.
  intros Hadj HA Hi. revert volsum A HA. induction cycle as [|edge cycle IH]; intros volsum A HA.
  - by exists volsum, A.
  - destruct (kvl_edge_adjacent kg Hkg Hattr i volsum A edge)
      as (c & x & Hc & Hlt & _ & Hstep); [apply Hadj; by left | done..|].
    destruct (IH (λ e He, Hadj e (list_elem_of_further _ _ _ He))
                (voltage_step kg volsum edge)
                (<[i := <[c := x]> (default [] (A !! i))]> A))
      as (volsum' & A' & Hfold & Hcols); [by apply square_insert_entry|].
    exists volsum', A'. cbn [foldM]. rewrite Hstep. cbn [bind]. split; [done|].
    intros c' Hc'. rewrite Hcols by (intros e He; apply Hc'; by right).
    rewrite (entry_insert E) by done. rewrite decide_False; [done|].
    intros [_ ->]. apply (Hc' edge); [by left | done].
Qed.

Lemma kvl_rows_columns fcl i A B :
  Forall (cycle_in kg) fcl → i + length fcl ≤ E → square E A → length B = E →
  ∃ A' B', foldM (kvl_row kg) fcl (i, A, B) = Ok (i + length fcl, A', B') ∧
    ∀ k cycle c, fcl !! k = Some cycle →
      (∀ e, e ∈ cycle → get_edge_index kg e.1 e.2 ≠ Some c) →
      entry A' (i + k) c = entry A (i + k) c.
Proof.
  revert i A B. induction fcl as [|cycle fcl IH]; intros i A B Hall Hlen HA HB.
  - exists A, B. rewrite Nat.add_0_r. split; [done|]. intros k cycle c [=].
  - apply Forall_cons in Hall as [Hcycle Hall]. cbn [length] in Hlen.
    destruct (kvl_row_walk kg Hkg Hattr i cycle A B Hcycle HA HB)
      as (A1 & Hwalk & HA1 & Hframe & _); [lia|].
    destruct (kvl_walk_columns i cycle 0%float A) as (volsum' & A1' & Hfold & Hcols);
      [apply Hcycle | done | lia|].
    assert (A1' = A1) as ->.
    { unfold kvl_row in Hwalk. rewrite Hfold in Hwalk. cbn [bind] in Hwalk.
      unfold np.setitem in Hwalk. rewrite decide_True in Hwalk by lia.
      cbn [bind] in Hwalk. by injection Hwalk. }
    set (B1 := <[i := foldl (voltage_step kg) 0%float cycle]> B) in *.
    assert (length B1 = E) as HB1 by (unfold B1; by rewrite length_insert).
    destruct (IH (i + 1) A1 B1 Hall ltac:(lia) HA1 HB1) as (A' & B' & Hrows & Hrest).
    destruct (kvl_rows kg Hkg Hattr fcl (i + 1) A1 B1 Hall ltac:(lia) HA1 HB1)
      as (A'' & B'' & Hrows' & _ & _ & Hframe' & _).
    rewrite Hrows in Hrows'. injection Hrows' as <- <-.
    exists A', B'. cbn [foldM]. rewrite Hwalk. cbn [bind]. split.
    { rewrite Hrows. do 3 f_equal. cbn [length]. lia. }
    intros [|k] cycle' c Hk Hc.
    + injection Hk as <-. rewrite Nat.add_0_r.
      rewrite (entry_row A' A1) by (apply Hframe'; lia). by apply Hcols.
    + replace (i + S k) with (i + 1 + k) by lia.
      rewrite (Hrest k cycle' c Hk Hc). apply entry_row, Hframe. lia.
Qed.

End kvl_columns.

(** X14: for a connected circuit, the row of a fundamental cycle in [A]
    holds 0 in the column of every branch that is not on the cycle. *)
Theorem kvl_rows_zero_elsewhere (kg : nx.Graph) :
  simple kg → connected kg → attributed kg →
  ∃ fcl A B, fundamental_cycles kg = Ok fcl ∧ assemble kg = Ok (A, B) ∧
    ∀ i cycle c e, fcl !! i = Some cycle → nx.edges kg !! c = Some e →
      e ∉ cycle → (e.2, e.1) ∉ cycle → entry A i c = Some 0%float.
Proof.
  intros Hkg Hconn Hattr.
  destruct (assemble_connected kg Hkg Hconn Hattr)
    as (fcl & A1 & A & B & j & Hfcl & Hcycles & Hcount & Hkvl & _ & Hasm & _ & _ & _ & Hframe & _).
  exists fcl, A, B. split; [done|]. split; [done|].
  intros i cycle c e Hi He Hno1 Hno2.
  pose proof (proj1 Hconn) as Hpos.
  destruct (kvl_rows_columns kg Hkg Hattr fcl 0
              (np.zeros 0%float (nx.number_of_edges kg) (nx.number_of_edges kg))
              (replicate (nx.number_of_edges kg) 0%float))
    as (A1' & B' & Hkvl' & Hcols);
    [done | lia | apply square_zeros | apply length_replicate|].
  simpl in Hkvl'. rewrite Hkvl in Hkvl'. injection Hkvl' as <- <-.
  assert (i < length fcl) as Hlt by (by eapply lookup_lt_Some).
  assert (c < nx.number_of_edges kg) as Hc by (by eapply lookup_lt_Some).
  rewrite (entry_row A A1) by (by apply Hframe).
  specialize (Hcols i cycle c Hi). cbn [Nat.add] in Hcols. rewrite Hcols.
  - apply zeros_entry; lia.
  - intros e' He' Hidx. apply get_edge_index_Some in Hidx as (e'' & He'' & Hm & _).
    rewrite He in He''. injection He'' as <-.
    destruct e as [u v], e' as [u' v']. unfold matches in Hm. simpl in *.
    destruct Hm as [[-> ->] | [-> ->]]; done.
Qed.

Lemma kvl_rows_zero_elsewhere_witness :
  ∃ fcl A B, fundamental_cycles pendant = Ok fcl ∧ assemble pendant = Ok (A, B) ∧
    ∀ i cycle, fcl !! i = Some cycle → (2, 3) ∉ cycle → (3, 2) ∉ cycle →
      entry A i 3 = Some 0%float.
Proof.
  destruct pendant_connected as (Hs & Ha & Hc).
  destruct (kvl_rows_zero_elsewhere pendant Hs Hc Ha) as (fcl & A & B & Hfcl & Hasm & Hzero).
  exists fcl, A, B. split; [exact Hfcl|]. split; [exact Hasm|].
  intros i cycle Hi H1 H2. apply (Hzero i cycle 3 (2, 3) Hi); [reflexivity | exact H1 | exact H2].
Defined.

(** X15: the graph [nx.minimum_spanning_tree] makes of a graph without
    self-loops has no cycle: no closed walk of at least one edge runs along
    its edges without taking one twice. *)
Theorem spanning_tree_acyclic (g : nx.Graph) (cycle : list (nat * nat)) (u : nat) :
  simple g → cycle ≠ [] → walk u cycle u → NoDup (edge_ids cycle) →
  ¬ ∀ e, e ∈ cycle → adjacent (nx.minimum_spanning_tree g) e.1 e.2.
Proof. intros Hg Hne Hwalk Hnd Hadj. by apply (mst_no_cycle g cycle u). Qed.

Lemma spanning_tree_acyclic_witness :
  ¬ ∀ e, e ∈ [(0, 1); (1, 2); (2, 0)] →
         adjacent (nx.minimum_spanning_tree triangle) e.1 e.2.
Proof.
  apply (spanning_tree_acyclic triangle [(0, 1); (1, 2); (2, 0)] 0).
  - exact (proj1 triangle_simple).
  - discriminate.
  - simpl. tauto.
  - vm_compute. repeat constructor; intros H; repeat (apply elem_of_cons in H as [H | H]; [discriminate H|]); by apply elem_of_nil in H.
Defined.

(** ** Slices of arrays *)

Lemma ceil_div_le x s : 0 < s → x ≤ (x + s - 1) `div` s * s.
Proof.
  intros Hs. pose proof (Nat.div_mod_eq (x + s - 1) s) as Hdm.
  pose proof (Nat.mod_upper_bound (x + s - 1) s). nia.
Qed.

Lemma ceil_div_lt x s a : 0 < s → a < (x + s - 1) `div` s → a * s < x.
Proof.
  intros Hs Ha. pose proof (Nat.div_mod_eq (x + s - 1) s) as Hdm.
  pose proof (Nat.mod_upper_bound (x + s - 1) s). nia.
Qed.

(** An index the slice selects, and its place. *)
Lemma slice_pos_Some s len i a :
  0 < sl_step s → slice_pos s len i = Some a →
  a < slice_len s len ∧ i = sl_start s + a * sl_step s ∧ i < len.
Proof.
  intros Hs. unfold slice_pos, slice_len. case_decide as H; [|done]. intros [= <-].
  destruct H as (H1 & H2 & H3).
  pose proof (Nat.div_mod_eq (i - sl_start s) (sl_step s)) as Hdm. rewrite H3 in Hdm.
  split; [|split; [nia | lia]].
  pose proof (ceil_div_le (sl_stop s `min` len - sl_start s) (sl_step s) Hs) as Hceil.
  destruct (decide ((i - sl_start s) `div` sl_step s
                    < (sl_stop s `min` len - sl_start s + sl_step s - 1) `div` sl_step s));
    [done|]. exfalso. nia.
Qed.

Lemma slice_pos_index s len a :
  0 < sl_step s → a < slice_len s len →
  sl_start s + a * sl_step s < len ∧
  slice_pos s len (sl_start s + a * sl_step s) = Some a.
Proof.
  intros Hs Ha. unfold slice_len in Ha. apply ceil_div_lt in Ha; [|done].
  split; [lia|]. unfold slice_pos.
  replace (sl_start s + a * sl_step s - sl_start s) with (a * sl_step s) by lia.
  rewrite Nat.Div0.mod_mul, Nat.div_mul by lia.
  rewrite decide_True; [done|]. split; [lia|]. split; [lia | done].
Qed.

Lemma length_getitem_slice {A} (l : list A) s :
  0 < sl_step s → length (getitem_slice l s) = slice_len s (length l).
Proof.
  intros Hs. unfold getitem_slice.
  assert (∀ n, n ≤ slice_len s (length l) →
            length (omap (λ a, l !! (sl_start s + a * sl_step s)) (seq 0 n)) = n) as H.
  { induction n as [|n IH]; intros Hn; [done|].
    rewrite seq_S, omap_app, length_app, IH by lia. simpl.
    destruct (slice_pos_index s (length l) n Hs ltac:(lia)) as [Hlt _].
    destruct (lookup_lt_is_Some_2 l _ Hlt) as [x ->]. simpl. lia. }
  by apply H.
Qed.

Lemma lookup_getitem_slice {A} (l : list A) s a :
  0 < sl_step s → a < slice_len s (length l) →
  getitem_slice l s !! a = l !! (sl_start s + a * sl_step s).
Proof.
  intros Hs. unfold getitem_slice.
  assert (∀ n, n ≤ slice_len s (length l) → a < n →
            omap (λ a, l !! (sl_start s + a * sl_step s)) (seq 0 n) !! a
            = l !! (sl_start s + a * sl_step s)) as H.
  { induction n as [|n IH]; intros Hn Ha; [lia|].
    assert (length (omap (λ a, l !! (sl_start s + a * sl_step s)) (seq 0 n)) = n) as Hlen.
    { clear IH Ha. induction n as [|n IH]; [done|].
      rewrite seq_S, omap_app, length_app, IH by lia. simpl.
      destruct (slice_pos_index s (length l) n Hs ltac:(lia)) as [Hlt _].
      destruct (lookup_lt_is_Some_2 l _ Hlt) as [x ->]. simpl. lia. }
    rewrite seq_S, omap_app. destruct (decide (a = n)) as [->|Hne].
    - rewrite lookup_app_r by lia. rewrite Hlen, Nat.sub_diag. simpl.
      destruct (slice_pos_index s (length l) n Hs ltac:(lia)) as [Hlt _].
      destruct (lookup_lt_is_Some_2 l _ Hlt) as [x Hx]. by rewrite Hx.
    - rewrite lookup_app_l by lia. apply IH; lia. }
  intros Ha. by apply H.
Qed.

Lemma rect_lookup {A} r c (M : list (list A)) i :
  rect r c M → i < r → ∃ row, M !! i = Some row ∧ length row = c.
Proof.
  intros [Hlen Hrows] Hi. destruct (lookup_lt_is_Some_2 M i) as [row Hrow]; [lia|].
  exists row. split; [done|]. by eapply (Forall_lookup_1 _ _ _ _ Hrows).
Qed.

Lemma rect_entry {A} r c (M : list (list A)) i j :
  rect r c M → is_Some (entry M i j) ↔ i < r ∧ j < c.
Proof.
  intros HM. unfold entry. split.
  - destruct (M !! i) as [row|] eqn:Hrow; simpl; [|by intros [? [=]]].
    intros Hj%lookup_lt_is_Some. destruct HM as [<- Hrows].
    split; [by eapply lookup_lt_Some|].
    by rewrite <- (Forall_lookup_1 _ _ _ _ Hrows Hrow).
  - intros [Hi Hj]. destruct (rect_lookup r c M i HM Hi) as (row & -> & Hlen). simpl.
    apply lookup_lt_is_Some. lia.
Qed.

Lemma rect_ncols {A} r c (M : list (list A)) : rect r c M → 0 < r → ncols M = c.
Proof.
  intros [Hlen Hrows] Hr. unfold ncols. destruct M as [|row M]; [simpl in Hlen; lia|].
  simpl. by apply Forall_cons in Hrows as [? _].
Qed.

(** The selection of two slices. *)
Lemma getitem_slices_rect {A} r c (M : list (list A)) rs cs :
  rect r c M → 0 < sl_step rs → 0 < sl_step cs →
  rect (slice_len rs r) (slice_len cs c) (getitem_slices M rs cs) ∧
  ∀ a b, a < slice_len rs r → b < slice_len cs c →
    entry (getitem_slices M rs cs) a b
    = entry M (sl_start rs + a * sl_step rs) (sl_start cs + b * sl_step cs).
Proof.
  intros HM Hrs Hcs. pose proof HM as [Hlen Hrows]. unfold getitem_slices.
  assert (∀ a, a < slice_len rs r →
            ∃ row, M !! (sl_start rs + a * sl_step rs) = Some row ∧ length row = c ∧
                   getitem_slice M rs !! a = Some row) as Hrow.
  { intros a Ha. rewrite <- Hlen in Ha.
    destruct (slice_pos_index rs (length M) a Hrs Ha) as [Hlt _].
    destruct (rect_lookup r c M (sl_start rs + a * sl_step rs) HM ltac:(lia))
      as (row & Hrow & Hc).
    exists row. split; [done|]. split; [done|]. by rewrite lookup_getitem_slice. }
  split; [split|].
  - by rewrite length_fmap, length_getitem_slice, Hlen.
  - apply Forall_fmap, Forall_lookup. intros a row Ha. simpl.
    assert (a < slice_len rs r) as Hlt.
    { apply lookup_lt_Some in Ha. by rewrite length_getitem_slice, Hlen in Ha. }
    destruct (Hrow a Hlt) as (row' & _ & Hc & Hrow'). rewrite Ha in Hrow'.
    injection Hrow' as <-. by rewrite length_getitem_slice, Hc.
  - intros a b Ha Hb. destruct (Hrow a Ha) as (row & HMrow & Hc & Hsel).
    unfold entry. rewrite list_lookup_fmap, Hsel, HMrow. simpl.
    apply lookup_getitem_slice; [done | by rewrite Hc].
Qed.

(** The assignment to the selection of two slices. *)
Lemma setitem_slices_rect {A} r c (M V : list (list A)) rs cs :
  rect r c M → ncols M = c → 0 < sl_step rs → 0 < sl_step cs →
  rect (slice_len rs r) (slice_len cs c) V →
  ∃ M', setitem_slices M rs cs V = Ok M' ∧ rect r c M' ∧
    ∀ i j, i < r → j < c →
      entry M' i j =
      match slice_pos rs r i, slice_pos cs c j with
      | Some a, Some b => entry V a b
      | _, _ => entry M i j
      end.
Proof.
  intros HM Hc Hrs Hcs HV. pose proof HM as [Hlen Hrows]. pose proof HV as [HVlen HVrows].
  unfold setitem_slices. rewrite bool_decide_eq_true_2 by (by rewrite Hlen, Hc).
  eexists. split; [done|]. split; [split|].
  - by rewrite length_imap.
  - apply Forall_lookup. intros i row. rewrite list_lookup_imap.
    destruct (M !! i) as [row0|] eqn:Hrow0; [|done]. simpl. intros [= <-].
    pose proof (Forall_lookup_1 _ _ _ _ Hrows Hrow0) as Hrow0len. simpl in Hrow0len.
    destruct (slice_pos rs (length M) i); [by rewrite length_imap | done].
  - intros i j Hi Hj. destruct (rect_lookup r c M i HM Hi) as (row & Hrow & Hrowlen).
    destruct (lookup_lt_is_Some_2 row j ltac:(lia)) as [x Hx].
    assert (entry M i j = Some x) as -> by (unfold entry; by rewrite Hrow).
    unfold entry at 1. rewrite list_lookup_imap, Hrow. simpl. rewrite Hlen.
    destruct (slice_pos rs r i) as [a|] eqn:Ha; [|done].
    rewrite list_lookup_imap, Hx. simpl. rewrite Hrowlen.
    destruct (slice_pos cs c j) as [b|] eqn:Hb; [|done].
    apply slice_pos_Some in Ha as (Ha & _); [|done].
    apply slice_pos_Some in Hb as (Hb & _); [|done].
    destruct (proj2 (rect_entry _ _ V a b HV) (conj Ha Hb)) as [v Hv].
    by rewrite Hv.
Qed.

Lemma np_empty_rect {A} (memory : nat → nat → A) r c :
  rect r c (np_empty memory r c) ∧
  ∀ i j, i < r → j < c → entry (np_empty memory r c) i j = Some (memory i j).
Proof.
  unfold np_empty. split; [split|].
  - by rewrite length_fmap, length_seq.
  - apply Forall_fmap, Forall_forall. intros i _. simpl. by rewrite length_fmap, length_seq.
  - intros i j Hi Hj. unfold entry. rewrite list_lookup_fmap, lookup_seq_lt by done. simpl.
    by rewrite list_lookup_fmap, lookup_seq_lt.
Qed.

Lemma slice_pos_spec s len i a :
  0 < sl_step s →
  slice_pos s len i = Some a ↔ a < slice_len s len ∧ i = sl_start s + a * sl_step s.
Proof.
  intros Hs. split.
  - intros H. by destruct (slice_pos_Some s len i a Hs H) as (? & ? & _).
  - intros [Ha ->]. by apply slice_pos_index.
Qed.

Lemma slice_pos_None s len i :
  0 < sl_step s →
  (∀ a, a < slice_len s len → i ≠ sl_start s + a * sl_step s) →
  slice_pos s len i = None.
Proof.
  intros Hs Hno. destruct (slice_pos s len i) as [a|] eqn:Ha; [|done].
  apply slice_pos_spec in Ha as [Ha ->]; [|done]. by destruct (Hno a Ha).
Qed.

Lemma div2_unique x q r : x = 2 * q + r → r < 2 → x `div` 2 = q.
Proof. intros -> Hr. symmetry. by apply (Nat.div_unique _ 2 q r). Qed.

(** The slices [0::2] and [1::2] of an axis of even length. *)
Lemma slice_len_even n :
  slice_len {| sl_start := 0; sl_stop := 2 * n; sl_step := 2 |} (2 * n) = n.
Proof. unfold slice_len. simpl. apply (div2_unique _ n 1); lia. Qed.

Lemma slice_len_odd n :
  slice_len {| sl_start := 1; sl_stop := 2 * n; sl_step := 2 |} (2 * n) = n.
Proof.
  unfold slice_len. simpl. destruct n; [done|]. apply (div2_unique _ (S n) 0); lia.
Qed.

Lemma slice_pos_even_even n i :
  i < n → slice_pos {| sl_start := 0; sl_stop := 2 * n; sl_step := 2 |} (2 * n) (2 * i) = Some i.
Proof.
  intros Hi. apply slice_pos_spec; [simpl; lia|]. rewrite slice_len_even. simpl. lia.
Qed.

Lemma slice_pos_even_odd n i :
  slice_pos {| sl_start := 0; sl_stop := 2 * n; sl_step := 2 |} (2 * n) (2 * i + 1) = None.
Proof. apply slice_pos_None; [simpl; lia|]. intros a _. simpl. lia. Qed.

Lemma slice_pos_odd_odd n i :
  i < n →
  slice_pos {| sl_start := 1; sl_stop := 2 * n; sl_step := 2 |} (2 * n) (2 * i + 1) = Some i.
Proof.
  intros Hi. apply slice_pos_spec; [simpl; lia|]. rewrite slice_len_odd. simpl. lia.
Qed.

Lemma slice_pos_odd_even n i :
  slice_pos {| sl_start := 1; sl_stop := 2 * n; sl_step := 2 |} (2 * n) (2 * i) = None.
Proof. apply slice_pos_None; [simpl; lia|]. intros a _. simpl. lia. Qed.

Lemma entry_fmap {A B} (f : A → B) (M : list (list A)) i j :
  entry ((λ row : list A, f <$> row) <$> M) i j = f <$> entry M i j.
Proof.
  unfold entry. rewrite list_lookup_fmap. destruct (M !! i) as [row|]; [|done]. simpl.
  by rewrite list_lookup_fmap.
Qed.

Lemma rect_fmap {A B} (f : A → B) r c (M : list (list A)) :
  rect r c M → rect r c ((λ row : list A, f <$> row) <$> M).
Proof.
  intros [Hlen Hrows]. split; [by rewrite length_fmap|].
  apply Forall_fmap. eapply Forall_impl; [done|]. intros row Hrow. simpl.
  by rewrite length_fmap.
Qed.

Lemma rect_ncols_empty {A} r c (M : list (list A)) :
  rect r c M → (r = 0 → c = 0) → ncols M = c.
Proof.
  intros HM Hc. destruct (decide (r = 0)) as [->|].
  - destruct HM as [Hlen _]. destruct M; [|done]. unfold ncols. simpl. by rewrite Hc.
  - apply (rect_ncols r c); [done | lia].
Qed.

(** X16: [_complex_to_real_jac] makes of an array of [n] rows and [m]
    columns of complex numbers an array of [2n] rows and [2m] columns in which
    the number [a + ib] at the place [(i, j)] has become the block
    [[a, -b], [b, a]] at the place [(2i, 2j)]; every entry of the array it
    returns is one of these, so none is left as [np.empty] found it. *)
Theorem complex_to_real_jac_blocks (memory : nat → nat → float)
    (jac : list (list (float * float))) :
  Forall (λ row, length row = ncols jac) jac →
  ∃ real_jac, _complex_to_real_jac memory jac = Ok real_jac ∧
    rect (2 * length jac) (2 * ncols jac) real_jac ∧
    ∀ i j z, entry jac i j = Some z →
      entry real_jac (2 * i) (2 * j) = Some z.1 ∧
      entry real_jac (2 * i + 1) (2 * j + 1) = Some z.1 ∧
      entry real_jac (2 * i) (2 * j + 1) = Some (- z.2)%float ∧
      entry real_jac (2 * i + 1) (2 * j) = Some z.2.
Proof.
  intros Hrows. set (n := length jac). set (m := ncols jac).
  assert (rect n m jac) as Hjac by done.
  assert (n = 0 → m = 0) as Hm.
  { intros Hn. unfold m, ncols. destruct jac; [done | discriminate Hn]. }
  unfold _complex_to_real_jac. cbv zeta. fold n m.
  set (real := (λ row : list (float * float), fst <$> row) <$> jac).
  set (imag := (λ row : list (float * float), snd <$> row) <$> jac).
  set (nimag := (λ row : list float, PrimFloat.opp <$> row) <$> imag).
  assert (rect n m real) as Hreal by (by apply rect_fmap).
  assert (rect n m imag) as Himag by (by apply rect_fmap).
  assert (rect n m nimag) as Hnimag by (by apply rect_fmap).
  destruct (np_empty_rect memory (2 * n) (2 * m)) as [HM0 _].
  assert (∀ M : list (list float), rect (2 * n) (2 * m) M → ncols M = 2 * m) as Hncols.
  { intros M HM. apply (rect_ncols_empty (2 * n)); [done | lia]. }
  destruct (setitem_slices_rect (2 * n) (2 * m) _ real {| sl_start := 0; sl_stop := 2 * n; sl_step := 2 |} {| sl_start := 0; sl_stop := 2 * m; sl_step := 2 |} HM0 (Hncols _ HM0))
    as (M1 & -> & HM1 & H1); [simpl; lia.. | by rewrite !slice_len_even|].
  cbn [bind].
  destruct (setitem_slices_rect (2 * n) (2 * m) _ real {| sl_start := 1; sl_stop := 2 * n; sl_step := 2 |} {| sl_start := 1; sl_stop := 2 * m; sl_step := 2 |} HM1 (Hncols _ HM1))
    as (M2 & -> & HM2 & H2); [simpl; lia.. | by rewrite !slice_len_odd|].
  cbn [bind].
  destruct (setitem_slices_rect (2 * n) (2 * m) _ nimag {| sl_start := 0; sl_stop := 2 * n; sl_step := 2 |} {| sl_start := 1; sl_stop := 2 * m; sl_step := 2 |} HM2 (Hncols _ HM2))
    as (M3 & -> & HM3 & H3); [simpl; lia.. | by rewrite slice_len_even, slice_len_odd|].
  cbn [bind].
  destruct (setitem_slices_rect (2 * n) (2 * m) _ imag {| sl_start := 1; sl_stop := 2 * n; sl_step := 2 |} {| sl_start := 0; sl_stop := 2 * m; sl_step := 2 |} HM3 (Hncols _ HM3))
    as (M4 & -> & HM4 & H4); [simpl; lia.. | by rewrite slice_len_even, slice_len_odd|].
  cbn [bind]. exists M4. split; [done|]. split; [done|].
  intros i j z Hz.
  assert (i < n ∧ j < m) as [Hi Hj] by (apply (rect_entry n m jac); [done | by exists z]).
  assert (entry real i j = Some z.1) as Hre by (unfold real; by rewrite entry_fmap, Hz).
  assert (entry imag i j = Some z.2) as Him by (unfold imag; by rewrite entry_fmap, Hz).
  assert (entry nimag i j = Some (- z.2)%float) as Hnim
    by (unfold nimag; by rewrite entry_fmap, Him).
  split; [|split; [|split]].
  - rewrite H4, H3, H2, H1 by lia.
    by rewrite !slice_pos_even_even, !slice_pos_odd_even by done.
  - rewrite H4, H3, H2 by lia.
    by rewrite !slice_pos_odd_odd, !slice_pos_even_odd by done.
  - rewrite H4, H3 by lia.
    by rewrite slice_pos_odd_even, slice_pos_even_even, slice_pos_odd_odd by done.
  - rewrite H4 by lia.
    by rewrite slice_pos_odd_odd, slice_pos_even_even by done.
Qed.

Lemma complex_to_real_jac_blocks_witness :
  ∃ real_jac, _complex_to_real_jac (λ _ _, 7%float) [[(1, 2)%float]] = Ok real_jac ∧
    entry real_jac 0 1 = Some (-2)%float.
Proof.
  destruct (complex_to_real_jac_blocks (λ _ _, 7%float) [[(1, 2)%float]])
    as (real_jac & Hjac & _ & Hblocks).
  - repeat constructor.
  - exists real_jac. split; [exact Hjac|].
    destruct (Hblocks 0 0 (1, 2)%float eq_refl) as (_ & _ & H & _). exact H.
Defined.

Lemma zeros_rect {A} (z : A) r c :
  rect r c (np.zeros z r c) ∧
  ∀ i j, i < r → j < c → entry (np.zeros z r c) i j = Some z.
Proof.
  unfold np.zeros. split; [split|].
  - apply length_replicate.
  - apply Forall_replicate, length_replicate.
  - intros i j Hi Hj. unfold entry. rewrite lookup_replicate_2 by done. simpl.
    by rewrite lookup_replicate_2.
Qed.

Lemma slice_len_all start len :
  slice_len {| sl_start := start; sl_stop := len; sl_step := 1 |} len = len - start.
Proof. unfold slice_len. cbn [sl_start sl_stop sl_step]. rewrite Nat.div_1_r. lia. Qed.

Lemma slice_len_but_last len :
  slice_len {| sl_start := 0; sl_stop := len; sl_step := 1 |} (len + 1) = len.
Proof. unfold slice_len. cbn [sl_start sl_stop sl_step]. rewrite Nat.div_1_r. lia. Qed.

Lemma slice_pos_step1 start stop len i :
  slice_pos {| sl_start := start; sl_stop := stop; sl_step := 1 |} len i
  = if decide (start ≤ i ∧ i < stop `min` len) then Some (i - start) else None.
Proof.
  unfold slice_pos. cbn [sl_start sl_stop sl_step]. rewrite Nat.mod_1_r, Nat.div_1_r.
  case_decide as H1; case_decide as H2; try done; exfalso; tauto.
Qed.

Lemma slice_pos_step2_even c j :
  2 * j < c →
  slice_pos {| sl_start := 0; sl_stop := c; sl_step := 2 |} c (2 * j) = Some j ∧
  slice_pos {| sl_start := 1; sl_stop := c; sl_step := 2 |} c (2 * j) = None.
Proof.
  intros Hj. split.
  - unfold slice_pos. cbn [sl_start sl_stop sl_step]. rewrite Nat.sub_0_r, (Nat.mul_comm 2 j).
    rewrite Nat.Div0.mod_mul, Nat.div_mul by lia. rewrite decide_True; [done | lia].
  - apply slice_pos_None; [simpl; lia|]. intros a _. simpl. lia.
Qed.

Lemma slice_pos_step2_odd c j :
  2 * j + 1 < c →
  slice_pos {| sl_start := 0; sl_stop := c; sl_step := 2 |} c (2 * j + 1) = None ∧
  slice_pos {| sl_start := 1; sl_stop := c; sl_step := 2 |} c (2 * j + 1) = Some j.
Proof.
  intros Hj. split.
  - apply slice_pos_None; [simpl; lia|]. intros a _. simpl. lia.
  - unfold slice_pos. cbn [sl_start sl_stop sl_step]. replace (2 * j + 1 - 1) with (j * 2) by lia.
    rewrite Nat.Div0.mod_mul, Nat.div_mul by lia. rewrite decide_True; [done | lia].
Qed.

(** X17: [_transform_banded_jac] makes of an array of [r] rows an array of
    [r + 1] rows and as many columns, in which every column of even index is
    the column of the argument moved down by one row, with a 0 on top, and
    every column of odd index is the column of the argument with a 0 below
    it. *)
Theorem transform_banded_jac_shift (bjac : list (list float)) :
  bjac ≠ [] → Forall (λ row, length row = ncols bjac) bjac →
  ∃ newjac, _transform_banded_jac bjac = Ok newjac ∧
    rect (length bjac + 1) (ncols bjac) newjac ∧
    (∀ j, 2 * j < ncols bjac →
       entry newjac 0 (2 * j) = Some 0%float ∧
       ∀ i, i < length bjac → entry newjac (i + 1) (2 * j) = entry bjac i (2 * j)) ∧
    (∀ j, 2 * j + 1 < ncols bjac →
       entry newjac (length bjac) (2 * j + 1) = Some 0%float ∧
       ∀ i, i < length bjac → entry newjac i (2 * j + 1) = entry bjac i (2 * j + 1)).
Proof.
  intros Hne Hrows. set (r := length bjac). set (c := ncols bjac).
  assert (rect r c bjac) as Hb by done.
  unfold _transform_banded_jac. cbv zeta. fold r c.
  destruct (zeros_rect 0%float (r + 1) c) as [HM0 Hzero].
  destruct (getitem_slices_rect r c bjac
              {| sl_start := 0; sl_stop := r; sl_step := 1 |}
              {| sl_start := 0; sl_stop := c; sl_step := 2 |} Hb) as [HV1 HV1e];
    [simpl; lia..|].
  destruct (getitem_slices_rect r c bjac
              {| sl_start := 0; sl_stop := r; sl_step := 1 |}
              {| sl_start := 1; sl_stop := c; sl_step := 2 |} Hb) as [HV2 HV2e];
    [simpl; lia..|].
  rewrite slice_len_all, Nat.sub_0_r in HV1, HV1e, HV2, HV2e.
  set (V1 := getitem_slices bjac {| sl_start := 0; sl_stop := r; sl_step := 1 |}
               {| sl_start := 0; sl_stop := c; sl_step := 2 |}) in *.
  set (V2 := getitem_slices bjac {| sl_start := 0; sl_stop := r; sl_step := 1 |}
               {| sl_start := 1; sl_stop := c; sl_step := 2 |}) in *.
  destruct (setitem_slices_rect (r + 1) c _ V1
              {| sl_start := 1; sl_stop := r + 1; sl_step := 1 |}
              {| sl_start := 0; sl_stop := c; sl_step := 2 |} HM0)
    as (M1 & -> & HM1 & H1).
  { apply (rect_ncols (r + 1)); [done | lia]. }
  { simpl; lia. }
  { simpl; lia. }
  { rewrite slice_len_all. by replace (r + 1 - 1) with r by lia. }
  cbn [bind].
  destruct (setitem_slices_rect (r + 1) c _ V2
              {| sl_start := 0; sl_stop := r; sl_step := 1 |}
              {| sl_start := 1; sl_stop := c; sl_step := 2 |} HM1)
    as (M2 & -> & HM2 & H2).
  { apply (rect_ncols (r + 1)); [done | lia]. }
  { simpl; lia. }
  { simpl; lia. }
  { by rewrite slice_len_but_last. }
  cbn [bind]. exists M2. split; [done|]. split; [done|].
  split.
  - intros j Hj. destruct (slice_pos_step2_even c j Hj) as [He Ho].
    assert (j < slice_len {| sl_start := 0; sl_stop := c; sl_step := 2 |} c) as Hjlen.
    { by apply slice_pos_Some in He as [? _]; [|simpl; lia]. }
    split.
    + rewrite H2, H1 by lia. rewrite Ho, He, !slice_pos_step1.
      rewrite (decide_False (P := 1 ≤ 0 ∧ _)) by lia.
      case_decide; by apply Hzero; lia.
    + intros i Hi. rewrite H2, H1 by lia. rewrite Ho, He, !slice_pos_step1.
      rewrite (decide_True (P := 1 ≤ i + 1 ∧ _)) by lia.
      replace (i + 1 - 1) with i by lia.
      assert (entry V1 i j = entry bjac i (2 * j)) as Hsel.
      { rewrite HV1e by done. simpl. f_equal; lia. }
      case_decide; exact Hsel.
  - intros j Hj. destruct (slice_pos_step2_odd c j Hj) as [He Ho].
    assert (j < slice_len {| sl_start := 1; sl_stop := c; sl_step := 2 |} c) as Hjlen.
    { by apply slice_pos_Some in Ho as [? _]; [|simpl; lia]. }
    split.
    + rewrite H2, H1 by lia. rewrite Ho, He, !slice_pos_step1.
      rewrite (decide_False (P := 0 ≤ r ∧ _)) by lia.
      case_decide; by apply Hzero; lia.
    + intros i Hi. rewrite H2 by lia. rewrite Ho, !slice_pos_step1.
      rewrite (decide_True (P := 0 ≤ i ∧ _)) by lia.
      rewrite Nat.sub_0_r, HV2e by done. simpl. f_equal; lia.
Qed.

Lemma transform_banded_jac_shift_witness :
  ∃ newjac, _transform_banded_jac [[1; 2]; [3; 4]]%float = Ok newjac ∧
    entry newjac 0 0 = Some 0%float ∧ entry newjac 2 1 = Some 0%float.
Proof.
  destruct (transform_banded_jac_shift [[1; 2]; [3; 4]]%float)
    as (newjac & Hnew & _ & Heven & Hodd).
  - discriminate.
  - repeat constructor.
  - exists newjac. split; [exact Hnew|]. split.
    + apply (Heven 0). vm_compute. lia.
    + apply (Hodd 0). vm_compute. lia.
Defined.

(** ** A branch without attributes *)

Section missing.
Context (kg : nx.Graph).
Context (Hkg : simple kg).

Local Abbreviation E := (nx.number_of_edges kg).

Lemma edge_attr_cases u v :
  adjacent kg u v →
  (branch_attr kg (u, v) = None ∧ edge_attr kg u v = Raise KeyError) ∨
  (∃ d, branch_attr kg (u, v) = Some d ∧ edge_attr kg u v = Ok d).
Proof.
  intros Hadj. unfold edge_attr, nx.get_edge_data, nx.has_edge, branch_attr. cbn [fst snd].
  rewrite bool_decide_eq_true_2 by done.
  destruct (nx.attr kg !! nx.edge_id u v) as [d|]; [right; by exists d | by left].
Qed.

Lemma kvl_edge_cases i volsum A edge :
  adjacent kg edge.1 edge.2 → square E A → i < E →
  kvl_edge kg i (volsum, A) edge = Raise KeyError ∨
  ∃ volsum' A', kvl_edge kg i (volsum, A) edge = Ok (volsum', A') ∧ square E A'.
Proof.
  intros Hadj HA Hi. destruct edge as [org dst]. simpl in Hadj.
  destruct (get_edge_index_adjacent kg Hkg org dst Hadj) as (c & Hc & Hlt).
  unfold kvl_edge. cbn [fst snd].
  destruct (edge_attr_cases org dst Hadj) as [[_ ->] | (d & _ & ->)]; [by left|].
  right. cbn [bind]. rewrite Hc.
  destruct (isstraight org dst (suggested_dir d)); rewrite (setitem_row_Some E) by done;
    cbn [bind]; eexists _, _; (split; [done|]); by apply square_insert_entry.
Qed.

Lemma kvl_walk_cases i cycle volsum A :
  (∀ e, e ∈ cycle → adjacent kg e.1 e.2) → square E A → i < E →
  foldM (kvl_edge kg i) cycle (volsum, A) = Raise KeyError ∨
  ∃ volsum' A', foldM (kvl_edge kg i) cycle (volsum, A) = Ok (volsum', A') ∧ square E A'.
Proof.
  intros Hadj HA Hi. revert volsum A HA.
  induction cycle as [|edge cycle IH]; intros volsum A HA; cbn [foldM].
  - right. by exists volsum, A.
  - destruct (kvl_edge_cases i volsum A edge) as [-> | (volsum1 & A1 & -> & HA1)];
      [apply Hadj; by left | done.. | by left|].
    cbn [bind]. apply IH; [|done]. intros e He. apply Hadj. by right.
Qed.

Lemma kvl_row_cases i cycle A B :
  cycle_in kg cycle → i < E → square E A → length B = E →
  kvl_row kg (i, A, B) cycle = Raise KeyError ∨
  ∃ A' B', kvl_row kg (i, A, B) cycle = Ok (i + 1, A', B') ∧ square E A' ∧ length B' = E.
Proof.
  intros (_ & Hadj & _) Hi HA HB. unfold kvl_row.
  destruct (kvl_walk_cases i cycle 0%float A Hadj HA Hi) as [-> | (volsum & A1 & -> & HA1)];
    [by left|].
  right. cbn [bind]. unfold np.setitem. rewrite decide_True by lia. cbn [bind].
  eexists _, _. split; [done|]. split; [done|]. by rewrite length_insert.
Qed.

Lemma kvl_rows_cases fcl i A B :
  Forall (cycle_in kg) fcl → i + length fcl ≤ E → square E A → length B = E →
  foldM (kvl_row kg) fcl (i, A, B) = Raise KeyError ∨
  ∃ A' B', foldM (kvl_row kg) fcl (i, A, B) = Ok (i + length fcl, A', B') ∧
           square E A' ∧ length B' = E.
Proof.
  revert i A B. induction fcl as [|cycle fcl IH]; intros i A B Hall Hlen HA HB; cbn [foldM].
  - right. exists A, B. by rewrite Nat.add_0_r.
  - apply Forall_cons in Hall as [Hcycle Hall]. cbn [length] in Hlen.
    destruct (kvl_row_cases i cycle A B Hcycle) as [-> | (A1 & B1 & -> & HA1 & HB1)];
      [lia | done.. | by left|].
    cbn [bind].
    destruct (IH (i + 1) A1 B1 Hall) as [-> | (A' & B' & -> & HA' & HB')];
      [lia | done.. | by left|].
    right. exists A', B'. split; [|done].
    cbn [length]. by replace (i + S (length fcl)) with (i + 1 + length fcl) by lia.
Qed.

Lemma kcl_edge_cases i node A nei :
  adjacent kg node nei → square E A → i < E →
  kcl_edge kg i node A nei = Raise KeyError ∨
  ∃ A', kcl_edge kg i node A nei = Ok A' ∧ square E A' ∧
        branch_attr kg (node, nei) ≠ None.
Proof.
  intros Hadj HA Hi.
  destruct (get_edge_index_adjacent kg Hkg node nei Hadj) as (c & Hc & Hlt).
  unfold kcl_edge.
  destruct (edge_attr_cases node nei Hadj) as [[_ ->] | (d & Hd & ->)]; [by left|].
  right. cbn [bind]. rewrite Hc.
  destruct (isstraight node nei (suggested_dir d)); rewrite (setitem_row_Some E) by done;
    (eexists; split; [done|]); (split; [by apply square_insert_entry | by rewrite Hd]).
Qed.

Lemma kcl_node_cases i node nbrs A :
  (∀ nei, nei ∈ nbrs → adjacent kg node nei) → square E A → i < E →
  foldM (kcl_edge kg i node) nbrs A = Raise KeyError ∨
  ∃ A', foldM (kcl_edge kg i node) nbrs A = Ok A' ∧ square E A' ∧
        ∀ nei, nei ∈ nbrs → branch_attr kg (node, nei) ≠ None.
Proof.
  intros Hadj HA Hi. revert A HA. induction nbrs as [|nei nbrs IH]; intros A HA; cbn [foldM].
  - right. exists A. split; [done|]. split; [done|]. by intros nei Hnei%elem_of_nil.
  - destruct (kcl_edge_cases i node A nei) as [-> | (A1 & -> & HA1 & Hsome)];
      [apply Hadj; by left | done.. | by left|].
    cbn [bind].
    destruct (IH (λ x Hx, Hadj x (list_elem_of_further _ _ _ Hx)) A1 HA1)
      as [-> | (A' & -> & HA' & Hall)]; [by left|].
    right. exists A'. split; [done|]. split; [done|].
    intros x Hx. apply elem_of_cons in Hx as [Hx | Hx]; [by rewrite Hx | by apply Hall].
Qed.

Lemma kcl_rows_cases nodes i A :
  2 ≤ length nodes → i + length nodes = E + 1 → square E A →
  kcl_rows kg nodes i A = Raise KeyError ∨
  ∃ r, kcl_rows kg nodes i A = Ok r ∧
    ∀ k node, nodes !! k = Some node → k + 1 < length nodes →
      ∀ nei, adjacent kg node nei → branch_attr kg (node, nei) ≠ None.
Proof.
  revert i A. induction nodes as [|node nodes IH]; intros i A Hlen Hi HA; [simpl in Hlen; lia|].
  cbn [length] in *. cbn [kcl_rows].
  destruct (kcl_node_cases i node (nx.neighbors kg node) A)
    as [-> | (A1 & -> & HA1 & Hall)]; [done | done | lia | by left|].
  cbn [bind]. case_bool_decide as Hbreak.
  - right. eexists. split; [done|]. intros [|k] x Hx Hk; [|lia]. by injection Hx as <-.
  - destruct (IH (i + 1) A1) as [-> | (r & -> & Hrest)]; [lia | lia | done | by left|].
    right. exists r. split; [done|]. intros [|k] x Hx Hk.
    + by injection Hx as <-.
    + apply (Hrest k x Hx). lia.
Qed.

End missing.

(** X18: on a connected circuit in which some branch has no attributes
    ([nx.set_edge_attributes] passes over an entry whose key is no edge of
    the graph), [find_kg_edges_weights] raises [KeyError]: the rows of the
    current law read every branch of the circuit. *)
Theorem find_kg_edges_weights_key_error (kg : nx.Graph) (u v : nat) :
  simple kg → connected kg →
  adjacent kg u v → branch_attr kg (u, v) = None →
  find_kg_edges_weights kg = Raise KeyError.
Proof.
  intros Hkg Hconn Huv Hnone.
  destruct (simple_adjacent kg u v Hkg Huv) as (Hu & Hv & Hne & Hvu).
  destruct (fundamental_cycles_connected kg Hkg Hconn)
    as (eled & fcl & _ & _ & Hfcl & _ & Hcycles & Hcount).
  unfold find_kg_edges_weights, assemble. rewrite Hfcl. cbn [bind].
  destruct (kvl_rows_cases kg Hkg fcl 0
              (np.zeros 0%float (nx.number_of_edges kg) (nx.number_of_edges kg))
              (replicate (nx.number_of_edges kg) 0%float))
    as [-> | (A1 & B & -> & HA1 & HB)];
    [done | lia | apply square_zeros | apply length_replicate | done|].
  cbn [bind Nat.add].
  destruct (kcl_rows_cases kg Hkg (nx.nodes kg) (length fcl) A1)
    as [-> | ([i A] & Hkcl & Hall)].
  { unfold nx.nodes. rewrite length_seq. lia. }
  { unfold nx.nodes. rewrite length_seq. lia. }
  { done. }
  { done. }
  exfalso.
  assert (∀ w x, w + 1 < nx.number_of_nodes kg → adjacent kg w x →
            branch_attr kg (w, x) ≠ None) as Hread.
  { intros w x Hw Hwx. apply (Hall w w); [|by (unfold nx.nodes; rewrite length_seq) | done].
    unfold nx.nodes. apply lookup_seq. lia. }
  destruct (decide (u + 1 < nx.number_of_nodes kg)) as [Hlt|Hlast].
  - by apply (Hread u v).
  - apply (Hread v u); [lia | done|].
    unfold branch_attr in *. cbn [fst snd] in *. by rewrite edge_id_sym.
Qed.

Lemma find_kg_edges_weights_key_error_witness :
  find_kg_edges_weights
    {| nx.adj := [[1]; [0]]; nx.attr := ∅ |} = Raise KeyError.
Proof.
  apply (find_kg_edges_weights_key_error {| nx.adj := [[1]; [0]]; nx.attr := ∅ |} 0 1).
  - apply (bool_decide_unpack _). vm_compute. reflexivity.
  - split; [vm_compute; lia|]. intros a b Ha Hb.
    assert (a < 2 ∧ b < 2) as [Ha' Hb'] by (split; [exact Ha | exact Hb]).
    destruct a as [|[|a]], b as [|[|b]]; try lia; try done.
    + apply rtc_once. vm_compute. repeat constructor.
    + apply rtc_once. vm_compute. repeat constructor.
  - vm_compute. repeat constructor.
  - reflexivity.
Defined.

(** ** A branch given with a node index below zero *)

Lemma index_lt n i k : np.index n i = Ok k → k < n.
Proof. unfold np.index. repeat case_decide; intros [= <-]; lia. Qed.

Lemma parse_line_wraps n st st' r :
  parse_line n st r = Ok st' → square n st.1 →
  square n st'.1 ∧
  (∀ u v, entry st.1 u v = Some 1%float → entry st'.1 u v = Some 1%float) ∧
  (∀ u v, wraps n r u v → entry st'.1 u v = Some 1%float) ∧
  st'.2 = dict_set st.2 (rec_org r, rec_dst r) r.
Proof.
  destruct st as [kgam d]. cbn [fst snd]. unfold parse_line. intros Hstep HM.
  destruct (np.index n (rec_org r)) as [x|] eqn:Hx; [|done].
  destruct (np.index n (rec_dst r)) as [y|] eqn:Hy; [|done]. cbn [bind] in Hstep.
  apply index_lt in Hx as Hxn. apply index_lt in Hy as Hyn.
  destruct (square_lookup n kgam x HM Hxn) as (row & Hrow & Hlen).
  rewrite (setitem2_intro kgam x y 1%float row) in Hstep by (done || lia).
  cbn [bind] in Hstep. injection Hstep as <-. cbn [fst snd].
  replace row with (default [] (kgam !! x)) by (by rewrite Hrow).
  split; [|split; [|split; [|done]]].
  - apply square_insert; [done|]. rewrite Hrow. cbn [default]. by rewrite length_insert.
  - intros u v He. rewrite (entry_insert n) by done. by case_decide.
  - intros u v [Hu Hv]. rewrite (entry_insert n) by done.
    rewrite decide_True; [done|]. split; congruence.
Qed.

Lemma parse_lines_wraps n lines st st' :
  foldM (parse_line n) lines st = Ok st' → square n st.1 →
  square n st'.1 ∧
  (∀ u v, entry st.1 u v = Some 1%float → entry st'.1 u v = Some 1%float) ∧
  (∀ r u v, r ∈ lines → wraps n r u v → entry st'.1 u v = Some 1%float) ∧
  ∀ k r', (k, r') ∈ st'.2 → (k, r') ∈ st.2 ∨ k = (rec_org r', rec_dst r') ∧ r' ∈ lines.
Proof.
  revert st. induction lines as [|r lines IH]; intros st; cbn [foldM].
  - intros [= <-] HM. split; [done|]. split; [done|].
    split; [by intros r u v Hr%elem_of_nil | by left].
  - destruct (parse_line n st r) as [st1|] eqn:Hstep; [|done]. cbn [bind].
    intros Hrest HM.
    destruct (parse_line_wraps n st st1 r Hstep HM) as (HM1 & Hkeep1 & Hnew & Hdict).
    destruct (IH st1 Hrest HM1) as (HM' & Hkeep & Hlines & Hitems).
    split; [done|]. split; [intros u v He; by apply Hkeep, Hkeep1|]. split.
    + intros r0 u v Hr0 Hw. apply elem_of_cons in Hr0 as [-> | Hr0].
      * by apply Hkeep, Hnew.
      * by apply (Hlines r0).
    + intros k r' Hin. destruct (Hitems k r' Hin) as [Hin1 | [-> Hr']].
      * rewrite Hdict in Hin1. apply elem_of_dict_set in Hin1 as [? | [= -> ->]]; [by left|].
        right. split; [done | by left].
      * right. split; [done | by right].
Qed.

Lemma set_edge_attributes_None items g id :
  nx.attr g !! id = None →
  (∀ x y r, ((x, y), r) ∈ items → (0 ≤ x)%Z → (0 ≤ y)%Z →
            nx.edge_id (Z.to_nat x) (Z.to_nat y) ≠ id) →
  nx.attr (set_edge_attributes g items) !! id = None.
Proof.
  revert g. induction items as [|[[x y] r] items IH]; intros g Hg Hitems; [done|].
  unfold set_edge_attributes in *. cbn [foldl]. apply IH.
  - unfold set_edge_attribute.
    destruct (bool_decide (0 ≤ x)%Z) eqn:Hx; [|done].
    destruct (bool_decide (0 ≤ y)%Z) eqn:Hy; [|done].
    destruct (nx.has_edge g (Z.to_nat x) (Z.to_nat y)); [|done]. cbn [andb nx.attr].
    apply bool_decide_eq_true_1 in Hx. apply bool_decide_eq_true_1 in Hy.
    rewrite lookup_insert_ne; [done|]. apply (Hitems x y r); [by left | done..].
  - intros x' y' r' Hin. apply (Hitems x' y' r'). by right.
Qed.

(** X19: when a file is accepted, a line whose node indices count from the
    last node (an index below zero) still makes a branch between the two
    nodes it is read as naming; but unless some line names that pair of
    nodes with indices from zero on, the branch gets no attributes, and
    reading them raises [KeyError]. *)
Theorem circuit_parser_negative_index (n : nat) (edgesnumber : Z)
    (lines : list BranchRecord) (kg : nx.Graph) (r : BranchRecord) (u v : nat) :
  circuit_parser (Z.of_nat n) edgesnumber lines = Ok kg →
  r ∈ lines → wraps n r u v →
  (∀ r', r' ∈ lines → ¬ (joins r' u v ∨ joins r' v u)) →
  adjacent kg u v ∧ branch_attr kg (u, v) = None ∧ edge_attr kg u v = Raise KeyError.
Proof.
  intros Hparse Hr Hw Hneg. unfold circuit_parser in Hparse.
  rewrite decide_False in Hparse by lia. rewrite Nat2Z.id in Hparse.
  destruct (foldM (parse_line n) lines (np.zeros 0%float n n, []))
    as [[kgam kgedgatt]|] eqn:Hfold; [|done].
  cbn [bind] in Hparse. injection Hparse as <-.
  destruct (parse_lines_wraps n lines _ _ Hfold (square_zeros _ n))
    as (HM & _ & Hlines & Hitems). cbn [fst snd] in *.
  set (kg0 := nx.from_pandas_adjacency (λ x, negb (is_zero x)) kgam).
  assert (adjacent (set_edge_attributes kg0 kgedgatt) u v) as Hadj.
  { unfold adjacent, nx.neighbors. rewrite set_edge_attributes_adj.
    fold (nx.neighbors kg0 u). unfold kg0. apply elem_of_from_pandas_adjacency.
    destruct Hw as [Hu Hv]. split; [destruct HM as [-> _]; by eapply index_lt|].
    left. apply elem_of_nonzero.
    pose proof (Hlines r u v Hr (conj Hu Hv)) as He. unfold entry in He.
    destruct (kgam !! u) as [row|]; [|done]. by exists row, 1%float. }
  assert (branch_attr (set_edge_attributes kg0 kgedgatt) (u, v) = None) as Hnone.
  { unfold branch_attr. cbn [fst snd]. apply set_edge_attributes_None.
    - unfold kg0. simpl. apply lookup_empty.
    - intros x y r' Hin Hx Hy Hid.
      destruct (Hitems _ _ Hin) as [Hnil | [[= -> ->] Hr']]; [by apply elem_of_nil in Hnil|].
      apply (Hneg r' Hr'). unfold joins.
      apply edge_id_eq in Hid as [[<- <-] | [<- <-]]; [left | right]; lia. }
  split; [done|]. split; [done|].
  unfold edge_attr, nx.get_edge_data, nx.has_edge. rewrite bool_decide_eq_true_2 by done.
  unfold branch_attr in Hnone. cbn [fst snd] in Hnone. by rewrite Hnone.
Qed.

Lemma circuit_parser_negative_index_witness :
  ∃ kg, circuit_parser 3 1 negative_lines = Ok kg ∧
    adjacent kg 2 0 ∧ branch_attr kg (2, 0) = None ∧ edge_attr kg 2 0 = Raise KeyError.
Proof.
  eexists. split; [vm_compute; reflexivity|].
  apply (circuit_parser_negative_index 3 1 negative_lines _
           {| rec_org := -1; rec_dst := 0; rec_resistor := 1; rec_battery := 6;
              rec_capacitor := 0; rec_self := 0 |} 2 0).
  - vm_compute. reflexivity.
  - left.
  - split; vm_compute; reflexivity.
  - intros r' Hr'. apply list_elem_of_singleton in Hr'. subst r'.
    unfold joins. cbn [rec_org rec_dst]. lia.
Defined.
